(** * susc-converter: the SUS serializer ([custom_sus_io/dumper.py]) and the
    exporter ([src/sus/exporter.py])

    A shallow embedding of [ChannelProvider] and [dumps] together with the
    properties of the serialization core: channel allocation, measure
    location of ticks, BPM identifiers, note-line rendering and the layout
    of the produced document; and of [export], which builds the score that
    [dumps] serializes.

    Conventions.
    - Python [int] is [Z]; [//] and [%] are [Z.div] and [Z.modulo], which
      share Python's floor semantics.
    - Python [float] values (bar lengths, tempo values, timescale values)
      are rationals [Q] with exact arithmetic; [int(x)] on a float is
      truncation toward zero.
    - An exception that leaves [dumps] is an [Err] result.
    - A [dict] whose iteration order matters is an association list in
      insertion order; the per-line [data] dict is a [gmap]. *)

From Stdlib Require Import ZArith QArith Qround List Sorted Lia Lqa Ascii String DecimalString.
From stdpp Require Import base option list gmap strings.

Close Scope Q_scope.
Local Open Scope Z_scope.

(** ** Exceptions *)

Inductive error : Type :=
| NoChannel          (* Exception('No more channel available.') *)
| TooManyBpms        (* the guard [len(bpms) >= 36 ** 2 - 1]; its message reads
                        [bpms.length], so Python leaves with an AttributeError *)
| ZeroDivisionError
| IndexError
| ValueError.

Inductive result (A : Type) : Type :=
| Ok (a : A)
| Err (e : error).
Arguments Ok {A} a.
Arguments Err {A} e.

#[global] Instance result_bind : MBind result := fun A B k r =>
  match r with
  | Ok a => k a
  | Err e => Err e
  end.
#[global] Instance result_ret : MRet result := fun A a => Ok a.

(** [for x in xs: st = body(st, x)] where the body may raise. *)
Fixpoint for_each {A S : Type} (body : S -> A -> result S) (xs : list A) (st : S)
  : result S :=
  match xs with
  | [] => Ok st
  | x :: rest => st' ← body st x; for_each body rest st'
  end.

(** ** ChannelProvider *)

Module ChannelProvider.

(** [channel_map]: keys [0..35] in insertion order; the list index is the
    key, the element is the bound [(start, end)]. *)
Definition init : list (Z * Z) := replicate 36 (0, 0).

(** The test of line 43 for one entry. *)
Definition free_for (start_tick end_tick : Z) (binding : Z * Z) : bool :=
  let '(start, end_) := binding in
  ((start =? 0) && (end_ =? 0)) || (end_tick <? start) || (end_ <? start_tick).

(** The [for key, (start, end) in self.channel_map.items()] scan, started at
    key [key]. *)
Fixpoint scan (m : list (Z * Z)) (key : nat) (start_tick end_tick : Z)
  : option nat :=
  match m with
  | [] => None
  | binding :: rest =>
      if free_for start_tick end_tick binding then Some key
      else scan rest (S key) start_tick end_tick
  end.

Definition generate_channel (m : list (Z * Z)) (start_tick end_tick : Z)
  : result (Z * list (Z * Z)) :=
  match scan m 0 start_tick end_tick with
  | Some key => Ok (Z.of_nat key, <[key := (start_tick, end_tick)]> m)
  | None => Err NoChannel
  end.

End ChannelProvider.

Import ChannelProvider.

(** Two bindings conflict iff their intervals overlap. *)
Definition overlap (a b : Z * Z) : Prop :=
  ~ (snd a < fst b \/ snd b < fst a).

(** ** Text helpers: [str(int)], [str.zfill], [base36.dumps] *)

(** [str(n)] for an [int]. *)
Definition str_int (n : Z) : string :=
  NilZero.string_of_int (Z.to_int n).

(** [s.zfill(width)]: pad with ["0"] on the left, after a leading sign. *)
Fixpoint zeros (n : nat) : string :=
  match n with
  | O => EmptyString
  | S n' => String "0" (zeros n')
  end.

Definition zfill (width : nat) (s : string) : string :=
  let pad := zeros (width - String.length s) in
  match s with
  | String c rest =>
      if (Ascii.eqb c "-" || Ascii.eqb c "+")%bool
      then String c (pad +:+ rest)
      else pad +:+ s
  | EmptyString => pad
  end.

(** [f'{measure:03}']. *)
Definition fmt03 (n : Z) : string := zfill 3 (str_int n).

(** The [base36] package: [dumps] writes an integer in base 36 with the
    alphabet [0-9a-z], a minus sign in front of a negative number. *)
Definition alphabet : list ascii :=
  list_ascii_of_string "0123456789abcdefghijklmnopqrstuvwxyz".

Fixpoint base36_loop (fuel : nat) (number : Z) (value : string) : string :=
  match fuel with
  | O => value
  | S fuel' =>
      if number =? 0 then value
      else base36_loop fuel' (number / 36)
             (String (nth (Z.to_nat (number mod 36)) alphabet "0"%char) value)
  end.

Definition base36_nonneg (number : Z) : string :=
  match base36_loop (S (Z.to_nat (Z.log2 number))) number EmptyString with
  | EmptyString => "0"
  | value => value
  end.

Definition base36_dumps (number : Z) : string :=
  if number <? 0 then "-" +:+ base36_nonneg (- number)
  else base36_nonneg number.

(** [int(token)] for a token without whitespace: an optional sign, then
    ASCII decimal digits, single underscores allowed between digits. *)
Definition is_digit (c : ascii) : bool :=
  let n := nat_of_ascii c in ((48 <=? n)%nat && (n <=? 57)%nat)%bool.

Fixpoint parse_digits (s : string) (acc : Z) (prev_digit : bool) : option Z :=
  match s with
  | EmptyString => if prev_digit then Some acc else None
  | String c rest =>
      if is_digit c
      then parse_digits rest (10 * acc + Z.of_nat (nat_of_ascii c - 48)) true
      else if (Ascii.eqb c "_" && prev_digit)%bool
           then parse_digits rest acc false
           else None
  end.

Definition parse_int (s : string) : option Z :=
  match s with
  | String "-" rest => Z.opp <$> parse_digits rest 0 false
  | String "+" rest => parse_digits rest 0 false
  | _ => parse_digits s 0 false
  end.

(** [s.split()]: the maximal runs of characters that are not ASCII
    whitespace. *)
Definition is_space (c : ascii) : bool :=
  let n := nat_of_ascii c in
  (((9 <=? n)%nat && (n <=? 13)%nat) || ((28 <=? n)%nat && (n <=? 32)%nat))%bool.

Fixpoint split_ws_go (s : string) (word : string) : list string :=
  match s with
  | EmptyString => match word with EmptyString => [] | _ => [word] end
  | String c rest =>
      if is_space c
      then match word with
           | EmptyString => split_ws_go rest EmptyString
           | _ => word :: split_ws_go rest EmptyString
           end
      else split_ws_go rest (word +:+ String c EmptyString)
  end.

Definition split_ws (s : string) : list string := split_ws_go s EmptyString.

(** [int(x)] for a float [x]: truncation toward zero. *)
Definition py_int (x : Q) : Z :=
  if Qle_bool 0 x then Qfloor x else Qceiling x.

(** [sorted(xs, key=key)]: a stable sort on an integer key. *)
Fixpoint insert_by {A : Type} (key : A -> Z) (x : A) (l : list A) : list A :=
  match l with
  | [] => [x]
  | y :: rest =>
      if key x <=? key y then x :: y :: rest else y :: insert_by key x rest
  end.

Fixpoint sorted_by {A : Type} (key : A -> Z) (l : list A) : list A :=
  match l with
  | [] => []
  | x :: rest => insert_by key x (sorted_by key rest)
  end.

(** ** The score *)

(** Modelled from the spec: [schemas.py], which declares [Note], [BarLength],
    [Metadata] and [Score], is not among the sources.  A note carries a tick,
    a lane, a width and a type code. *)
Record Note : Type := mkNote { tick : Z; lane : Z; width : Z; type_ : Z }.

(** Modelled from the spec: [BarLength], declared in [schemas.py]; one
    bar-length segment as [dumps] builds it,
    [BarLength(start_tick, measure, value)]. *)
Record BarLength : Type :=
  mkBarLength { start_tick : Z; measure : Z; value : Q }.

(** Modelled from the spec: the dataclass fields of [Metadata], in
    declaration order.  [MStr] is a field declared [Optional[str]], [MNum] a
    numeric one; [Requests] is the field named [requests]. [None] is an
    absent field. *)
Inductive meta_value : Type :=
| MStr (s : string)
| MNum (x : Q).

Inductive meta_field : Type :=
| Field (name : string) (attr : option meta_value)
| Requests (attr : option (list string)).

(** Modelled from the spec: the [Score] consumed by [dumps]. *)
Record Score : Type := mkScore {
  metadata : list meta_field;
  bar_lengths : list (Z * Q);
  bpms : list (Z * Q);
  taps : list Note;
  directionals : list Note;
  slides : list (list Note);
  guides : list (list Note);
  tils : list (Z * Q)
}.

(** ** Output lines

    Every constructor is one of the f-strings appended to [lines]; numbers
    are kept as numbers and written out by [line_text]. *)
Inductive line : Type :=
| Comment (comment : string)
| Blank
| MetaLine (name : string) (attr : meta_value)
| RequestLine (request : string)
| BarLengthLine (measure : Z) (value : Q)
| BpmLine (identifier : string) (value : Q)
| TilLine (til_list : list (Z * Z * Q))
| HiSpeedLine
| MeasureHsLine
| NoteLine (tag : string) (values : list string).

(** ** Note maps

    [note_maps = defaultdict(lambda: {'raws': [], 'ticks_per_measure': 0})],
    keyed by the tag [f'{current_measure:03}{info}'], in insertion order. *)
Record note_map : Type :=
  mkNoteMap { raws : list (Z * string); ticks_per_measure : Z }.

(** [note_map = note_maps[tag]; note_map['raws'].append(raw);
    note_map['ticks_per_measure'] = tpm]. *)
Fixpoint note_maps_push (note_maps : list (string * note_map)) (tag : string)
    (raw : Z * string) (tpm : Z) : list (string * note_map) :=
  match note_maps with
  | [] => [(tag, mkNoteMap [raw] tpm)]
  | (k, nm) :: rest =>
      if String.eqb k tag
      then (k, mkNoteMap (raws nm ++ [raw]) tpm) :: rest
      else (k, nm) :: note_maps_push rest tag raw tpm
  end.

Fixpoint note_maps_get (note_maps : list (string * note_map)) (tag : string)
  : option note_map :=
  match note_maps with
  | [] => None
  | (k, nm) :: rest =>
      if String.eqb k tag then Some nm else note_maps_get rest tag
  end.

(** ** Bar lengths in ticks (lines 116-126) *)

Fixpoint bar_lengths_loop (ticks_per_beat : Z) (accumulated_ticks : Z)
    (bar_lengths : list (Z * Q)) : list BarLength :=
  match bar_lengths with
  | [] => []
  | (measure, value) :: rest =>
      let nextMeasure := match rest with (m, _) :: _ => m | [] => 0 end in
      mkBarLength accumulated_ticks measure value
      :: bar_lengths_loop ticks_per_beat
           (accumulated_ticks
            + py_int (inject_Z (nextMeasure - measure) * value
                      * inject_Z ticks_per_beat)%Q)
           rest
  end.

Definition bar_lengths_in_ticks (ticks_per_beat : Z) (bar_lengths : list (Z * Q))
  : list BarLength :=
  rev (bar_lengths_loop ticks_per_beat 0 bar_lengths).

(** ** push_raw (lines 128-135)

    The first segment of the reversed list with [tick >= start_tick] takes
    the note; when there is none the call does nothing.  Both divisions
    raise on a zero divisor. *)
Definition push_raw (bar_lengths_in_ticks : list BarLength) (ticks_per_beat : Z)
    (note_maps : list (string * note_map)) (tick : Z) (info data : string)
  : result (list (string * note_map)) :=
  match List.find (fun b => start_tick b <=? tick) bar_lengths_in_ticks with
  | None => Ok note_maps
  | Some bar_length =>
      if ticks_per_beat =? 0 then Err ZeroDivisionError
      else if Qeq_bool (value bar_length) 0 then Err ZeroDivisionError
      else
        let current_measure :=
          measure bar_length
          + py_int (inject_Z (tick - start_tick bar_length)
                    / inject_Z ticks_per_beat / value bar_length)%Q in
        Ok (note_maps_push note_maps (fmt03 current_measure +:+ info)
              (tick - start_tick bar_length, data)
              (py_int (value bar_length * inject_Z ticks_per_beat)%Q))
  end.

(** ** Rendering one note map (lines 182-191) *)

(** [range(0, stop, step)] for a non-zero step. *)
Definition py_range (stop step : Z) : list Z :=
  let n :=
    if 0 <? step then (if 0 <? stop then (stop + step - 1) / step else 0)
    else (if stop <? 0 then (- stop - step - 1) / (- step) else 0) in
  map (fun k => Z.of_nat k * step) (seq 0 (Z.to_nat n)).

(** The resolution: [gcd = ticks_per_measure; for raw: gcd = math.gcd(raw[0], gcd)]. *)
Definition resolution (nm : note_map) : Z :=
  foldl (fun gcd raw => Z.gcd (fst raw) gcd) (ticks_per_measure nm) (raws nm).

(** [data = {}; for raw: data[raw[0] % ticks_per_measure] = raw[1]]. *)
Definition cell_data (nm : note_map) : gmap Z string :=
  foldl (fun data raw => <[fst raw `mod` ticks_per_measure nm := snd raw]> data)
        ∅ (raws nm).

(** [data.get(i) or '00']. *)
Definition cell (data : gmap Z string) (i : Z) : string :=
  match data !! i with
  | Some EmptyString => "00"
  | Some s => s
  | None => "00"
  end.

Definition render_note_map (nm : note_map) : result (list string) :=
  match raws nm with
  | _ :: _ =>
      if ticks_per_measure nm =? 0 then Err ZeroDivisionError
      else Ok (cell (cell_data nm) <$> py_range (ticks_per_measure nm) (resolution nm))
  | [] =>
      if ticks_per_measure nm =? 0 then Err ValueError
      else Ok (cell (cell_data nm) <$> py_range (ticks_per_measure nm) (resolution nm))
  end.

(** [for tag, note_map in note_maps.items(): ... lines.append(...)]. *)
Definition render_all (note_maps : list (string * note_map)) (lines : list line)
  : result (list line) :=
  for_each (fun lines '(tag, nm) =>
              values ← render_note_map nm;
              Ok (lines ++ [NoteLine tag values]))
           note_maps lines.

(** ** dumps *)

(** Lines 95-98: one request. *)
Definition request_step (st : list line * Z) (request : string)
  : result (list line * Z) :=
  let '(lines, ticks_per_beat) := st in
  let lines := lines ++ [RequestLine request] in
  if String.prefix "ticks_per_beat" request then
    match split_ws request with
    | _ :: token :: _ =>
        match parse_int token with
        | Some n => Ok (lines, n)
        | None => Err ValueError
        end
    | _ => Err IndexError
    end
  else Ok (lines, ticks_per_beat).

(** Lines 87-98: one metadata field. *)
Definition metadata_step (st : list line * Z) (field : meta_field)
  : result (list line * Z) :=
  let '(lines, ticks_per_beat) := st in
  match field with
  | Field _ None | Requests None => Ok st
  | Field name (Some attr) => Ok (lines ++ [MetaLine name attr], ticks_per_beat)
  | Requests (Some requests) =>
      for_each request_step requests (lines ++ [Blank], ticks_per_beat)
  end.

(** [bpm_identifiers]: a dict from tempo value to identifier. *)
Fixpoint bpm_get (bpm_identifiers : list (Q * string)) (value : Q) : option string :=
  match bpm_identifiers with
  | [] => None
  | (k, identifier) :: rest =>
      if Qeq_bool k value then Some identifier else bpm_get rest value
  end.

(** Lines 141-146: one tempo change. *)
Definition bpm_step (segs : list BarLength) (ticks_per_beat : Z)
    (st : list line * list (Q * string) * list (string * note_map))
    (bpm : Z * Q)
  : result (list line * list (Q * string) * list (string * note_map)) :=
  let '(lines, bpm_identifiers, note_maps) := st in
  let '(tick, value) := bpm in
  let identifier :=
    zfill 2 (base36_dumps (Z.of_nat (length bpm_identifiers) + 1)) in
  match bpm_get bpm_identifiers value with
  | None =>
      note_maps ← push_raw segs ticks_per_beat note_maps tick "08" identifier;
      Ok (lines ++ [BpmLine identifier value],
          bpm_identifiers ++ [(value, identifier)], note_maps)
  | Some known =>
      note_maps ← push_raw segs ticks_per_beat note_maps tick "08" known;
      Ok (lines, bpm_identifiers, note_maps)
  end.

(** Lines 150-152. *)
Definition til_list (ticks_per_beat : Z) (tils : list (Z * Q))
  : result (list (Z * Z * Q)) :=
  match tils with
  | [] => Ok []
  | _ :: _ =>
      if ticks_per_beat * 4 =? 0 then Err ZeroDivisionError
      else Ok ((fun '(tick, value) =>
                  (tick / (ticks_per_beat * 4), tick `mod` (ticks_per_beat * 4), value))
               <$> tils)
  end.

(** [f'{note.type}{base36.dumps(note.width)}']. *)
Definition note_data (note : Note) : string :=
  str_int (type_ note) +:+ base36_dumps (width note).

(** Lines 158-162: taps ([category = "1"]) and directionals (["5"]). *)
Definition push_notes (segs : list BarLength) (ticks_per_beat : Z)
    (category : string) (notes : list Note)
    (note_maps : list (string * note_map))
  : result (list (string * note_map)) :=
  for_each (fun note_maps note =>
              push_raw segs ticks_per_beat note_maps (tick note)
                (category +:+ base36_dumps (lane note)) (note_data note))
           notes note_maps.

(** Lines 165-170 and 174-179: one slide (["3"]) or guide (["9"]). *)
Definition group_step (segs : list BarLength) (ticks_per_beat : Z)
    (category : string)
    (st : list (Z * Z) * list (string * note_map)) (steps : list Note)
  : result (list (Z * Z) * list (string * note_map)) :=
  let '(channel_map, note_maps) := st in
  match steps with
  | [] => Err IndexError
  | first :: _ =>
      let start_tick := tick first in
      let end_tick := tick (List.last steps first) in
      '(channel, channel_map) ←
        ChannelProvider.generate_channel channel_map start_tick end_tick;
      note_maps ←
        for_each (fun note_maps note =>
                    push_raw segs ticks_per_beat note_maps (tick note)
                      (category +:+ base36_dumps (lane note)
                       +:+ base36_dumps channel)
                      (note_data note))
                 steps note_maps;
      Ok (channel_map, note_maps)
  end.

Definition push_groups (segs : list BarLength) (ticks_per_beat : Z)
    (category : string) (groups : list (list Note))
    (note_maps : list (string * note_map))
  : result (list (string * note_map)) :=
  '(_, note_maps) ←
    for_each (group_step segs ticks_per_beat category) groups
             (ChannelProvider.init, note_maps);
  Ok note_maps.

Definition first_tick (steps : list Note) : Z :=
  match steps with
  | first :: _ => tick first
  | [] => 0
  end.

(** [sorted(groups, key=lambda x: x[0].tick)]: the key raises on a group
    without steps. *)
Definition sort_groups (groups : list (list Note)) : result (list (list Note)) :=
  if forallb (fun steps => negb (Nat.eqb (length steps) 0)) groups
  then Ok (sorted_by first_tick groups)
  else Err IndexError.

(** The guard of line 137. *)
Definition bpm_guard (bpms : list (Z * Q)) : result unit :=
  if 36 ^ 2 - 1 <=? Z.of_nat (length bpms) then Err TooManyBpms else Ok tt.

(** [dumps(score, comment)], up to the final ['\n'.join(lines)]: the list
    [lines] at line 195. *)
Definition dumps (score : Score) (comment : string) : result (list line) :=
  let lines := [Comment comment] in
  '(lines, ticks_per_beat) ← for_each metadata_step (metadata score) (lines, 480);
  let lines := lines ++ [Blank] in
  let bar_lengths := sorted_by fst (bar_lengths score) in
  let bpms := sorted_by fst (bpms score) in
  let taps := sorted_by tick (taps score) in
  let directionals := sorted_by tick (directionals score) in
  slides ← sort_groups (slides score);
  guides ← sort_groups (guides score);
  let tils := sorted_by fst (tils score) in
  let lines :=
    lines ++ ((fun '(measure, value) => BarLengthLine measure value) <$> bar_lengths) in
  let lines := lines ++ [Blank] in
  let segs := bar_lengths_in_ticks ticks_per_beat bar_lengths in
  _ ← bpm_guard bpms;
  '(lines, _, note_maps) ←
    for_each (bpm_step segs ticks_per_beat) bpms (lines, [], []);
  let lines := lines ++ [Blank] in
  til_list ← til_list ticks_per_beat tils;
  let lines := lines ++ [TilLine til_list; HiSpeedLine; MeasureHsLine; Blank] in
  note_maps ← push_notes segs ticks_per_beat "1" taps note_maps;
  note_maps ← push_notes segs ticks_per_beat "5" directionals note_maps;
  note_maps ← push_groups segs ticks_per_beat "3" slides note_maps;
  note_maps ← push_groups segs ticks_per_beat "9" guides note_maps;
  lines ← render_all note_maps lines;
  Ok (lines ++ [Blank]).

(** ** The text of the document

    [str] of a float with a fractional part is Python's own; it is a
    parameter here. *)
Section Text.

Variable str_float : Q -> string.

(** The double quote character. *)
Definition dquote : string := String (ascii_of_nat 34) EmptyString.

(** [str(int(value) if value % 1 == 0 else value)]. *)
Definition format_number (value : Q) : string :=
  if Qeq_bool (inject_Z (Qfloor value)) value
  then str_int (py_int value)
  else str_float value.

Definition format_value (attr : meta_value) : string :=
  match attr with
  | MStr s => dquote +:+ s +:+ dquote
  | MNum x => format_number x
  end.

Definition upper_char (c : ascii) : ascii :=
  let n := nat_of_ascii c in
  if ((97 <=? n)%nat && (n <=? 122)%nat)%bool then ascii_of_nat (n - 32) else c.

Fixpoint upper (s : string) : string :=
  match s with
  | EmptyString => EmptyString
  | String c rest => String (upper_char c) (upper rest)
  end.

Definition line_text (space : bool) (l : line) : string :=
  let sep := if space then " " else EmptyString in
  match l with
  | Comment comment => comment
  | Blank => EmptyString
  | MetaLine name attr => "#" +:+ upper name +:+ " " +:+ format_value attr
  | RequestLine request => "#REQUEST " +:+ dquote +:+ request +:+ dquote
  | BarLengthLine measure value =>
      "#" +:+ fmt03 measure +:+ "02:" +:+ sep +:+ format_number value
  | BpmLine identifier value =>
      "#BPM" +:+ identifier +:+ ":" +:+ sep +:+ format_number value
  | TilLine til_list =>
      "#TIL00: " +:+ dquote
      +:+ String.concat ", "
            ((fun '(bar, tick, value) =>
                str_int bar +:+ "'" +:+ str_int tick +:+ ":" +:+ str_float value)
             <$> til_list)
      +:+ dquote
  | HiSpeedLine => "#HISPEED 00"
  | MeasureHsLine => "#MEASUREHS 00"
  | NoteLine tag values =>
      "#" +:+ tag +:+ ":" +:+ sep +:+ String.concat EmptyString values
  end.

(** ['\n'.join(lines)]. *)
Definition dumps_text (score : Score) (comment : string) (space : bool)
  : result string :=
  lines ← dumps score comment;
  Ok (String.concat (String (ascii_of_nat 10) EmptyString)
        (line_text space <$> lines)).

End Text.

(** * Derived notions

    Definitions used to state the properties: what a loop of [dumps]
    computes as a whole, and the statements of the specification. *)

(** ** Order of a sorted list *)

(** [x] comes no later than [y] in a list sorted on [key]. *)
Definition key_le {A : Type} (key : A -> Z) (x y : A) : Prop := key x <= key y.

(** ** Channels of groups *)

(** The channels handed out by a run of [generate_channel] calls, as in the
    loops [for steps in slides] and [for steps in guides]. *)
Fixpoint allocate (m : list (Z * Z)) (intervals : list (Z * Z)) : result (list Z) :=
  match intervals with
  | [] => Ok []
  | (s, e) :: rest =>
      '(channel, m') ← generate_channel m s e;
      channels ← allocate m' rest;
      Ok (channel :: channels)
  end.

(** [(steps[0].tick, steps[-1].tick)]. *)
Definition group_interval (steps : list Note) : Z * Z :=
  (first_tick steps, match steps with
                     | first :: _ => tick (List.last steps first)
                     | [] => 0
                     end).

(** A group interval as the allocator expects it: first tick no later than
    last tick, and not the marker [(0, 0)]. *)
Definition proper_interval (iv : Z * Z) : Prop :=
  fst iv <= snd iv /\ iv <> (0, 0).

(** The statement of the specification: two groups with overlapping
    intervals never share a channel of one allocator. *)
Definition overlapping_groups_get_distinct_channels : Prop :=
  forall (groups : list (list Note)) (channels : list Z),
    allocate init (group_interval <$> sorted_by first_tick groups) = Ok channels ->
    forall i j a b ca cb,
      i <> j ->
      (group_interval <$> sorted_by first_tick groups) !! i = Some a ->
      (group_interval <$> sorted_by first_tick groups) !! j = Some b ->
      channels !! i = Some ca -> channels !! j = Some cb ->
      overlap a b -> ca <> cb.

(** ** Cells and pushes *)

(** [data[raw[0] % ticks_per_measure] = raw[1]]. *)
Definition write (tpm : Z) (data : gmap Z string) (raw : Z * string)
  : gmap Z string :=
  <[fst raw `mod` tpm := snd raw]> data.

(** The cell that a recorded offset falls into. *)
Definition cell_index (nm : note_map) (offset : Z) : nat :=
  Z.to_nat (offset `mod` ticks_per_measure nm / resolution nm).

(** What [push_raw] computes for a tick before it touches [note_maps]:
    [(current_measure, tick - start_tick, ticks_per_measure)] of the segment
    that takes the tick, [None] when no segment does. *)
Definition locate (segs : list BarLength) (ticks_per_beat tick : Z)
  : result (option (Z * Z * Z)) :=
  match List.find (fun b => start_tick b <=? tick) segs with
  | None => Ok None
  | Some bar_length =>
      if ticks_per_beat =? 0 then Err ZeroDivisionError
      else if Qeq_bool (value bar_length) 0 then Err ZeroDivisionError
      else Ok (Some (measure bar_length
                     + py_int (inject_Z (tick - start_tick bar_length)
                               / inject_Z ticks_per_beat / value bar_length)%Q,
                     tick - start_tick bar_length,
                     py_int (value bar_length * inject_Z ticks_per_beat)%Q))
  end.

(** The raws stored under a tag, none for an unknown tag. *)
Definition raws_of (maps : list (string * note_map)) (tag : string)
  : list (Z * string) :=
  match note_maps_get maps tag with
  | Some nm => raws nm
  | None => []
  end.

(** A run of [push_raw] calls, each given as [(tick, info, data)]. *)
Definition push_all (segs : list BarLength) (tpb : Z)
    (pushes : list (Z * string * string)) (maps : list (string * note_map))
  : result (list (string * note_map)) :=
  for_each (fun maps '(tick, info, data) => push_raw segs tpb maps tick info data)
           pushes maps.

(** ** Measures of a whole number of ticks *)

(** [value * ticks_per_beat] is a positive whole number of ticks. *)
Definition whole_measure (ticks_per_beat : Z) (value : Q) : Prop :=
  0 < py_int (value * inject_Z ticks_per_beat)%Q
  /\ (inject_Z (py_int (value * inject_Z ticks_per_beat)) == value * inject_Z ticks_per_beat)%Q.

(** [int(bar_length.value * ticks_per_beat)]. *)
Definition segment_ticks (tpb : Z) (b : BarLength) : Z :=
  py_int (value b * inject_Z tpb)%Q.

(** Every bar length of the table is a positive whole number of ticks. *)
Definition whole_entries (tpb : Z) (entries : list (Z * Q)) : Prop :=
  Forall (fun entry => whole_measure tpb (snd entry)) entries.



(** The statement of the specification: every offset stored in a note map is
    below that note map's [ticks_per_measure]. *)
Definition stored_offsets_below_measure : Prop :=
  forall segs tpb pushes maps tag nm raw,
    push_all segs tpb pushes [] = Ok maps ->
    note_maps_get maps tag = Some nm ->
    raw ∈ raws nm ->
    fst raw < ticks_per_measure nm.

(** ** BPM identifiers *)

(** The identifier of the [k]-th distinct tempo value, counted from 0:
    [base36.dumps(k + 1).zfill(2)]. *)
Definition identifier_of (k : nat) : string :=
  zfill 2 (base36_dumps (Z.of_nat k + 1)).

(** The tempo values that are new with respect to [seen], each once, in
    order of first occurrence. *)
Fixpoint distinct_from (seen : list Q) (values : list Q) : list Q :=
  match values with
  | [] => []
  | v :: rest =>
      if existsb (fun k => Qeq_bool k v) seen then distinct_from seen rest
      else v :: distinct_from (seen ++ [v]) rest
  end.

(** The identifier table of the keys [keys], numbered from [n]. *)
Fixpoint table_from (n : nat) (keys : list Q) : list (Q * string) :=
  match keys with
  | [] => []
  | k :: rest => (k, identifier_of n) :: table_from (S n) rest
  end.

(** The BPM-reference pushes of a tempo-change list under a table. *)
Definition bpm_references (table : list (Q * string)) (bpms : list (Z * Q))
  : list (Z * string * string) :=
  (fun '(tick, value) => (tick, "08", default EmptyString (bpm_get table value)))
    <$> bpms.

(** The BPM definitions of a table, one per entry. *)
Definition bpm_definitions (table : list (Q * string)) : list line :=
  (fun '(value, identifier) => BpmLine identifier value) <$> table.

(** ** The pushes of a serialization *)

(** The pushes of lines 158-162 for a list of taps or directionals. *)
Definition note_pushes (category : string) (notes : list Note)
  : list (Z * string * string) :=
  (fun note => (tick note, category +:+ base36_dumps (lane note), note_data note))
    <$> notes.

(** The pushes of one slide or guide on its channel: every step's line tag
    carries the channel. *)
Definition group_pushes (category : string) (steps : list Note) (channel : Z)
  : list (Z * string * string) :=
  (fun note => (tick note,
                category +:+ base36_dumps (lane note) +:+ base36_dumps channel,
                note_data note))
    <$> steps.

(** The pushes of all slides, or of all guides, each group on its channel. *)
Definition groups_pushes (category : string) (groups : list (list Note))
    (channels : list Z) : list (Z * string * string) :=
  concat (zip_with (group_pushes category) groups channels).

(** The tag under which a push is stored, when it is stored. *)
Definition push_tag (segs : list BarLength) (tpb : Z) (push : Z * string * string)
  : option string :=
  match locate segs tpb push.1.1 with
  | Ok (Some (current_measure, _, _)) => Some (fmt03 current_measure +:+ push.1.2)
  | _ => None
  end.

(** The order of the keys of a dict into which [new] is inserted in order:
    a key that is already there keeps its place. *)
Definition first_insertion (tags new : list string) : list string :=
  foldl (fun tags tag => if decide (tag ∈ tags) then tags else tags ++ [tag])
        tags new.

(** ** The lines of the document *)

(** The override of one request: [int(request.split()[1])] when the request
    starts with [ticks_per_beat]. *)
Definition request_override (ticks_per_beat : Z) (request : string) : Z :=
  if String.prefix "ticks_per_beat" request
  then default ticks_per_beat (split_ws request !! 1%nat ≫= parse_int)
  else ticks_per_beat.

(** The lines of one metadata field as [dumps] writes them: one directive for
    a present field; for the requests a blank line and one directive per
    request. *)
Definition field_lines (field : meta_field) : list line :=
  match field with
  | Field name (Some attr) => [MetaLine name attr]
  | Requests (Some requests) => Blank :: (RequestLine <$> requests)
  | Field _ None | Requests None => []
  end.

(** The lines of the metadata, field after field. *)
Definition metadata_lines (metadata : list meta_field) : list line :=
  concat (field_lines <$> metadata).

(** The ticks per beat after the metadata: the last override wins. *)
Definition field_ticks (ticks_per_beat : Z) (field : meta_field) : Z :=
  match field with
  | Requests (Some requests) => foldl request_override ticks_per_beat requests
  | _ => ticks_per_beat
  end.

(** The ticks per beat in force after the metadata, 480 without override. *)
Definition active_ticks_per_beat (metadata : list meta_field) : Z :=
  foldl field_ticks 480 metadata.

(** A rendered entry of the note maps. *)
Definition rendered (entry : string * note_map) (l : line) : Prop :=
  exists values, render_note_map (snd entry) = Ok values
                 /\ l = NoteLine (fst entry) values.

(** One bar-length directive per entry (line 113). *)
Definition bar_length_lines (bar_lengths : list (Z * Q)) : list line :=
  (fun '(measure, value) => BarLengthLine measure value) <$> bar_lengths.

(** All pushes of a serialization, in the order [dumps] makes them: the BPM
    references, the taps, the directionals, the steps of every slide and of
    every guide. *)
Definition all_pushes (score : Score) (slide_channels guide_channels : list Z)
  : list (Z * string * string) :=
  bpm_references
    (table_from 0 (distinct_from [] (snd <$> sorted_by fst (bpms score))))
    (sorted_by fst (bpms score))
  ++ note_pushes "1" (sorted_by tick (taps score))
  ++ note_pushes "5" (sorted_by tick (directionals score))
  ++ groups_pushes "3" (sorted_by first_tick (slides score)) slide_channels
  ++ groups_pushes "9" (sorted_by first_tick (guides score)) guide_channels.

(** The layout of the specification: no line between the header comment and
    the directives of the metadata, requests included. *)
Definition spec_field_lines (field : meta_field) : list line :=
  match field with
  | Field name (Some attr) => [MetaLine name attr]
  | Requests (Some requests) => RequestLine <$> requests
  | Field _ None | Requests None => []
  end.

(** The line is a BPM definition. *)
Definition is_bpm_line (l : line) : Prop :=
  match l with BpmLine _ _ => True | _ => False end.

(** The line is a note line. *)
Definition is_note_line (l : line) : Prop :=
  match l with NoteLine _ _ => True | _ => False end.

(** The statement of the specification: the sections of the document, in
    their order, with nothing between or within them. *)
Definition fixed_section_order (score : Score) (comment : string)
    (doc : list line) : Prop :=
  exists bpm_lines tl note_lines,
    Forall is_bpm_line bpm_lines /\ Forall is_note_line note_lines
    /\ doc = [Comment comment]
             ++ concat (spec_field_lines <$> metadata score) ++ [Blank]
             ++ bar_length_lines (sorted_by fst (bar_lengths score)) ++ [Blank]
             ++ bpm_lines ++ [Blank]
             ++ [TilLine tl; HiSpeedLine; MeasureHsLine] ++ [Blank]
             ++ note_lines ++ [Blank].

(** A score with a title, one request, one bar length and one tap. *)
Definition request_score : Score :=
  mkScore [Field "title" (Some (MStr "t")); Requests (Some ["ticks_per_beat 480"])]
          [(0, (4 # 1)%Q)] [] [mkNote 0 2 1 1] [] [] [] [].

(** An exception other than the one of the BPM guard. *)
Definition not_bpm_error (e : error) : Prop := e <> TooManyBpms.

(** The statement of the specification: a table that is empty or does not
    start at measure 0 makes the serialization fail. *)
Definition rejects_invalid_bar_lengths : Prop :=
  forall (score : Score) (comment : string),
    sorted_by fst (bar_lengths score) = []
    \/ (exists m v rest, sorted_by fst (bar_lengths score) = (m, v) :: rest /\ m <> 0) ->
    exists e, dumps score comment = Err e.

(** * Further notions *)

(** ** The channel pool *)

(** The number of entries of a channel map that carry the marker [(0, 0)]. *)
Definition count_free (m : list (Z * Z)) : nat :=
  length (filter (fun b => b = (0, 0)) m).

(** Each interval ends before the next one starts. *)
Fixpoint one_after_another (intervals : list (Z * Z)) : Prop :=
  match intervals with
  | a :: (b :: _) as rest => snd a < fst b /\ one_after_another rest
  | _ => True
  end.

(** ** Identifiers and tags *)

(** No string occurs twice in the list. *)
Fixpoint nodupb (l : list string) : bool :=
  match l with
  | [] => true
  | x :: rest => negb (existsb (String.eqb x) rest) && nodupb rest
  end.

(** The tag of a note line, nothing for another line. *)
Definition line_tag (l : line) : option string :=
  match l with
  | NoteLine tag _ => Some tag
  | _ => None
  end.

(** ** Requests and bar lengths that [dumps] gets through *)

(** An override request names an integer: [request.split()[1]] exists and
    [int] accepts it.  Other requests are not looked into. *)
Definition well_formed_request (request : string) : Prop :=
  String.prefix "ticks_per_beat" request = true ->
  exists token n, split_ws request !! 1%nat = Some token /\ parse_int token = Some n.

(** The requests of the metadata, in the order [dumps] reads them. *)
Definition requests_of (metadata : list meta_field) : list string :=
  concat ((fun field => match field with
                        | Requests (Some requests) => requests
                        | _ => []
                        end) <$> metadata).




(** ** Numbers without a fractional part *)

(** The test [value % 1 == 0] of [format_number]. *)
Definition whole (x : Q) : Prop := Qeq_bool (inject_Z (Qfloor x)) x = true.

(** A line that carries no number with a fractional part and no timescale
    entry. *)
Definition whole_line (l : line) : Prop :=
  match l with
  | MetaLine _ (MNum x) | BarLengthLine _ x | BpmLine _ x => whole x
  | TilLine til_list => til_list = []
  | _ => True
  end.

(** A score whose metadata numbers, bar lengths and tempo values have no
    fractional part and that has no timescale change. *)
Definition whole_score (score : Score) : Prop :=
  Forall (fun field => match field with
                       | Field _ (Some (MNum x)) => whole x
                       | _ => True
                       end) (metadata score)
  /\ Forall (fun entry => whole entry.2) (bar_lengths score)
  /\ Forall (fun entry => whole entry.2) (bpms score)
  /\ tils score = [].

(** * The exporter ([src/sus/exporter.py])

    [export] turns the notes of a USC score into a [Score], serializes it with
    [dumps] and writes the text to a file.  The note classes of [src/notes]
    are not among the sources: each one is a record of the attributes that
    [export] reads from it, a boolean standing for an attribute that is only
    tested for truth and a string for one that is only compared with string
    literals. *)

(** [round(x)] on a float: the nearest integer, a tie going to the even
    one. *)
Definition py_round (x : Q) : Z :=
  let f := Qfloor x in
  match (x - inject_Z f ?= 1 # 2)%Q with
  | Lt => f
  | Gt => f + 1
  | Eq => if Z.even f then f else f + 1
  end.

(** [sorted]/[list.sort] with a float key: a stable sort. *)
Fixpoint insert_on {A : Type} (key : A -> Q) (x : A) (l : list A) : list A :=
  match l with
  | [] => [x]
  | y :: rest =>
      if Qle_bool (key x) (key y) then x :: y :: rest else y :: insert_on key x rest
  end.

Fixpoint sorted_on {A : Type} (key : A -> Q) (l : list A) : list A :=
  match l with
  | [] => []
  | x :: rest => insert_on key x (sorted_on key rest)
  end.

(** The truth value of an optional string: [None] and the empty string are
    false. *)
Definition truthy (s : option string) : bool :=
  match s with
  | Some (String _ _) => true
  | _ => false
  end.

(** [s == literal] for an optional string. *)
Definition is_str (s : option string) (literal : string) : bool :=
  match s with
  | Some s => String.eqb s literal
  | None => false
  end.

Module SusNoteType.

Module Tap.
Definition TAP : Z := 1.
Definition C_TAP : Z := 2.
Definition FLICK : Z := 3.
Definition TRACE : Z := 5.
Definition C_TRACE : Z := 6.
Definition ELASER : Z := 7.
Definition C_ELASER : Z := 8.
End Tap.

Module Air.
Definition UP : Z := 1.
Definition DOWN : Z := 2.
Definition LEFT_UP : Z := 3.
Definition RIGHT_UP : Z := 4.
Definition LEFT_DOWN : Z := 5.
Definition RIGHT_DOWN : Z := 6.
End Air.

Module Slide.
Definition START : Z := 1.
Definition END : Z := 2.
Definition VISIBLE_STEP : Z := 3.
Definition STEP : Z := 5.
End Slide.

Module Guide.
Definition START : Z := 1.
Definition END : Z := 2.
Definition STEP : Z := 5.
End Guide.

End SusNoteType.

(** ** The notes of the input *)

Module Bpm.
Record t : Type := mk { beat : Q; bpm : Q }.
End Bpm.

Module TimeScalePoint.
Record t : Type := mk { beat : Q; timeScale : Q }.
End TimeScalePoint.

Module TimeScaleGroup.
Record t : Type := mk { changes : list TimeScalePoint.t }.
End TimeScaleGroup.

Module Single.
Record t : Type := mk {
  beat : Q; lane : Q; size : Q;
  trace : bool; critical : bool; direction : option string
}.
End Single.

(** A connection of a slide: a [SlideStartPoint], [SlideRelayPoint] or
    [SlideEndPoint], told apart by [type]; [critical] may be [None]. *)
Module SlidePoint.
Record t : Type := mk {
  beat : Q; lane : Q; size : Q;
  type_ : string; ease : string; judgeType : string;
  critical : option bool; direction : option string
}.
End SlidePoint.

Module Slide.
Record t : Type := mk { connections : list SlidePoint.t }.
End Slide.

Module GuidePoint.
Record t : Type := mk { beat : Q; lane : Q; size : Q; ease : string }.
End GuidePoint.

Module Guide.
Record t : Type := mk { midpoints : list GuidePoint.t; color : string }.
End Guide.

(** An element of [score.notes], by the class that [isinstance] finds; an
    object of another class is passed over. *)
Inductive note_object : Type :=
| OfBpm (note : Bpm.t)
| OfTimeScaleGroup (note : TimeScaleGroup.t)
| OfSingle (note : Single.t)
| OfSlide (note : Slide.t)
| OfGuide (note : Guide.t)
| OfOther.

(** ** Conversions *)

Definition beat_to_tick (beat : Q) : Z := py_round (480 * beat)%Q.

Definition usc_lanes_to_sus_lanes (lane size : Q) : Z := py_int (lane - size + 8)%Q.

Definition usc_notesize_to_sus_notesize (size : Q) : Z := py_int (size * 2)%Q.

(** ** The lists that [export] fills *)

Module Lists.
Record t : Type := mk {
  taps : list Note;
  directionals : list Note;
  slides : list (list Note);
  guides : list (list Note);
  bpms : list (Z * Q);
  tils : list (Z * Z * Q)
}.
Definition empty : t := mk [] [] [] [] [] [].
End Lists.

(** [taps.append(note)]. *)
Definition taps_append (st : Lists.t) (note : Note) : Lists.t :=
  Lists.mk (Lists.taps st ++ [note]) (Lists.directionals st) (Lists.slides st)
           (Lists.guides st) (Lists.bpms st) (Lists.tils st).

(** [directionals.append(note)]. *)
Definition directionals_append (st : Lists.t) (note : Note) : Lists.t :=
  Lists.mk (Lists.taps st) (Lists.directionals st ++ [note]) (Lists.slides st)
           (Lists.guides st) (Lists.bpms st) (Lists.tils st).

(** [slides.append(slide)]. *)
Definition slides_append (st : Lists.t) (slide : list Note) : Lists.t :=
  Lists.mk (Lists.taps st) (Lists.directionals st) (Lists.slides st ++ [slide])
           (Lists.guides st) (Lists.bpms st) (Lists.tils st).

(** [guides.append(guide)]. *)
Definition guides_append (st : Lists.t) (guide : list Note) : Lists.t :=
  Lists.mk (Lists.taps st) (Lists.directionals st) (Lists.slides st)
           (Lists.guides st ++ [guide]) (Lists.bpms st) (Lists.tils st).

(** [bpms.append(bpm)]. *)
Definition bpms_append (st : Lists.t) (bpm : Z * Q) : Lists.t :=
  Lists.mk (Lists.taps st) (Lists.directionals st) (Lists.slides st)
           (Lists.guides st) (Lists.bpms st ++ [bpm]) (Lists.tils st).

(** [tils.append(f"{bar}'{tick}:{timeScale}")], the entry kept as numbers. *)
Definition tils_append (st : Lists.t) (til : Z * Z * Q) : Lists.t :=
  Lists.mk (Lists.taps st) (Lists.directionals st) (Lists.slides st)
           (Lists.guides st) (Lists.bpms st) (Lists.tils st ++ [til]).

(** ** The branches of [export] *)

(** Lines 75-80: one change point of a [TimeScaleGroup]. *)
Definition timescale_step (st : Lists.t) (changepoint : TimeScalePoint.t) : Lists.t :=
  let tick := beat_to_tick (TimeScalePoint.beat changepoint) in
  let bar := tick / 1920 in
  let tick := tick `mod` 1920 in
  tils_append st (bar, tick, TimeScalePoint.timeScale changepoint).

(** Lines 82-102: a [Single]. *)
Definition export_single (st : Lists.t) (note : Single.t) : Lists.t :=
  let lane := usc_lanes_to_sus_lanes (Single.lane note) (Single.size note) in
  let width := usc_notesize_to_sus_notesize (Single.size note) in
  let tick := beat_to_tick (Single.beat note) in
  let st :=
    if Single.trace note then
      if Single.critical note
      then taps_append st (mkNote tick lane width SusNoteType.Tap.C_TRACE)
      else taps_append st (mkNote tick lane width SusNoteType.Tap.TRACE)
    else
      if Single.critical note
      then taps_append st (mkNote tick lane width SusNoteType.Tap.C_TAP)
      else taps_append st (mkNote tick lane width SusNoteType.Tap.TAP) in
  if truthy (Single.direction note) then
    if is_str (Single.direction note) "up"
    then directionals_append st (mkNote tick lane width SusNoteType.Air.UP)
    else if is_str (Single.direction note) "left"
    then directionals_append st (mkNote tick lane width SusNoteType.Air.LEFT_UP)
    else if is_str (Single.direction note) "right"
    then directionals_append st (mkNote tick lane width SusNoteType.Air.RIGHT_UP)
    else st
  else st.

(** The truth value of [step.critical]. *)
Definition is_critical (critical : option bool) : bool :=
  match critical with
  | Some b => b
  | None => false
  end.

(** Lines 107-179: one connection of a [Slide]; the state is the lists and
    the local [slide]. *)
Definition slide_step (acc : Lists.t * list Note) (step : SlidePoint.t)
  : Lists.t * list Note :=
  let '(st, slide) := acc in
  let tick := beat_to_tick (SlidePoint.beat step) in
  let lane := usc_lanes_to_sus_lanes (SlidePoint.lane step) (SlidePoint.size step) in
  let width := usc_notesize_to_sus_notesize (SlidePoint.size step) in
  let type_ := SlidePoint.type_ step in
  let ease := SlidePoint.ease step in
  let judgeType := SlidePoint.judgeType step in
  let critical := is_critical (SlidePoint.critical step) in
  let direction := SlidePoint.direction step in
  if String.eqb type_ "start" then
    let st :=
      if String.eqb ease "in"
      then directionals_append st (mkNote tick lane width SusNoteType.Air.DOWN)
      else if String.eqb ease "out"
      then directionals_append st (mkNote tick lane width SusNoteType.Air.RIGHT_DOWN)
      else st in
    let st :=
      if String.eqb judgeType "none" then
        if critical
        then taps_append st (mkNote tick lane width SusNoteType.Tap.C_ELASER)
        else taps_append st (mkNote tick lane width SusNoteType.Tap.ELASER)
      else if String.eqb judgeType "trace" then
        if critical
        then taps_append st (mkNote tick lane width SusNoteType.Tap.C_TRACE)
        else taps_append st (mkNote tick lane width SusNoteType.Tap.TRACE)
      else if String.eqb judgeType "normal" then
        if critical
        then taps_append st (mkNote tick lane width SusNoteType.Tap.C_TAP)
        else st
      else st in
    (st, slide ++ [mkNote tick lane width SusNoteType.Slide.START])
  else if String.eqb type_ "tick" || String.eqb type_ "attach" then
    let st :=
      if String.eqb ease "in" then
        directionals_append
          (taps_append st (mkNote tick lane width SusNoteType.Tap.TAP))
          (mkNote tick lane width SusNoteType.Air.DOWN)
      else if String.eqb ease "out" then
        directionals_append
          (taps_append st (mkNote tick lane width SusNoteType.Tap.TAP))
          (mkNote tick lane width SusNoteType.Air.RIGHT_DOWN)
      else st in
    if String.eqb type_ "tick" then
      match SlidePoint.critical step with
      | None => (st, slide ++ [mkNote tick lane width SusNoteType.Slide.STEP])
      | Some _ => (st, slide ++ [mkNote tick lane width SusNoteType.Slide.VISIBLE_STEP])
      end
    else if String.eqb type_ "attach" then
      (taps_append st (mkNote tick lane width SusNoteType.Tap.FLICK),
       slide ++ [mkNote tick lane width SusNoteType.Slide.STEP])
    else (st, slide)
  else if String.eqb type_ "end" then
    let st :=
      if String.eqb judgeType "none" then
        if critical
        then taps_append st (mkNote tick lane width SusNoteType.Tap.C_ELASER)
        else taps_append st (mkNote tick lane width SusNoteType.Tap.ELASER)
      else if String.eqb judgeType "trace" then
        if critical
        then taps_append st (mkNote tick lane width SusNoteType.Tap.C_TRACE)
        else taps_append st (mkNote tick lane width SusNoteType.Tap.TRACE)
      else if String.eqb judgeType "normal" then
        if truthy direction then
          if critical
          then taps_append st (mkNote tick lane width SusNoteType.Tap.C_TAP)
          else st
        else st
      else st in
    let st :=
      if truthy direction then
        if is_str direction "up"
        then directionals_append st (mkNote tick lane width SusNoteType.Air.UP)
        else if is_str direction "left"
        then directionals_append st (mkNote tick lane width SusNoteType.Air.LEFT_UP)
        else if is_str direction "right"
        then directionals_append st (mkNote tick lane width SusNoteType.Air.RIGHT_UP)
        else st
      else st in
    (st, slide ++ [mkNote tick lane width SusNoteType.Slide.END])
  else (st, slide).

(** Lines 104-180: a [Slide].  [note.connections.sort(key=...)] sorts the
    list of the note in place. *)
Definition export_slide (st : Lists.t) (note : Slide.t) : Lists.t :=
  let connections := sorted_on SlidePoint.beat (Slide.connections note) in
  let '(st, slide) := foldl slide_step (st, []) connections in
  slides_append st slide.

(** Lines 186-233: one midpoint of a [Guide], with its index. *)
Definition guide_step (color : string) (point_length : nat)
    (acc : Lists.t * list Note) (indexed : nat * GuidePoint.t)
  : Lists.t * list Note :=
  let '(st, guide) := acc in
  let '(idx, step) := indexed in
  let tick := beat_to_tick (GuidePoint.beat step) in
  let lane := usc_lanes_to_sus_lanes (GuidePoint.lane step) (GuidePoint.size step) in
  let width := usc_notesize_to_sus_notesize (GuidePoint.size step) in
  let ease := GuidePoint.ease step in
  if Nat.eqb idx 0 then
    let st :=
      if String.eqb color "yellow"
      then taps_append st (mkNote tick lane width SusNoteType.Tap.C_ELASER)
      else if String.eqb color "green"
      then taps_append st (mkNote tick lane width SusNoteType.Tap.ELASER)
      else st in
    let st :=
      if String.eqb ease "in"
      then directionals_append st (mkNote tick lane width SusNoteType.Air.UP)
      else if String.eqb ease "out"
      then directionals_append st (mkNote tick lane width SusNoteType.Air.RIGHT_DOWN)
      else st in
    (st, guide ++ [mkNote tick lane width SusNoteType.Guide.START])
  else if Nat.eqb idx (point_length - 1) then
    let st :=
      if String.eqb color "yellow"
      then taps_append st (mkNote tick lane width SusNoteType.Tap.C_ELASER)
      else st in
    (st, guide ++ [mkNote tick lane width SusNoteType.Guide.END])
  else
    let colored (st : Lists.t) :=
      if String.eqb color "yellow"
      then taps_append st (mkNote tick lane width SusNoteType.Tap.C_ELASER)
      else if String.eqb color "green"
      then taps_append st (mkNote tick lane width SusNoteType.Tap.ELASER)
      else st in
    let st :=
      if String.eqb ease "in"
      then directionals_append (colored st) (mkNote tick lane width SusNoteType.Air.DOWN)
      else if String.eqb ease "out"
      then directionals_append (colored st)
             (mkNote tick lane width SusNoteType.Air.RIGHT_DOWN)
      else if String.eqb ease "linear" then
        if String.eqb color "yellow"
        then taps_append st (mkNote tick lane width SusNoteType.Tap.C_ELASER)
        else st
      else st in
    (st, guide ++ [mkNote tick lane width SusNoteType.Guide.STEP]).

(** Lines 182-234: a [Guide]. *)
Definition export_guide (st : Lists.t) (note : Guide.t) : Lists.t :=
  let midpoints := sorted_on GuidePoint.beat (Guide.midpoints note) in
  let point_length := length midpoints in
  let '(st, guide) :=
    foldl (guide_step (Guide.color note) point_length) (st, [])
          (zip (seq 0 point_length) midpoints) in
  guides_append st guide.

(** Lines 68-234: one element of [notes]. *)
Definition export_step (st : Lists.t) (note : note_object) : Lists.t :=
  match note with
  | OfBpm note => bpms_append st (beat_to_tick (Bpm.beat note), Bpm.bpm note)
  | OfTimeScaleGroup note => foldl timescale_step st (TimeScaleGroup.changes note)
  | OfSingle note => export_single st note
  | OfSlide note => export_slide st note
  | OfGuide note => export_guide st note
  | OfOther => st
  end.

Definition export_lists (notes : list note_object) : Lists.t :=
  foldl export_step Lists.empty notes.

(** ** export

    [sus_metadata] is the [csus.Metadata(...)] built from the metadata of the
    input, and [default_tils] the [tils] of a [csus.Score] that is given
    none; both classes are declared in [schemas.py].  The result is the text
    written to the file; nothing is written when [dumps] raises. *)
Definition export_score (sus_metadata : list meta_field) (default_tils : list (Z * Q))
    (notes : list note_object) : Score :=
  let st := export_lists notes in
  mkScore sus_metadata [(0, (4 # 1)%Q)] (Lists.bpms st) (Lists.taps st)
          (Lists.directionals st) (Lists.slides st) (Lists.guides st) default_tils.

Section ExportedFile.

Variable str_float : Q -> string.

(** A line feed. *)
Definition nl : string := String (ascii_of_nat 10) EmptyString.

(** [f"{bar}'{tick}:{changepoint.timeScale}"]. *)
Definition til_text (til : Z * Z * Q) : string :=
  let '(bar, tick, timeScale) := til in
  str_int bar +:+ "'" +:+ str_int tick +:+ ":" +:+ str_float timeScale.

Definition export (sus_metadata : list meta_field) (default_tils : list (Z * Q))
    (notes : list note_object) : result string :=
  sus_text ← dumps_text str_float (export_score sus_metadata default_tils notes)
               "This file was generated by SUSC Tools 0.1.0" false;
  Ok (sus_text
      +:+ "#TIL00: " +:+ dquote
      +:+ String.concat ", " (til_text <$> Lists.tils (export_lists notes))
      +:+ dquote +:+ nl
      +:+ "#HISPEED 00" +:+ nl
      +:+ "#MEASUREHS 00" +:+ nl).

End ExportedFile.

(** ** What [export] makes of the notes *)

(** [csus.Note(tick=tick, lane=lane, width=width, type=type)] for a point
    of the input. *)
Definition sus_note (beat lane size : Q) (type_ : Z) : Note :=
  mkNote (beat_to_tick beat) (usc_lanes_to_sus_lanes lane size)
         (usc_notesize_to_sus_notesize size) type_.

(** The type code of the step that a connection adds to its slide, nothing
    for a connection whose [type] is none of the four. *)
Definition slide_type (step : SlidePoint.t) : option Z :=
  if String.eqb (SlidePoint.type_ step) "start" then Some SusNoteType.Slide.START
  else if String.eqb (SlidePoint.type_ step) "tick" then
    match SlidePoint.critical step with
    | None => Some SusNoteType.Slide.STEP
    | Some _ => Some SusNoteType.Slide.VISIBLE_STEP
    end
  else if String.eqb (SlidePoint.type_ step) "attach" then Some SusNoteType.Slide.STEP
  else if String.eqb (SlidePoint.type_ step) "end" then Some SusNoteType.Slide.END
  else None.

Definition slide_note (step : SlidePoint.t) : option Note :=
  sus_note (SlidePoint.beat step) (SlidePoint.lane step) (SlidePoint.size step)
    <$> slide_type step.

(** The group that a [Slide] adds to [slides]. *)
Definition slide_of (note : Slide.t) : list Note :=
  omap slide_note (sorted_on SlidePoint.beat (Slide.connections note)).

(** The type code of the midpoint at index [idx] of [point_length]. *)
Definition guide_type (point_length idx : nat) : Z :=
  if Nat.eqb idx 0 then SusNoteType.Guide.START
  else if Nat.eqb idx (point_length - 1) then SusNoteType.Guide.END
  else SusNoteType.Guide.STEP.

Definition guide_note (point_length : nat) (indexed : nat * GuidePoint.t) : Note :=
  sus_note (GuidePoint.beat indexed.2) (GuidePoint.lane indexed.2)
           (GuidePoint.size indexed.2) (guide_type point_length indexed.1).

(** The group that a [Guide] adds to [guides]. *)
Definition guide_of (note : Guide.t) : list Note :=
  let midpoints := sorted_on GuidePoint.beat (Guide.midpoints note) in
  guide_note (length midpoints) <$> zip (seq 0 (length midpoints)) midpoints.

Definition slides_of (notes : list note_object) : list (list Note) :=
  omap (fun note => match note with
                    | OfSlide note => Some (slide_of note)
                    | _ => None
                    end) notes.

Definition guides_of (notes : list note_object) : list (list Note) :=
  omap (fun note => match note with
                    | OfGuide note => Some (guide_of note)
                    | _ => None
                    end) notes.

Definition bpms_of (notes : list note_object) : list (Z * Q) :=
  omap (fun note => match note with
                    | OfBpm note => Some (beat_to_tick (Bpm.beat note), Bpm.bpm note)
                    | _ => None
                    end) notes.

(** The entry of one change point. *)
Definition til_of (changepoint : TimeScalePoint.t) : Z * Z * Q :=
  (beat_to_tick (TimeScalePoint.beat changepoint) / 1920,
   beat_to_tick (TimeScalePoint.beat changepoint) `mod` 1920,
   TimeScalePoint.timeScale changepoint).

Definition tils_of (notes : list note_object) : list (Z * Z * Q) :=
  concat ((fun note => match note with
                       | OfTimeScaleGroup note => til_of <$> TimeScaleGroup.changes note
                       | _ => []
                       end) <$> notes).

(** The lists that only whole notes are added to are left as they are. *)
Definition same_groups (st st' : Lists.t) : Prop :=
  Lists.slides st' = Lists.slides st /\ Lists.guides st' = Lists.guides st
  /\ Lists.bpms st' = Lists.bpms st /\ Lists.tils st' = Lists.tils st.

(** A slide or guide of the input that leaves a group without steps. *)
Definition no_steps (note : note_object) : Prop :=
  match note with
  | OfSlide note => Forall (fun step => slide_type step = None) (Slide.connections note)
  | OfGuide note => Guide.midpoints note = []
  | _ => False
  end.

(** ** Groups that are all held at once *)

(** No interval is the marker [(0, 0)] and every two intervals overlap. *)
Fixpoint all_overlapping (intervals : list (Z * Z)) : Prop :=
  match intervals with
  | [] => True
  | a :: rest => a <> (0, 0) /\ Forall (overlap a) rest /\ all_overlapping rest
  end.




(** * Properties *)

(** ** Evaluations *)

Example base36_samples :
  map base36_dumps [0; 1; 9; 10; 35; 36; 1294; 1295; 1296; -37]
  = ["0"; "1"; "9"; "a"; "z"; "10"; "zy"; "zz"; "100"; "-11"].
Proof. reflexivity. Qed.

Example fmt03_samples :
  map fmt03 [0; 7; 42; 123; 1000; -5] = ["000"; "007"; "042"; "123"; "1000"; "-05"].
Proof. reflexivity. Qed.

Example split_ws_sample :
  split_ws "ticks_per_beat  960 " = ["ticks_per_beat"; "960"].
Proof. reflexivity. Qed.

Example sorted_by_stable :
  sorted_by fst [(2, "a"); (1, "b"); (2, "c"); (1, "d")]
  = [(1, "b"); (1, "d"); (2, "a"); (2, "c")].
Proof. reflexivity. Qed.

Example py_range_samples :
  py_range 10 4 = [0; 4; 8] /\ py_range 8 4 = [0; 4] /\ py_range 0 3 = []
  /\ py_range (-5) 3 = [] /\ py_range (-5) (-5) = [0] /\ py_range (-6) (-5) = [0; -5].
Proof. repeat split; reflexivity. Qed.

(** ** The result monad *)

Lemma bind_Ok {A B : Type} (r : result A) (k : A -> result B) (b : B) :
  r ≫= k = Ok b <-> exists a, r = Ok a /\ k a = Ok b.
Proof.
  destruct r as [a | e]; simpl; split.
  - intros H. exists a. auto.
  - intros (a' & Ha & H). congruence.
  - discriminate.
  - intros (a' & Ha & _). discriminate.
Qed.

Lemma bind_Err {A B : Type} (r : result A) (k : A -> result B) (e : error) :
  r ≫= k = Err e <-> r = Err e \/ exists a, r = Ok a /\ k a = Err e.
Proof.
  destruct r as [a | e']; simpl; split.
  - intros H. right. exists a. auto.
  - intros [H | (a' & Ha & H)]; congruence.
  - intros H. left. congruence.
  - intros [H | (a' & Ha & _)]; [congruence | discriminate].
Qed.

Lemma for_each_app {A S : Type} (body : S -> A -> result S) (xs ys : list A) (st : S) :
  for_each body (xs ++ ys) st = for_each body xs st ≫= for_each body ys.
Proof.
  revert st. induction xs as [| x xs IH]; intros st; simpl; [reflexivity |].
  destruct (body st x) as [st' | e]; simpl; [apply IH | reflexivity].
Qed.

(** ** The stable sort *)

Section Sorting.
Context {A : Type} (key : A -> Z).

Lemma insert_by_Forall (P : A -> Prop) (x : A) (l : list A) :
  P x -> Forall P l -> Forall P (insert_by key x l).
Proof.
  intros Hx Hl. induction Hl as [| y l Hy Hl IH]; simpl.
  - constructor; [exact Hx | constructor].
  - destruct (key x <=? key y); repeat constructor; auto.
Qed.

Lemma sorted_by_Forall (P : A -> Prop) (l : list A) :
  Forall P l -> Forall P (sorted_by key l).
Proof.
  induction 1 as [| x l Hx Hl IH]; simpl; [constructor |].
  apply insert_by_Forall; assumption.
Qed.

Lemma insert_by_sorted (x : A) (l : list A) :
  StronglySorted (key_le key) l -> StronglySorted (key_le key) (insert_by key x l).
Proof.
  induction 1 as [| y l Hs IH Hy]; simpl.
  - repeat constructor.
  - destruct (Z.leb_spec (key x) (key y)) as [Hle | Hgt].
    + constructor; [constructor; assumption |].
      constructor; [exact Hle |].
      eapply Forall_impl; [exact Hy |].
      unfold key_le. intros z Hz. lia.
    + constructor; [exact IH |].
      apply insert_by_Forall; [unfold key_le; lia | exact Hy].
Qed.

Lemma sorted_by_sorted (l : list A) : StronglySorted (key_le key) (sorted_by key l).
Proof.
  induction l as [| x l IH]; simpl; [constructor |].
  apply insert_by_sorted, IH.
Qed.

Lemma insert_by_length (x : A) (l : list A) :
  length (insert_by key x l) = S (length l).
Proof.
  induction l as [| y l IH]; simpl; [reflexivity |].
  destruct (key x <=? key y); simpl; [reflexivity | now rewrite IH].
Qed.

Lemma sorted_by_length (l : list A) : length (sorted_by key l) = length l.
Proof.
  induction l as [| x l IH]; simpl; [reflexivity |].
  now rewrite insert_by_length, IH.
Qed.

End Sorting.

(** ** ChannelProvider: first free channel, exhaustion, distinct channels *)

(** A binding passes the test of line 43 when it is the marker [(0, 0)] or
    does not overlap the request. *)
Lemma free_for_spec (s e : Z) (b : Z * Z) :
  free_for s e b = true <-> b = (0, 0) \/ ~ overlap b (s, e).
Proof.
  destruct b as [bs be]. unfold free_for, overlap. simpl. split.
  - intros H.
    destruct (Z.eqb_spec bs 0), (Z.eqb_spec be 0); simpl in H;
      try (left; congruence); right; lia.
  - intros [H | H].
    + injection H as -> ->. reflexivity.
    + destruct (Z.eqb_spec bs 0), (Z.eqb_spec be 0); simpl; try reflexivity; lia.
Qed.

Lemma free_for_false (s e : Z) (b : Z * Z) :
  free_for s e b = false <-> b <> (0, 0) /\ overlap b (s, e).
Proof.
  destruct (free_for s e b) eqn:Hf.
  - apply free_for_spec in Hf. split; [discriminate |].
    intros [Hne Hov]. destruct Hf; contradiction.
  - split; [| reflexivity]. intros _.
    assert (Hn : ~ (b = (0, 0) \/ ~ overlap b (s, e))).
    { intros H. apply free_for_spec in H. congruence. }
    split.
    + intros ->. apply Hn. now left.
    + unfold overlap in *. destruct b; simpl in *. lia.
Qed.

Lemma scan_Some (m : list (Z * Z)) (k0 key : nat) (s e : Z) :
  scan m k0 s e = Some key <->
  exists i b, key = (k0 + i)%nat /\ m !! i = Some b /\ free_for s e b = true
              /\ forall j b', (j < i)%nat -> m !! j = Some b' -> free_for s e b' = false.
Proof.
  revert k0. induction m as [| b0 m IH]; intros k0; simpl.
  - split; [discriminate |]. intros (i & b & _ & Hl & _). discriminate.
  - destruct (free_for s e b0) eqn:Hf.
    + split.
      * intros [= <-]. exists 0%nat, b0.
        split; [lia |]. split; [reflexivity |]. split; [exact Hf |].
        intros j b' Hj. lia.
      * intros (i & b & -> & Hl & Hb & Hfirst).
        destruct i as [| i]; [f_equal; lia |].
        specialize (Hfirst 0%nat b0 ltac:(lia) eq_refl). congruence.
    + rewrite IH. split.
      * intros (i & b & -> & Hl & Hb & Hfirst).
        exists (S i), b.
        split; [lia |]. split; [exact Hl |]. split; [exact Hb |].
        intros [| j] b' Hj Hl'; simpl in Hl'; [congruence |].
        apply (Hfirst j); [lia | exact Hl'].
      * intros (i & b & -> & Hl & Hb & Hfirst).
        destruct i as [| i]; simpl in Hl; [congruence |].
        exists i, b.
        split; [lia |]. split; [exact Hl |]. split; [exact Hb |].
        intros j b' Hj Hl'. apply (Hfirst (S j)); [lia | exact Hl'].
Qed.

Lemma scan_None (m : list (Z * Z)) (k0 : nat) (s e : Z) :
  scan m k0 s e = None <-> Forall (fun b => free_for s e b = false) m.
Proof.
  revert k0. induction m as [| b0 m IH]; intros k0; simpl.
  - split; [constructor | reflexivity].
  - destruct (free_for s e b0) eqn:Hf.
    + split; [discriminate |]. intros H. inversion H; congruence.
    + rewrite IH. split.
      * intros H. constructor; assumption.
      * intros H. inversion H; assumption.
Qed.

Lemma generate_channel_Ok (m : list (Z * Z)) (s e c : Z) (m' : list (Z * Z)) :
  generate_channel m s e = Ok (c, m') <->
  exists key b, c = Z.of_nat key /\ m' = <[key := (s, e)]> m /\ m !! key = Some b
                /\ free_for s e b = true
                /\ forall j b', (j < key)%nat -> m !! j = Some b' -> free_for s e b' = false.
Proof.
  unfold generate_channel. destruct (scan m 0 s e) as [key |] eqn:Hscan.
  - apply scan_Some in Hscan. destruct Hscan as (i & b & -> & Hl & Hb & Hfirst).
    simpl. split.
    + intros [= <- <-]. exists i, b. auto.
    + intros (key & b' & -> & -> & Hl' & Hb' & Hfirst').
      assert (key = i) as ->; [| reflexivity].
      destruct (Nat.lt_trichotomy key i) as [Hlt | [Heq | Hgt]]; [| exact Heq |].
      * specialize (Hfirst key b' Hlt Hl'). congruence.
      * specialize (Hfirst' i b Hgt Hl). congruence.
  - split; [discriminate |].
    intros (key & b & _ & _ & Hl & Hb & _).
    apply scan_None in Hscan. rewrite Forall_forall in Hscan.
    assert (Hin : b ∈ m) by (apply list_elem_of_lookup; eauto).
    specialize (Hscan b Hin). congruence.
Qed.

Lemma generate_channel_Err (m : list (Z * Z)) (s e : Z) (err : error) :
  generate_channel m s e = Err err <->
  err = NoChannel /\ Forall (fun b => b <> (0, 0) /\ overlap b (s, e)) m.
Proof.
  unfold generate_channel. destruct (scan m 0 s e) as [key |] eqn:Hscan.
  - split; [discriminate |]. intros [_ H].
    apply scan_Some in Hscan. destruct Hscan as (i & b & _ & Hl & Hb & _).
    rewrite Forall_forall in H.
    assert (Hin : b ∈ m) by (apply list_elem_of_lookup; eauto).
    apply H in Hin. apply free_for_false in Hin. congruence.
  - apply scan_None in Hscan. split.
    + intros [= <-]. split; [reflexivity |].
      eapply Forall_impl; [exact Hscan |]. intros b. apply free_for_false.
    + intros [-> _]. reflexivity.
Qed.

Lemma occupied_distinct (a : Z * Z) (key : nat) :
  forall (rest : list (Z * Z)) (m : list (Z * Z)) (channels : list Z),
    allocate m rest = Ok channels ->
    proper_interval a ->
    Forall (fun q => fst a <= fst q) rest ->
    StronglySorted (key_le fst) rest ->
    Forall proper_interval rest ->
    m !! key = Some a \/ Forall (fun q => snd a < fst q) rest ->
    forall j b cb, rest !! j = Some b -> channels !! j = Some cb ->
                   overlap a b -> cb <> Z.of_nat key.
Proof.
  induction rest as [| q rest IH]; intros m channels Halloc Ha Hlo Hsorted Hproper Hocc
    j b cb Hb Hcb Hov.
  - discriminate.
  - destruct Hocc as [Hkey | Hpast].
    2:{ exfalso. rewrite Forall_forall in Hpast.
        assert (Hin : b ∈ q :: rest) by (apply list_elem_of_lookup; eauto).
        apply Hpast in Hin. unfold overlap in Hov. lia. }
    destruct q as [s e]. cbn [allocate] in Halloc.
    apply bind_Ok in Halloc. destruct Halloc as ([c m1] & Hg & Halloc).
    apply bind_Ok in Halloc. destruct Halloc as (cs & Hcs & [= <-]).
    apply generate_channel_Ok in Hg.
    destruct Hg as (key' & b0 & -> & -> & Hl & Hfree & _).
    inversion Hlo as [| ? ? Hlo_q Hlo_rest]; subst.
    inversion Hsorted as [| ? ? Hs_rest Hs_q]; subst.
    inversion Hproper as [| ? ? Hp_q Hp_rest]; subst.
    destruct (decide (key' = key)) as [-> | Hne].
    + (* the channel of [a] is rebound: [a] ended before [q] started *)
      rewrite Hkey in Hl. injection Hl as <-.
      apply free_for_spec in Hfree.
      destruct Hfree as [Hzero | Hno]; [destruct Ha; contradiction |].
      assert (Hend : snd a < s).
      { destruct Ha as [Hle _], Hp_q as [Hle_q _]. unfold overlap in Hno.
        simpl in *. lia. }
      exfalso. assert (Hin : b ∈ (s, e) :: rest) by (apply list_elem_of_lookup; eauto).
      apply elem_of_cons in Hin. unfold overlap in Hov.
      destruct Hin as [-> | Hin]; [simpl in *; lia |].
      rewrite Forall_forall in Hs_q. apply Hs_q in Hin.
      unfold key_le in Hin. simpl in *. lia.
    + destruct j as [| j]; simpl in Hb, Hcb.
      * injection Hcb as <-. lia.
      * eapply (IH (<[key' := (s, e)]> m) cs Hcs Ha Hlo_rest Hs_rest Hp_rest); eauto.
        left. rewrite list_lookup_insert_ne; auto.
Qed.

Lemma allocate_distinct_sorted (intervals : list (Z * Z)) :
  forall (m : list (Z * Z)) (channels : list Z),
    allocate m intervals = Ok channels ->
    StronglySorted (key_le fst) intervals ->
    Forall proper_interval intervals ->
    forall i j a b ca cb,
      (i < j)%nat ->
      intervals !! i = Some a -> intervals !! j = Some b ->
      channels !! i = Some ca -> channels !! j = Some cb ->
      overlap a b -> ca <> cb.
Proof.
  induction intervals as [| q rest IH]; intros m channels Halloc Hsorted Hproper
    i j a b ca cb Hij Ha Hb Hca Hcb Hov.
  - discriminate.
  - destruct q as [s e]. cbn [allocate] in Halloc.
    apply bind_Ok in Halloc. destruct Halloc as ([c m1] & Hg & Halloc).
    apply bind_Ok in Halloc. destruct Halloc as (cs & Hcs & [= <-]).
    inversion Hsorted as [| ? ? Hs_rest Hs_q]; subst.
    inversion Hproper as [| ? ? Hp_q Hp_rest]; subst.
    destruct j as [| j]; [lia |]. simpl in Hb, Hcb.
    destruct i as [| i]; simpl in Ha, Hca.
    + injection Ha as <-. injection Hca as <-.
      apply generate_channel_Ok in Hg.
      destruct Hg as (key & b0 & -> & -> & Hl & _).
      intros Heq. symmetry in Heq. revert Heq.
      eapply (occupied_distinct (s, e) key rest _ cs Hcs Hp_q); eauto.
      left. apply list_lookup_insert_eq. eapply lookup_lt_Some; eauto.
    + eapply (IH m1 cs Hcs Hs_rest Hp_rest i j); eauto. lia.
Qed.

Lemma overlap_sym (a b : Z * Z) : overlap a b -> overlap b a.
Proof. unfold overlap. lia. Qed.

Lemma group_intervals_sorted (groups : list (list Note)) :
  StronglySorted (key_le fst) (group_interval <$> sorted_by first_tick groups).
Proof.
  pose proof (sorted_by_sorted first_tick groups) as H.
  induction H as [| steps l Hs IH Hall]; simpl; constructor; [exact IH |].
  apply Forall_fmap. eapply Forall_impl; [exact Hall |].
  intros steps'. unfold key_le. simpl. auto.
Qed.

(** C2, as stated, fails: a group whose steps all sit at tick 0 is bound as
    [(0, 0)], which is the marker of a free channel, so a second group
    starting at tick 0 gets the same channel although the intervals overlap. *)
Lemma zero_group_shares_channel :
  allocate init
    (group_interval
       <$> sorted_by first_tick
             [[mkNote 0 2 1 1]; [mkNote 0 3 1 1; mkNote 5 3 1 2]])
  = Ok [0; 0]
  /\ overlap (0, 0) (0, 5)
  /\ ~ overlapping_groups_get_distinct_channels.
Proof.
  assert (Hrun : allocate init
            (group_interval
               <$> sorted_by first_tick
                     [[mkNote 0 2 1 1]; [mkNote 0 3 1 1; mkNote 5 3 1 2]])
          = Ok [0; 0]) by reflexivity.
  assert (Hov : overlap (0, 0) (0, 5)) by (unfold overlap; simpl; lia).
  split; [exact Hrun |]. split; [exact Hov |].
  intros Hspec.
  apply (Hspec _ _ Hrun 0%nat 1%nat (0, 0) (0, 5) 0 0); auto.
Qed.

(** C2 (amended): [generate_channel] returns the first channel, in key order,
    whose binding is the marker [(0, 0)] or does not overlap the request, and
    rebinds it; it fails exactly when every binding differs from [(0, 0)] and
    overlaps the request; and for groups taken in ascending order of first
    tick, each with first tick <= last tick and an interval other than
    [(0, 0)], two groups with overlapping intervals get distinct channels. *)
Theorem generate_channel_first_free_and_distinct :
  forall (m : list (Z * Z)) (s e : Z),
    (forall c m',
        generate_channel m s e = Ok (c, m') <->
        exists key b,
          c = Z.of_nat key /\ m' = <[key := (s, e)]> m /\ m !! key = Some b
          /\ (b = (0, 0) \/ ~ overlap b (s, e))
          /\ forall j b', (j < key)%nat -> m !! j = Some b' ->
                          b' <> (0, 0) /\ overlap b' (s, e))
    /\ (generate_channel m s e = Err NoChannel <->
        Forall (fun b => b <> (0, 0) /\ overlap b (s, e)) m)
    /\ (forall (groups : list (list Note)) (channels : list Z),
           Forall (fun steps => proper_interval (group_interval steps)) groups ->
           allocate init (group_interval <$> sorted_by first_tick groups)
           = Ok channels ->
           forall i j a b ca cb,
             i <> j ->
             (group_interval <$> sorted_by first_tick groups) !! i = Some a ->
             (group_interval <$> sorted_by first_tick groups) !! j = Some b ->
             channels !! i = Some ca -> channels !! j = Some cb ->
             overlap a b -> ca <> cb).
Proof.
  intros m s e. split; [| split].
  - intros c m'. rewrite generate_channel_Ok. split.
    + intros (key & b & Hc & Hm & Hl & Hfree & Hfirst).
      exists key, b. repeat (split; [assumption |]).
      split; [apply free_for_spec; exact Hfree |].
      intros j b' Hj Hl'. apply free_for_false. eauto.
    + intros (key & b & Hc & Hm & Hl & Hfree & Hfirst).
      exists key, b. repeat (split; [assumption |]).
      split; [apply free_for_spec; exact Hfree |].
      intros j b' Hj Hl'. apply free_for_false. eauto.
  - rewrite generate_channel_Err. tauto.
  - intros groups channels Hproper Halloc i j a b ca cb Hij Ha Hb Hca Hcb Hov.
    assert (Hp : Forall proper_interval
                   (group_interval <$> sorted_by first_tick groups)).
    { apply Forall_fmap. apply sorted_by_Forall. exact Hproper. }
    pose proof (group_intervals_sorted groups) as Hsorted.
    destruct (Nat.lt_trichotomy i j) as [Hlt | [Heq | Hgt]]; [| contradiction |].
    + eapply (allocate_distinct_sorted _ _ _ Halloc Hsorted Hp i j); eauto.
    + apply overlap_sym in Hov. intros Heq. symmetry in Heq. revert Heq.
      eapply (allocate_distinct_sorted _ _ _ Halloc Hsorted Hp j i); eauto.
Qed.

(** The slide groups [0..960] and [480..1440] of the specification. *)
Lemma generate_channel_first_free_and_distinct_witness :
  Forall (fun steps => proper_interval (group_interval steps))
         [[mkNote 480 5 3 1; mkNote 1440 5 3 2]; [mkNote 0 2 3 1; mkNote 960 2 3 2]]
  /\ allocate init
       (group_interval
          <$> sorted_by first_tick
                [[mkNote 480 5 3 1; mkNote 1440 5 3 2]; [mkNote 0 2 3 1; mkNote 960 2 3 2]])
     = Ok [0; 1]
  /\ overlap (0, 960) (480, 1440)
  /\ (0 : Z) <> 1.
Proof.
  assert (Hp : Forall (fun steps => proper_interval (group_interval steps))
                 [[mkNote 480 5 3 1; mkNote 1440 5 3 2];
                  [mkNote 0 2 3 1; mkNote 960 2 3 2]]).
  { repeat constructor; simpl; try lia; discriminate. }
  assert (Hov : overlap (0, 960) (480, 1440)) by (unfold overlap; simpl; lia).
  split; [exact Hp |]. split; [reflexivity |]. split; [exact Hov |].
  exact (proj2 (proj2 (generate_channel_first_free_and_distinct init 0 0))
           _ [0; 1] Hp eq_refl 0%nat 1%nat (0, 960) (480, 1440) 0 1
           ltac:(discriminate) eq_refl eq_refl eq_refl eq_refl Hov).
Defined.

(** C10: on a fresh allocator the binding [(0, 0)] is the free marker.
    [generate_channel(0, 0)] returns channel 0 and leaves the map as it was;
    [generate_channel(0, e)] then returns channel 0 again and rebinds it,
    although [0, e] overlaps [0, 0]. *)
Theorem zero_interval_binding_is_reused (e : Z) :
  0 <= e ->
  exists m1,
    generate_channel init 0 0 = Ok (0, m1)
    /\ m1 = init
    /\ generate_channel m1 0 e = Ok (0, <[0%nat := (0, e)]> m1)
    /\ overlap (0, 0) (0, e).
Proof.
  intros He. exists init. split; [reflexivity |]. split; [reflexivity |].
  split; [reflexivity |]. unfold overlap. simpl. lia.
Qed.

Lemma zero_interval_binding_is_reused_witness :
  exists m1,
    generate_channel init 0 0 = Ok (0, m1)
    /\ m1 = init
    /\ generate_channel m1 0 5 = Ok (0, <[0%nat := (0, 5)]> m1)
    /\ overlap (0, 0) (0, 5).
Proof. apply (zero_interval_binding_is_reused 5). lia. Defined.

(** The pool has 36 channels: 36 pairwise overlapping groups are served, the
    37th raises. *)
Example allocate_36_then_exhausted :
  allocate init (replicate 36 (1, 10)) = Ok (Z.of_nat <$> seq 0 36)
  /\ allocate init (replicate 37 (1, 10)) = Err NoChannel.
Proof. split; reflexivity. Qed.

(** ** Rendering a note map *)

Lemma resolution_fold_divides (raws : list (Z * string)) :
  forall g0,
    let g := foldl (fun gcd raw => Z.gcd (fst raw) gcd) g0 raws in
    (g | g0) /\ Forall (fun raw => (g | fst raw)) raws.
Proof.
  induction raws as [| [o s] raws IH]; intros g0; simpl.
  - split; [reflexivity | constructor].
  - destruct (IH (Z.gcd o g0)) as [Hg Hall]. split.
    + etransitivity; [exact Hg | apply Z.gcd_divide_r].
    + constructor; [| exact Hall]. simpl.
      etransitivity; [exact Hg | apply Z.gcd_divide_l].
Qed.


Lemma resolution_fold_pos (raws : list (Z * string)) :
  forall g0, 0 < g0 -> 0 < foldl (fun gcd raw => Z.gcd (fst raw) gcd) g0 raws.
Proof.
  induction raws as [| [o s] raws IH]; intros g0 Hg0; simpl; [exact Hg0 |].
  apply IH. pose proof (Z.gcd_nonneg o g0) as Hnn.
  assert (Z.gcd o g0 <> 0); [| lia].
  intros H0. apply Z.gcd_eq_0_r in H0. lia.
Qed.

Lemma py_range_divisible (stop step : Z) :
  0 < stop -> 0 < step -> (step | stop) ->
  py_range stop step
  = (fun k => Z.of_nat k * step) <$> seq 0 (Z.to_nat (stop / step)).
Proof.
  intros Hstop Hstep [q ->]. unfold py_range.
  destruct (Z.ltb_spec 0 step); [| lia].
  destruct (Z.ltb_spec 0 (q * step)); [| lia].
  replace ((q * step + step - 1) / step) with q; [| symmetry].
  - now rewrite Z.div_mul by lia.
  - replace (q * step + step - 1) with ((step - 1) + q * step) by lia.
    rewrite Z.div_add by lia. rewrite Z.div_small by lia. lia.
Qed.

Section CellData.
Variable tpm : Z.

Lemma writes_other (raws : list (Z * string)) (k : Z) :
  forall data,
    Forall (fun raw => fst raw `mod` tpm <> k) raws ->
    foldl (write tpm) data raws !! k = data !! k.
Proof.
  induction raws as [| raw raws IH]; intros data Hall; simpl; [reflexivity |].
  inversion Hall as [| ? ? Hraw Hrest]; subst.
  rewrite IH by exact Hrest. unfold write. now rewrite lookup_insert_ne.
Qed.

Lemma writes_last (l1 l2 : list (Z * string)) (o : Z) (s : string) :
  forall data,
    Forall (fun raw => fst raw `mod` tpm <> o `mod` tpm) l2 ->
    foldl (write tpm) data (l1 ++ (o, s) :: l2) !! (o `mod` tpm) = Some s.
Proof.
  intros data Hall. rewrite foldl_app. simpl.
  rewrite writes_other by exact Hall. unfold write. simpl.
  apply lookup_insert_eq.
Qed.

Lemma writes_origin (raws : list (Z * string)) (k : Z) (s : string) :
  forall data,
    foldl (write tpm) data raws !! k = Some s ->
    data !! k = Some s \/ exists raw, raw ∈ raws /\ fst raw `mod` tpm = k /\ snd raw = s.
Proof.
  induction raws as [| raw raws IH]; intros data H; simpl in H; [now left |].
  apply IH in H. destruct H as [H | (raw' & Hin & Hk & Hs)].
  - unfold write in H. destruct (decide (fst raw `mod` tpm = k)) as [Heq | Hne].
    + rewrite Heq, lookup_insert_eq in H. injection H as <-.
      right. exists raw. split; [apply elem_of_cons; now left | auto].
    + rewrite lookup_insert_ne in H by exact Hne. now left.
  - right. exists raw'. split; [apply elem_of_cons; now right | auto].
Qed.

End CellData.

Lemma cell_data_fold (nm : note_map) :
  cell_data nm = foldl (write (ticks_per_measure nm)) ∅ (raws nm).
Proof. reflexivity. Qed.

Lemma resolution_pos (nm : note_map) :
  0 < ticks_per_measure nm -> 0 < resolution nm.
Proof. apply resolution_fold_pos. Qed.

Lemma resolution_divides_measure (nm : note_map) :
  (resolution nm | ticks_per_measure nm).
Proof. apply (resolution_fold_divides (raws nm) (ticks_per_measure nm)). Qed.

Lemma resolution_divides_offset (nm : note_map) (raw : Z * string) :
  raw ∈ raws nm -> (resolution nm | fst raw).
Proof.
  intros Hin.
  pose proof (proj2 (resolution_fold_divides (raws nm) (ticks_per_measure nm))) as H.
  rewrite Forall_forall in H. apply H, Hin.
Qed.

Lemma render_note_map_Ok (nm : note_map) :
  0 < ticks_per_measure nm ->
  render_note_map nm
  = Ok (cell (cell_data nm)
          <$> ((fun k => Z.of_nat k * resolution nm)
                 <$> seq 0 (Z.to_nat (ticks_per_measure nm / resolution nm)))).
Proof.
  intros Hpos. unfold render_note_map.
  destruct (Z.eqb_spec (ticks_per_measure nm) 0) as [H0 | _]; [lia |].
  rewrite py_range_divisible;
    auto using resolution_pos, resolution_divides_measure.
  destruct (raws nm); reflexivity.
Qed.

Lemma render_note_map_lookup (nm : note_map) (values : list string) (i : nat) :
  0 < ticks_per_measure nm ->
  render_note_map nm = Ok values ->
  (i < Z.to_nat (ticks_per_measure nm / resolution nm))%nat ->
  values !! i = Some (cell (cell_data nm) (Z.of_nat i * resolution nm)).
Proof.
  intros Hpos Hr Hi. rewrite render_note_map_Ok in Hr by exact Hpos.
  injection Hr as <-. rewrite !list_lookup_fmap.
  rewrite lookup_seq_lt by exact Hi. reflexivity.
Qed.


Lemma cell_index_exact (nm : note_map) (raw : Z * string) :
  0 < ticks_per_measure nm -> raw ∈ raws nm ->
  (cell_index nm (fst raw) < Z.to_nat (ticks_per_measure nm / resolution nm))%nat
  /\ Z.of_nat (cell_index nm (fst raw)) * resolution nm
     = fst raw `mod` ticks_per_measure nm.
Proof.
  intros Hpos Hin. unfold cell_index.
  pose proof (resolution_pos nm Hpos) as Hg.
  destruct (resolution_divides_measure nm) as [q Hq].
  destruct (resolution_divides_offset nm raw Hin) as [p Hp].
  pose proof (Z.mod_pos_bound (fst raw) (ticks_per_measure nm) Hpos) as Hm.
  assert (Hdiv : (resolution nm | fst raw `mod` ticks_per_measure nm)).
  { rewrite Z.mod_eq by lia. rewrite Hq at 1. rewrite Hp at 1.
    exists (p - q * (fst raw / ticks_per_measure nm)). lia. }
  destruct Hdiv as [r Hr]. rewrite Hr, Hq.
  rewrite !Z.div_mul by lia.
  assert (0 <= r) by nia. assert (r < q) by nia.
  split; [lia |]. rewrite Z2Nat.id by lia. reflexivity.
Qed.

Lemma render_last_write (nm : note_map) (values : list string) l1 o s l2 :
  0 < ticks_per_measure nm ->
  render_note_map nm = Ok values ->
  raws nm = l1 ++ (o, s) :: l2 ->
  Forall (fun raw => fst raw `mod` ticks_per_measure nm
                     <> o `mod` ticks_per_measure nm) l2 ->
  s <> EmptyString ->
  values !! cell_index nm o = Some s.
Proof.
  intros Hpos Hr Hraws Hlast Hs.
  assert (Hin : (o, s) ∈ raws nm).
  { rewrite Hraws. apply elem_of_app. right. apply elem_of_cons. now left. }
  destruct (cell_index_exact nm (o, s) Hpos Hin) as [Hi Hcell].
  simpl in Hi, Hcell.
  rewrite (render_note_map_lookup nm _ _ Hpos Hr Hi). f_equal.
  rewrite Hcell. unfold cell. rewrite cell_data_fold, Hraws.
  rewrite writes_last by exact Hlast.
  destruct s; [contradiction | reflexivity].
Qed.



(** ** push_raw *)

Lemma push_raw_locate segs tpb maps tick info data :
  push_raw segs tpb maps tick info data
  = (loc ← locate segs tpb tick;
     match loc with
     | None => Ok maps
     | Some (current_measure, offset, tpm) =>
         Ok (note_maps_push maps (fmt03 current_measure +:+ info) (offset, data) tpm)
     end).
Proof.
  unfold push_raw, locate.
  destruct (List.find _ segs) as [b |]; [| reflexivity].
  destruct (tpb =? 0); [reflexivity |].
  destruct (Qeq_bool (value b) 0); reflexivity.
Qed.

Lemma note_maps_get_push_eq maps tag raw tpm :
  note_maps_get (note_maps_push maps tag raw tpm) tag
  = Some (mkNoteMap (raws_of maps tag ++ [raw]) tpm).
Proof.
  unfold raws_of. induction maps as [| [k nm] maps IH]; simpl.
  - now rewrite String.eqb_refl.
  - destruct (String.eqb k tag) eqn:Hk; simpl; rewrite Hk; [reflexivity | exact IH].
Qed.

Lemma note_maps_get_push_ne maps tag tag' raw tpm :
  tag <> tag' ->
  note_maps_get (note_maps_push maps tag raw tpm) tag' = note_maps_get maps tag'.
Proof.
  intros Hne. induction maps as [| [k nm] maps IH]; simpl.
  - destruct (String.eqb_spec tag tag'); [contradiction | reflexivity].
  - destruct (String.eqb_spec k tag) as [-> | Hk]; simpl.
    + destruct (String.eqb_spec tag tag'); [contradiction | reflexivity].
    + destruct (String.eqb k tag'); [reflexivity | exact IH].
Qed.

(** A push only ever appends to the raws of a tag. *)
Lemma push_raw_extends segs tpb maps tick info data maps' tag :
  push_raw segs tpb maps tick info data = Ok maps' ->
  exists more, raws_of maps' tag = raws_of maps tag ++ more.
Proof.
  rewrite push_raw_locate. intros H. apply bind_Ok in H.
  destruct H as ([[[m o] tpm] |] & _ & H); injection H as <-.
  - destruct (decide (fmt03 m +:+ info = tag)) as [<- | Hne].
    + exists [(o, data)]. unfold raws_of at 1.
      now rewrite note_maps_get_push_eq.
    + exists []. unfold raws_of. rewrite note_maps_get_push_ne by exact Hne.
      now rewrite app_nil_r.
  - exists []. now rewrite app_nil_r.
Qed.

Lemma push_all_extends segs tpb pushes tag :
  forall maps maps',
    push_all segs tpb pushes maps = Ok maps' ->
    exists more, raws_of maps' tag = raws_of maps tag ++ more.
Proof.
  induction pushes as [| [[tick info] data] pushes IH]; intros maps maps' H.
  - injection H as <-. exists []. now rewrite app_nil_r.
  - unfold push_all in H. cbn [for_each] in H. apply bind_Ok in H.
    destruct H as (maps1 & H1 & H).
    apply (push_raw_extends _ _ _ _ _ _ _ tag) in H1. destruct H1 as (more1 & H1).
    apply IH in H. destruct H as (more & H).
    exists (more1 ++ more). rewrite H, H1. now rewrite app_assoc.
Qed.

(** C8: two pushes that target the same measure, line tag and offset within
    the measure, whatever is pushed between them: the second push raises no
    error, and in the rendered line the cell of that offset holds the symbol
    of the second push. *)
Theorem later_push_overwrites_earlier :
  forall segs tpb maps t1 t2 info s1 s2 between maps1 maps1' current_measure o1 o2 tpm,
    locate segs tpb t1 = Ok (Some (current_measure, o1, tpm)) ->
    locate segs tpb t2 = Ok (Some (current_measure, o2, tpm)) ->
    o1 `mod` tpm = o2 `mod` tpm ->
    0 < tpm ->
    s2 <> EmptyString ->
    push_raw segs tpb maps t1 info s1 = Ok maps1 ->
    push_all segs tpb between maps1 = Ok maps1' ->
    exists maps2 nm values,
      push_raw segs tpb maps1' t2 info s2 = Ok maps2
      /\ note_maps_get maps2 (fmt03 current_measure +:+ info) = Some nm
      /\ ticks_per_measure nm = tpm
      /\ (exists before mid, raws nm = before ++ (o1, s1) :: mid ++ [(o2, s2)])
      /\ render_note_map nm = Ok values
      /\ cell_index nm o1 = cell_index nm o2
      /\ values !! cell_index nm o1 = Some s2.
Proof.
  intros segs tpb maps t1 t2 info s1 s2 between maps1 maps1' m o1 o2 tpm
    Hl1 Hl2 Hkey Hpos Hs2 Hp1 Hbetween.
  set (tag := fmt03 m +:+ info).
  rewrite push_raw_locate, Hl1 in Hp1. simpl in Hp1. injection Hp1 as <-.
  destruct (push_all_extends _ _ _ tag _ _ Hbetween) as (mid & Hmid).
  unfold raws_of at 2 in Hmid. fold tag in Hmid.
  rewrite note_maps_get_push_eq in Hmid. simpl in Hmid.
  set (nm := mkNoteMap (raws_of maps1' tag ++ [(o2, s2)]) tpm).
  assert (Hnmpos : 0 < ticks_per_measure nm) by exact Hpos.
  exists (note_maps_push maps1' tag (o2, s2) tpm), nm.
  destruct (render_note_map nm) as [values | err] eqn:Hr;
    [| rewrite render_note_map_Ok in Hr by exact Hnmpos; discriminate].
  exists values.
  split; [rewrite push_raw_locate, Hl2; reflexivity |].
  split; [apply note_maps_get_push_eq |].
  split; [reflexivity |].
  split.
  { exists (raws_of maps tag), mid. simpl. rewrite Hmid.
    rewrite <- !app_assoc. reflexivity. }
  split; [reflexivity |].
  assert (Hidx : cell_index nm o1 = cell_index nm o2).
  { unfold cell_index. simpl. now rewrite Hkey. }
  split; [exact Hidx |]. rewrite Hidx.
  apply (render_last_write nm values (raws_of maps1' tag) o2 s2 []
           Hnmpos Hr eq_refl); [constructor | exact Hs2].
Qed.

Lemma later_push_overwrites_earlier_witness :
  let segs := bar_lengths_in_ticks 480 [(0, (4 # 1)%Q)] in
  exists maps1 maps1',
    push_raw segs 480 [] 0 "12" "11" = Ok maps1
    /\ push_all segs 480 [(240, "12", "31")] maps1 = Ok maps1'
    /\ exists maps2 nm values,
         push_raw segs 480 maps1' 0 "12" "21" = Ok maps2
         /\ note_maps_get maps2 "00012" = Some nm
         /\ ticks_per_measure nm = 1920
         /\ (exists before mid, raws nm = before ++ (0, "11") :: mid ++ [(0, "21")])
         /\ render_note_map nm = Ok values
         /\ cell_index nm 0 = cell_index nm 0
         /\ values !! cell_index nm 0 = Some "21".
Proof.
  intros segs.
  exists [("00012", mkNoteMap [(0, "11")] 1920)].
  exists [("00012", mkNoteMap [(0, "11"); (240, "31")] 1920)].
  split; [reflexivity |]. split; [reflexivity |].
  apply (later_push_overwrites_earlier segs 480 [] 0 0 "12" "11" "21"
           [(240, "12", "31")]
           [("00012", mkNoteMap [(0, "11")] 1920)]
           [("00012", mkNoteMap [(0, "11"); (240, "31")] 1920)]
           0 0 0 1920 eq_refl eq_refl eq_refl eq_refl ltac:(discriminate)
           eq_refl eq_refl).
Defined.

(** ** Exact measures

    [int] of a float that holds a whole number is that number; the Python
    expressions of lines 123, 131 and 134 on a bar length whose tick count
    is a positive whole number. *)

Lemma py_int_comp (x y : Q) : (x == y)%Q -> py_int x = py_int y.
Proof.
  intros H. unfold py_int.
  assert (Hb : Qle_bool 0 x = Qle_bool 0 y).
  { destruct (Qle_bool 0 x) eqn:Hx, (Qle_bool 0 y) eqn:Hy; try reflexivity.
    - apply Qle_bool_iff in Hx. rewrite H in Hx. apply Qle_bool_iff in Hx. congruence.
    - apply Qle_bool_iff in Hy. rewrite <- H in Hy. apply Qle_bool_iff in Hy. congruence. }
  rewrite Hb. destruct (Qle_bool 0 y); [apply Qfloor_comp | apply Qceiling_comp]; exact H.
Qed.

Lemma py_int_inject_Z (z : Z) : py_int (inject_Z z) = z.
Proof.
  unfold py_int. destruct (Qle_bool 0 (inject_Z z)); [apply Qfloor_Z | apply Qceiling_Z].
Qed.


Section ExactMeasures.
Variable tpb : Z.
Hypothesis tpb_pos : 0 < tpb.


Lemma whole_measure_span (v : Q) (k : Z) :
  whole_measure tpb v ->
  py_int (inject_Z k * v * inject_Z tpb)%Q = k * py_int (v * inject_Z tpb)%Q.
Proof.
  intros [_ Heq].
  rewrite <- (py_int_inject_Z (k * py_int (v * inject_Z tpb)%Q)).
  apply py_int_comp. rewrite inject_Z_mult.
  rewrite (Qeq_trans _ _ _ (Qeq_refl _) Heq). ring.
Qed.


End ExactMeasures.

Lemma find_app {A : Type} (P : A -> bool) (l1 l2 : list A) :
  List.find P (l1 ++ l2)
  = match List.find P l1 with
    | Some y => Some y
    | None => List.find P l2
    end.
Proof.
  induction l1 as [| x l1 IH]; simpl; [reflexivity |].
  destruct (P x); [reflexivity | exact IH].
Qed.

Lemma find_none {A : Type} (P : A -> bool) (l : list A) :
  Forall (fun x => P x = false) l -> List.find P l = None.
Proof.
  induction 1 as [| x l Hx Hl IH]; simpl; [reflexivity |].
  now rewrite Hx.
Qed.


(** ** The measure timeline *)

Section Timeline.
Variable tpb : Z.


Lemma bar_lengths_loop_starts (entries : list (Z * Q)) :
  forall acc,
    StronglySorted (key_le fst) entries -> whole_entries tpb entries ->
    Forall (fun b => acc <= start_tick b) (bar_lengths_loop tpb acc entries).
Proof.
  induction entries as [| [m v] entries IH]; intros acc Hsorted Hwhole; simpl.
  - constructor.
  - inversion Hsorted as [| ? ? Hs_rest Hs_head]; subst.
    inversion Hwhole as [| ? ? Hw_head Hw_rest]; subst. simpl in Hw_head.
    constructor; [simpl; lia |].
    destruct entries as [| [m' v'] entries']; [constructor |].
    rewrite whole_measure_span by exact Hw_head.
    inversion Hs_head as [| ? ? Hmm' _]; subst. unfold key_le in Hmm'. simpl in Hmm'.
    eapply Forall_impl; [apply IH; assumption |].
    intros b Hb. simpl in Hb. destruct Hw_head as [Hpos _]. nia.
Qed.


End Timeline.




Example locate_far_past_last_change :
  locate (bar_lengths_in_ticks 480 (sorted_by fst [(2, (3 # 1)%Q); (0, (4 # 1)%Q)]))
         480 100000
  = Ok (Some (68, 96160, 1440)).
Proof. reflexivity. Qed.

(** ** Offsets stored by a push *)

(** C9, as stated, fails: with 4 beats per measure a note at tick 1920, the
    start of measure 1, is stored with offset 1920 in a note map whose
    [ticks_per_measure] is 1920. *)
Lemma second_measure_offset_not_reduced :
  let segs := bar_lengths_in_ticks 480 (sorted_by fst [(0, (4 # 1)%Q)]) in
  push_raw segs 480 [] 1920 "12" "11"
  = Ok [("00112", mkNoteMap [(1920, "11")] 1920)]
  /\ ~ (1920 < 1920)
  /\ ~ stored_offsets_below_measure.
Proof.
  intros segs.
  assert (Hpush : push_raw segs 480 [] 1920 "12" "11"
                  = Ok [("00112", mkNoteMap [(1920, "11")] 1920)]) by reflexivity.
  split; [exact Hpush |]. split; [lia |].
  intros Hspec.
  specialize (Hspec segs 480 [(1920, "12", "11")]
                [("00112", mkNoteMap [(1920, "11")] 1920)] "00112"
                (mkNoteMap [(1920, "11")] 1920) (1920, "11")).
  simpl in Hspec. pose proof (Hspec eq_refl eq_refl ltac:(apply elem_of_cons; now left)).
  lia.
Qed.

(** C9 (amended): a push stores the distance [tick - start_tick] from the
    start of its segment, which is not negative and not reduced; the
    reduction modulo the measure length happens when the line is rendered:
    every key of the [data] dict of a note map with positive
    [ticks_per_measure] is a stored offset modulo [ticks_per_measure], hence
    at least 0 and strictly below [ticks_per_measure]. *)
Theorem offsets_reduced_when_rendered :
  forall segs tpb maps tick info data seg maps',
    List.find (fun b => start_tick b <=? tick) segs = Some seg ->
    push_raw segs tpb maps tick info data = Ok maps' ->
    exists current_measure nm,
      note_maps_get maps' (fmt03 current_measure +:+ info) = Some nm
      /\ raws nm
         = raws_of maps (fmt03 current_measure +:+ info)
             ++ [(tick - start_tick seg, data)]
      /\ 0 <= tick - start_tick seg
      /\ ticks_per_measure nm = segment_ticks tpb seg
      /\ (0 < ticks_per_measure nm ->
          forall k s,
            cell_data nm !! k = Some s ->
            0 <= k < ticks_per_measure nm
            /\ exists raw, raw ∈ raws nm
                           /\ k = fst raw `mod` ticks_per_measure nm
                           /\ snd raw = s).
Proof.
  intros segs tpb maps tick info data seg maps' Hfind Hpush.
  unfold push_raw in Hpush. rewrite Hfind in Hpush.
  destruct (tpb =? 0); [discriminate |].
  destruct (Qeq_bool (value seg) 0); [discriminate |].
  injection Hpush as <-.
  eexists. eexists. split; [apply note_maps_get_push_eq |].
  split; [reflexivity |].
  split.
  { apply find_some in Hfind. destruct Hfind as [_ Hle]. apply Z.leb_le in Hle. lia. }
  split; [reflexivity |].
  intros Hpos k s Hk. rewrite cell_data_fold in Hk. apply writes_origin in Hk.
  destruct Hk as [Hk | (raw & Hin & <- & <-)]; [rewrite lookup_empty in Hk; discriminate |].
  split; [apply Z.mod_pos_bound; exact Hpos |].
  exists raw. auto.
Qed.

Lemma offsets_reduced_when_rendered_witness :
  let segs := bar_lengths_in_ticks 480 (sorted_by fst [(0, (4 # 1)%Q)]) in
  exists current_measure nm,
    note_maps_get [("00112", mkNoteMap [(1920, "11")] 1920)]
                  (fmt03 current_measure +:+ "12") = Some nm
    /\ raws nm = raws_of [] (fmt03 current_measure +:+ "12") ++ [(1920 - 0, "11")]
    /\ 0 <= 1920 - 0
    /\ ticks_per_measure nm = 1920.
Proof.
  intros segs.
  destruct (offsets_reduced_when_rendered segs 480 [] 1920 "12" "11"
              (mkBarLength 0 0 (4 # 1)%Q)
              [("00112", mkNoteMap [(1920, "11")] 1920)] eq_refl eq_refl)
    as (m & nm & H1 & H2 & H3 & H4 & _).
  exists m, nm. auto.
Defined.

(** ** BPM identifiers *)

Lemma table_from_app (keys more : list Q) :
  forall n,
    table_from n (keys ++ more)
    = table_from n keys ++ table_from (n + length keys) more.
Proof.
  induction keys as [| k keys IH]; intros n; simpl.
  - now rewrite Nat.add_0_r.
  - rewrite IH. do 3 f_equal. lia.
Qed.

Lemma table_from_length (keys : list Q) :
  forall n, length (table_from n keys) = length keys.
Proof.
  induction keys as [| k keys IH]; intros n; simpl; [reflexivity |].
  now rewrite IH.
Qed.

Lemma bpm_get_app (t1 t2 : list (Q * string)) (v : Q) :
  bpm_get (t1 ++ t2) v
  = match bpm_get t1 v with
    | Some identifier => Some identifier
    | None => bpm_get t2 v
    end.
Proof.
  induction t1 as [| [k identifier] t1 IH]; simpl; [reflexivity |].
  destruct (Qeq_bool k v); [reflexivity | exact IH].
Qed.

Lemma bpm_get_table_None (keys : list Q) (v : Q) :
  forall n,
    bpm_get (table_from n keys) v = None
    <-> existsb (fun k => Qeq_bool k v) keys = false.
Proof.
  induction keys as [| k keys IH]; intros n; simpl; [tauto |].
  destruct (Qeq_bool k v); simpl; [split; discriminate | apply IH].
Qed.

Lemma push_all_cons segs tpb tick info data pushes maps :
  push_all segs tpb ((tick, info, data) :: pushes) maps
  = push_raw segs tpb maps tick info data ≫= push_all segs tpb pushes.
Proof. reflexivity. Qed.

Lemma bpm_step_known segs tpb lines table maps tick v known :
  bpm_get table v = Some known ->
  bpm_step segs tpb (lines, table, maps) (tick, v)
  = (maps' ← push_raw segs tpb maps tick "08" known; Ok (lines, table, maps')).
Proof. intros H. unfold bpm_step. now rewrite H. Qed.

Lemma bpm_step_new segs tpb lines table maps tick v :
  bpm_get table v = None ->
  bpm_step segs tpb (lines, table, maps) (tick, v)
  = (maps' ← push_raw segs tpb maps tick "08" (identifier_of (length table));
     Ok (lines ++ [BpmLine (identifier_of (length table)) v],
         table ++ [(v, identifier_of (length table))], maps')).
Proof. intros H. unfold bpm_step. now rewrite H. Qed.

(** The loop of lines 141-146, started with the keys [seen] already in the
    table: it pushes one reference per tempo change, carrying the identifier
    its value has in the final table, and appends one definition per new
    value. *)
Lemma bpm_loop_from (segs : list BarLength) (tpb : Z) (bpms : list (Z * Q)) :
  forall (seen : list Q) (lines : list line) (maps : list (string * note_map)),
    for_each (bpm_step segs tpb) bpms (lines, table_from 0 seen, maps)
    = (maps' ← push_all segs tpb
                 (bpm_references
                    (table_from 0 (seen ++ distinct_from seen (snd <$> bpms))) bpms)
                 maps;
       Ok (lines
             ++ bpm_definitions
                  (table_from (length seen) (distinct_from seen (snd <$> bpms))),
           table_from 0 (seen ++ distinct_from seen (snd <$> bpms)), maps')).
Proof.
  induction bpms as [| [tick v] bpms IH]; intros seen lines maps.
  - simpl. now rewrite !app_nil_r.
  - cbn [for_each fmap list_fmap distinct_from snd].
    unfold bpm_references. cbn [fmap list_fmap]. fold (bpm_references).
    rewrite push_all_cons.
    destruct (bpm_get (table_from 0 seen) v) as [known |] eqn:Hget.
    + assert (Hseen : existsb (fun k => Qeq_bool k v) seen = true).
      { destruct (existsb _ seen) eqn:He; [reflexivity |].
        apply (bpm_get_table_None seen v 0%nat) in He. congruence. }
      rewrite Hseen. rewrite (bpm_step_known _ _ _ _ _ _ _ known Hget).
      assert (Hfinal : bpm_get (table_from 0 (seen ++ distinct_from seen (snd <$> bpms))) v
                       = Some known).
      { now rewrite table_from_app, bpm_get_app, Hget. }
      rewrite Hfinal. simpl default.
      destruct (push_raw segs tpb maps tick "08" known) as [maps1 | err];
        [| reflexivity].
      cbn [mbind result_bind]. apply IH.
    + assert (Hseen : existsb (fun k => Qeq_bool k v) seen = false).
      { apply (bpm_get_table_None seen v 0%nat). exact Hget. }
      rewrite Hseen. rewrite (bpm_step_new _ _ _ _ _ _ _ Hget).
      rewrite table_from_length.
      set (D := distinct_from (seen ++ [v]) (snd <$> bpms)).
      assert (Hkeys : seen ++ v :: D = (seen ++ [v]) ++ D).
      { now rewrite <- app_assoc. }
      rewrite Hkeys.
      assert (Hfinal : bpm_get (table_from 0 ((seen ++ [v]) ++ D)) v
                       = Some (identifier_of (length seen))).
      { rewrite <- Hkeys, table_from_app, bpm_get_app, Hget.
        cbn [table_from bpm_get]. now rewrite Qeq_bool_refl. }
      rewrite Hfinal. simpl default.
      destruct (push_raw segs tpb maps tick "08" (identifier_of (length seen)))
        as [maps1 | err]; [| reflexivity].
      cbn [mbind result_bind].
      replace (table_from 0 seen ++ [(v, identifier_of (length seen))])
        with (table_from 0 (seen ++ [v]))
        by (rewrite table_from_app; reflexivity).
      rewrite IH. fold D. rewrite length_app. simpl length.
      replace (length seen + 1)%nat with (S (length seen)) by lia.
      destruct (push_all segs tpb _ maps1); [| reflexivity].
      cbn [mbind result_bind]. unfold bpm_definitions.
      cbn [table_from fmap list_fmap]. rewrite <- app_assoc. reflexivity.
Qed.

Lemma bpm_get_table_Some (keys : list Q) (v : Q) (identifier : string) :
  forall n,
    bpm_get (table_from n keys) v = Some identifier <->
    exists k key,
      keys !! k = Some key /\ Qeq_bool key v = true
      /\ (forall j w, (j < k)%nat -> keys !! j = Some w -> Qeq_bool w v = false)
      /\ identifier = identifier_of (n + k).
Proof.
  induction keys as [| key0 keys IH]; intros n; simpl.
  - split; [discriminate |]. intros (k & key & Hl & _). discriminate.
  - destruct (Qeq_bool key0 v) eqn:H0.
    + split.
      * intros [= <-]. exists 0%nat, key0.
        split; [reflexivity |]. split; [exact H0 |].
        split; [intros j w Hj; lia | f_equal; lia].
      * intros (k & key & Hl & Hk & Hfirst & ->).
        destruct k as [| k]; [do 2 f_equal; lia |].
        specialize (Hfirst 0%nat key0 ltac:(lia) eq_refl). congruence.
    + rewrite IH. split.
      * intros (k & key & Hl & Hk & Hfirst & ->).
        exists (S k), key. split; [exact Hl |]. split; [exact Hk |].
        split; [| f_equal; lia].
        intros [| j] w Hj Hw; simpl in Hw; [congruence |].
        apply (Hfirst j); [lia | exact Hw].
      * intros (k & key & Hl & Hk & Hfirst & ->).
        destruct k as [| k]; simpl in Hl; [congruence |].
        exists k, key. split; [exact Hl |]. split; [exact Hk |].
        split; [| f_equal; lia].
        intros j w Hj Hw. apply (Hfirst (S j)); [lia | exact Hw].
Qed.

(** Every value of the list is in [seen] or among the new distinct values. *)
Lemma distinct_from_complete (values : list Q) (v : Q) :
  forall seen,
    v ∈ values ->
    existsb (fun k => Qeq_bool k v) (seen ++ distinct_from seen values) = true.
Proof.
  induction values as [| v0 values IH]; intros seen Hin.
  - apply elem_of_nil in Hin. contradiction.
  - simpl. apply elem_of_cons in Hin.
    destruct (existsb (fun k => Qeq_bool k v0) seen) eqn:Hseen.
    + destruct Hin as [-> | Hin]; [| apply IH; exact Hin].
      rewrite existsb_app, Hseen. reflexivity.
    + replace (seen ++ v0 :: distinct_from (seen ++ [v0]) values)
        with ((seen ++ [v0]) ++ distinct_from (seen ++ [v0]) values)
        by (rewrite <- app_assoc; reflexivity).
      destruct Hin as [-> | Hin]; [| apply IH; exact Hin].
      rewrite !existsb_app. simpl. rewrite Qeq_bool_refl.
      now rewrite orb_true_r.
Qed.

(** The new distinct values are pairwise different and none is in [seen]. *)
Lemma distinct_from_fresh (values : list Q) :
  forall seen i v,
    distinct_from seen values !! i = Some v ->
    existsb (fun k => Qeq_bool k v) (seen ++ take i (distinct_from seen values))
    = false.
Proof.
  induction values as [| v0 values IH]; intros seen i v Hl; simpl in *.
  - discriminate.
  - destruct (existsb (fun k => Qeq_bool k v0) seen) eqn:Hseen.
    + apply IH. exact Hl.
    + destruct i as [| i]; simpl in Hl |- *.
      * injection Hl as <-. now rewrite app_nil_r.
      * replace (seen ++ v0 :: take i (distinct_from (seen ++ [v0]) values))
          with ((seen ++ [v0]) ++ take i (distinct_from (seen ++ [v0]) values))
          by (rewrite <- app_assoc; reflexivity).
        apply IH. exact Hl.
Qed.

Lemma table_from_lookup (keys : list Q) (k : nat) (v : Q) :
  forall n,
    keys !! k = Some v -> table_from n keys !! k = Some (v, identifier_of (n + k)).
Proof.
  revert k. induction keys as [| key keys IH]; intros k n Hl; [discriminate |].
  destruct k as [| k]; simpl in *.
  - injection Hl as ->. do 3 f_equal. lia.
  - rewrite (IH k (S n) Hl). do 3 f_equal. lia.
Qed.

Lemma existsb_take_false (keys : list Q) (v : Q) (k j : nat) (w : Q) :
  existsb (fun key => Qeq_bool key v) (take k keys) = false ->
  (j < k)%nat -> keys !! j = Some w -> Qeq_bool w v = false.
Proof.
  intros Hex Hj Hw.
  destruct (Qeq_bool w v) eqn:Hwv; [| reflexivity].
  assert (Hin : In w (take k keys)).
  { apply list_elem_of_In, list_elem_of_lookup. exists j.
    rewrite lookup_take_lt by exact Hj. exact Hw. }
  assert (Htrue : existsb (fun key => Qeq_bool key v) (take k keys) = true).
  { apply existsb_exists. exists w. auto. }
  congruence.
Qed.

(** C6: over the tick-sorted tempo changes, the loop of lines 141-146
    appends one BPM definition per distinct tempo value, in order of first
    occurrence, the [k]-th of them (from 0) with the identifier
    [base36(k + 1)] padded to two characters, so ["01"], ["02"], ...; every
    tempo change pushes a reference carrying the identifier of the first
    occurrence of its value.  Two tempo changes of equal value give one
    definition and two references with identifier ["01"]. *)
Theorem bpm_identifiers_in_first_occurrence_order :
  forall (segs : list BarLength) (tpb : Z) (bpms : list (Z * Q))
         (lines : list line) (maps : list (string * note_map)),
    let sorted := sorted_by fst bpms in
    let distinct := distinct_from [] (snd <$> sorted) in
    let table := table_from 0 distinct in
    for_each (bpm_step segs tpb) sorted (lines, [], maps)
    = (maps' ← push_all segs tpb (bpm_references table sorted) maps;
       Ok (lines ++ bpm_definitions table, table, maps'))
    /\ (forall k v,
           distinct !! k = Some v ->
           table !! k = Some (v, identifier_of k)
           /\ bpm_definitions table !! k = Some (BpmLine (identifier_of k) v)
           /\ bpm_get table v = Some (identifier_of k))
    /\ (identifier_of 0 = "01" /\ identifier_of 1 = "02")
    /\ (forall tick v,
           (tick, v) ∈ sorted ->
           exists k w, distinct !! k = Some w /\ (w == v)%Q
                       /\ bpm_get table v = Some (identifier_of k))
    /\ (forall t1 t2 v,
           for_each (bpm_step segs tpb) (sorted_by fst [(t1, v); (t2, v)])
                    (lines, [], maps)
           = (maps' ← push_all segs tpb
                        [(Z.min t1 t2, "08", "01"); (Z.max t1 t2, "08", "01")] maps;
              Ok (lines ++ [BpmLine "01" v], [(v, "01")], maps'))).
Proof.
  intros segs tpb bpms lines maps sorted distinct table.
  split; [apply (bpm_loop_from segs tpb sorted [] lines maps) |].
  split.
  { intros k v Hk.
    pose proof (table_from_lookup distinct k v 0%nat Hk) as Ht.
    change (table !! k = Some (v, identifier_of k)) in Ht.
    split; [exact Ht |]. split.
    - unfold bpm_definitions. rewrite list_lookup_fmap. now rewrite Ht.
    - apply bpm_get_table_Some. exists k, v.
      split; [exact Hk |]. split; [apply Qeq_bool_refl |]. split; [| reflexivity].
      intros j w Hj Hw.
      pose proof (distinct_from_fresh _ [] k v Hk) as Hfresh. simpl in Hfresh.
      apply (existsb_take_false _ _ _ _ _ Hfresh Hj Hw). }
  split; [split; reflexivity |].
  split.
  { intros tick v Hin.
    assert (Hv : v ∈ snd <$> sorted).
    { apply (list_elem_of_fmap_2 snd) in Hin. exact Hin. }
    pose proof (distinct_from_complete _ v [] Hv) as Hex. simpl in Hex.
    destruct (bpm_get table v) as [identifier |] eqn:Hget.
    - apply bpm_get_table_Some in Hget.
      destruct Hget as (k & key & Hk & Hkey & _ & ->).
      exists k, key. split; [exact Hk |]. split; [| reflexivity].
      apply Qeq_bool_iff. exact Hkey.
    - apply bpm_get_table_None in Hget. fold distinct in Hex. congruence. }
  intros t1 t2 v.
  assert (Hs : sorted_by fst [(t1, v); (t2, v)]
               = [(Z.min t1 t2, v); (Z.max t1 t2, v)]).
  { cbn [sorted_by insert_by fst].
    destruct (Z.leb_spec t1 t2);
      [rewrite Z.min_l, Z.max_r by lia | rewrite Z.min_r, Z.max_l by lia];
      reflexivity. }
  rewrite Hs.
  change (@nil (Q * string)) with (table_from 0 []).
  rewrite (bpm_loop_from segs tpb _ [] lines maps).
  cbn [fmap list_fmap snd distinct_from existsb app].
  rewrite Qeq_bool_refl. cbn [orb distinct_from length table_from].
  unfold bpm_references, bpm_definitions.
  cbn [fmap list_fmap bpm_get]. rewrite Qeq_bool_refl.
  reflexivity.
Qed.

Lemma bpm_identifiers_in_first_occurrence_order_witness :
  let bpms := [(1920, (150 # 1)%Q); (0, (120 # 1)%Q); (3840, (120 # 1)%Q)] in
  let distinct := distinct_from [] (snd <$> sorted_by fst bpms) in
  distinct !! 1%nat = Some (150 # 1)%Q
  /\ bpm_get (table_from 0 distinct) (150 # 1)%Q = Some "02"
  /\ bpm_get (table_from 0 distinct) (120 # 1)%Q = Some "01".
Proof.
  intros bpms distinct.
  pose proof (bpm_identifiers_in_first_occurrence_order [] 480 bpms [] [])
    as (_ & Hid & _).
  split; [reflexivity |]. split.
  - apply (Hid 1%nat (150 # 1)%Q eq_refl).
  - apply (Hid 0%nat (120 # 1)%Q eq_refl).
Defined.

(** ** The pushes of a serialization *)

Lemma push_all_app segs tpb pushes more maps :
  push_all segs tpb (pushes ++ more) maps
  = push_all segs tpb pushes maps ≫= push_all segs tpb more.
Proof. apply for_each_app. Qed.

Lemma push_notes_push_all segs tpb category notes maps :
  push_notes segs tpb category notes maps
  = push_all segs tpb (note_pushes category notes) maps.
Proof.
  unfold push_notes, note_pushes. revert maps.
  induction notes as [| note notes IH]; intros maps; [reflexivity |].
  rewrite fmap_cons, push_all_cons. cbn [for_each].
  destruct (push_raw _ _ _ _ _ _); [apply IH | reflexivity].
Qed.

Lemma group_step_Ok segs tpb category cm maps steps cm' maps' :
  group_step segs tpb category (cm, maps) steps = Ok (cm', maps') ->
  exists channel,
    generate_channel cm (fst (group_interval steps)) (snd (group_interval steps))
    = Ok (channel, cm')
    /\ push_all segs tpb (group_pushes category steps channel) maps = Ok maps'.
Proof.
  unfold group_step. destruct steps as [| first steps]; [discriminate |].
  intros H. apply bind_Ok in H. destruct H as ([channel cm1] & Hg & H).
  apply bind_Ok in H. destruct H as (maps1 & Hpush & [= <- <-]).
  exists channel. split; [exact Hg |].
  rewrite <- Hpush. unfold group_pushes. clear.
  generalize (first :: steps). intros notes. revert maps.
  induction notes as [| note notes IH]; intros maps; [reflexivity |].
  rewrite fmap_cons, push_all_cons. cbn [for_each].
  destruct (push_raw _ _ _ _ _ _); [apply IH | reflexivity].
Qed.

(** Slides and guides: the channels come from one allocator per category, in
    the order of the groups, and every group is pushed on its channel. *)
Lemma push_groups_Ok segs tpb category groups maps maps' :
  push_groups segs tpb category groups maps = Ok maps' ->
  exists channels,
    allocate init (group_interval <$> groups) = Ok channels
    /\ length channels = length groups
    /\ push_all segs tpb (groups_pushes category groups channels) maps = Ok maps'.
Proof.
  unfold push_groups. intros H. apply bind_Ok in H.
  destruct H as ([cm' maps1] & H & [= <-]).
  revert H. generalize init. revert maps.
  induction groups as [| steps groups IH]; intros maps cm H.
  - injection H as _ <-. exists []. auto.
  - cbn [for_each] in H. apply bind_Ok in H.
    destruct H as ([cm1 maps2] & Hstep & H).
    apply group_step_Ok in Hstep. destruct Hstep as (channel & Hg & Hpush).
    destruct (IH _ _ H) as (channels & Hc & Hlen & Hrest).
    exists (channel :: channels). rewrite fmap_cons. cbn [allocate].
    destruct (group_interval steps) as [s e]. simpl in Hg. rewrite Hg.
    cbn [mbind result_bind]. rewrite Hc. cbn [mbind result_bind].
    split; [reflexivity |]. split; [simpl; now rewrite Hlen |].
    unfold groups_pushes. cbn [zip_with concat].
    rewrite push_all_app, Hpush. exact Hrest.
Qed.

Lemma note_maps_push_tags maps tag raw tpm :
  (note_maps_push maps tag raw tpm).*1
  = if decide (tag ∈ maps.*1) then maps.*1 else maps.*1 ++ [tag].
Proof.
  induction maps as [| [k nm] maps IH]; cbn [note_maps_push].
  - rewrite fmap_nil, decide_False by apply not_elem_of_nil. reflexivity.
  - destruct (String.eqb_spec k tag) as [-> | Hne]; rewrite !fmap_cons; cbn [fst].
    + rewrite decide_True by (apply elem_of_cons; now left). reflexivity.
    + rewrite IH. destruct (decide (tag ∈ maps.*1)) as [Hin | Hnin].
      * rewrite decide_True by (apply elem_of_cons; now right). reflexivity.
      * rewrite decide_False; [reflexivity |].
        intros Hin. apply elem_of_cons in Hin. destruct Hin; congruence.
Qed.

Lemma push_all_tags segs tpb pushes :
  forall maps maps',
    push_all segs tpb pushes maps = Ok maps' ->
    maps'.*1 = first_insertion maps.*1 (omap (push_tag segs tpb) pushes).
Proof.
  induction pushes as [| [[tick info] data] pushes IH]; intros maps maps' H.
  - injection H as <-. reflexivity.
  - rewrite push_all_cons in H. apply bind_Ok in H. destruct H as (maps1 & H1 & H).
    apply IH in H. rewrite H. clear H IH.
    rewrite push_raw_locate in H1. apply bind_Ok in H1.
    destruct H1 as (loc & Hloc & H1).
    cbn [omap list_omap]. unfold push_tag at 2. cbn [fst snd]. rewrite Hloc.
    destruct loc as [[[m o] tpm] |]; injection H1 as <-; [| reflexivity].
    unfold first_insertion. cbn [foldl]. now rewrite note_maps_push_tags.
Qed.

(** ** The lines of the document *)

Lemma request_loop_Ok (requests : list string) :
  forall lines tpb lines' tpb',
    for_each request_step requests (lines, tpb) = Ok (lines', tpb') ->
    lines' = lines ++ (RequestLine <$> requests)
    /\ tpb' = foldl request_override tpb requests.
Proof.
  induction requests as [| request requests IH]; intros lines tpb lines' tpb' H.
  - injection H as <- <-. now rewrite app_nil_r.
  - cbn [for_each] in H. apply bind_Ok in H. destruct H as ([lines1 tpb1] & Hstep & H).
    apply IH in H. destruct H as [-> ->].
    assert (Hst : lines1 = lines ++ [RequestLine request]
                  /\ tpb1 = request_override tpb request).
    { unfold request_step, request_override in *.
      destruct (String.prefix "ticks_per_beat" request).
      - destruct (split_ws request) as [| w0 [| token ws]]; try discriminate.
        simpl. destruct (parse_int token); [| discriminate].
        injection Hstep as <- <-. auto.
      - injection Hstep as <- <-. auto. }
    destruct Hst as [-> ->]. simpl. now rewrite <- app_assoc.
Qed.

Lemma metadata_loop_Ok (metadata : list meta_field) :
  forall lines tpb lines' tpb',
    for_each metadata_step metadata (lines, tpb) = Ok (lines', tpb') ->
    lines' = lines ++ metadata_lines metadata
    /\ tpb' = foldl field_ticks tpb metadata.
Proof.
  induction metadata as [| field metadata IH]; intros lines tpb lines' tpb' H.
  - injection H as <- <-. unfold metadata_lines. simpl. now rewrite app_nil_r.
  - cbn [for_each] in H. apply bind_Ok in H. destruct H as ([lines1 tpb1] & Hstep & H).
    apply IH in H. destruct H as [-> ->].
    assert (Hst : lines1 = lines ++ field_lines field /\ tpb1 = field_ticks tpb field).
    { destruct field as [name [attr |] | [requests |]]; simpl in Hstep.
      - injection Hstep as <- <-. auto.
      - injection Hstep as <- <-. simpl. now rewrite app_nil_r.
      - apply request_loop_Ok in Hstep. destruct Hstep as [-> ->].
        simpl. rewrite <- app_assoc. auto.
      - injection Hstep as <- <-. simpl. now rewrite app_nil_r. }
    destruct Hst as [-> ->]. unfold metadata_lines. simpl.
    now rewrite <- app_assoc.
Qed.

Lemma render_all_Ok (note_maps : list (string * note_map)) :
  forall lines lines',
    render_all note_maps lines = Ok lines' ->
    exists note_lines,
      lines' = lines ++ note_lines /\ Forall2 rendered note_maps note_lines.
Proof.
  unfold render_all.
  induction note_maps as [| [tag nm] note_maps IH]; intros lines lines' H.
  - injection H as <-. exists []. rewrite app_nil_r. split; [reflexivity | constructor].
  - cbn [for_each] in H. apply bind_Ok in H. destruct H as (lines1 & Hstep & H).
    apply bind_Ok in Hstep. destruct Hstep as (values & Hr & [= <-]).
    apply IH in H. destruct H as (note_lines & -> & Hall).
    exists (NoteLine tag values :: note_lines). split.
    + now rewrite <- app_assoc.
    + constructor; [| exact Hall]. exists values. auto.
Qed.

Lemma sort_groups_Ok groups sorted :
  sort_groups groups = Ok sorted -> sorted = sorted_by first_tick groups.
Proof.
  unfold sort_groups. destruct (forallb _ groups); [| discriminate].
  now intros [= <-].
Qed.

(** What a successful run of [dumps] went through, and the document it
    returns. *)
Lemma dumps_Ok_inv (score : Score) (comment : string) (doc : list line) :
  dumps score comment = Ok doc ->
  let tpb := active_ticks_per_beat (metadata score) in
  let table := table_from 0 (distinct_from [] (snd <$> sorted_by fst (bpms score))) in
  let segs := bar_lengths_in_ticks tpb (sorted_by fst (bar_lengths score)) in
  exists slide_channels guide_channels tl note_maps note_lines,
    Z.of_nat (length (bpms score)) < 36 ^ 2 - 1
    /\ allocate init (group_interval <$> sorted_by first_tick (slides score))
       = Ok slide_channels
    /\ allocate init (group_interval <$> sorted_by first_tick (guides score))
       = Ok guide_channels
    /\ til_list tpb (sorted_by fst (tils score)) = Ok tl
    /\ push_all segs tpb (all_pushes score slide_channels guide_channels) []
       = Ok note_maps
    /\ Forall2 rendered note_maps note_lines
    /\ doc = [Comment comment] ++ metadata_lines (metadata score) ++ [Blank]
             ++ bar_length_lines (sorted_by fst (bar_lengths score)) ++ [Blank]
             ++ bpm_definitions table ++ [Blank]
             ++ [TilLine tl; HiSpeedLine; MeasureHsLine] ++ [Blank]
             ++ note_lines ++ [Blank].
Proof.
  intros H tpb table segs. unfold dumps in H.
  apply bind_Ok in H. destruct H as ([lines1 tpb1] & Hmeta & H).
  apply metadata_loop_Ok in Hmeta. destruct Hmeta as [-> Htpb].
  change (foldl field_ticks 480 (metadata score)) with tpb in Htpb. subst tpb1.
  apply bind_Ok in H. destruct H as (sl & Hslides & H).
  apply bind_Ok in H. destruct H as (gd & Hguides & H).
  apply sort_groups_Ok in Hslides, Hguides. subst sl gd.
  apply bind_Ok in H. destruct H as ([] & Hguard & H).
  apply bind_Ok in H. destruct H as ([[lines2 ids] maps0] & Hbpm & H).
  change (@nil (Q * string)) with (table_from 0 []) in Hbpm.
  rewrite bpm_loop_from in Hbpm. simpl length in Hbpm.
  apply bind_Ok in Hbpm. destruct Hbpm as (maps0' & Hpush & [= <- <- <-]).
  apply bind_Ok in H. destruct H as (tl & Htil & H).
  apply bind_Ok in H. destruct H as (maps1 & Htaps & H).
  apply bind_Ok in H. destruct H as (maps2 & Hdirs & H).
  apply bind_Ok in H. destruct H as (maps3 & Hsl & H).
  apply bind_Ok in H. destruct H as (maps4 & Hgd & H).
  apply bind_Ok in H. destruct H as (lines3 & Hrender & [= <-]).
  apply render_all_Ok in Hrender. destruct Hrender as (note_lines & -> & Hall).
  rewrite push_notes_push_all in Htaps, Hdirs.
  apply push_groups_Ok in Hsl. destruct Hsl as (slide_channels & Hsc & _ & Hsl).
  apply push_groups_Ok in Hgd. destruct Hgd as (guide_channels & Hgc & _ & Hgd).
  exists slide_channels, guide_channels, tl, maps4, note_lines.
  split.
  { unfold bpm_guard in Hguard. rewrite sorted_by_length in Hguard.
    destruct (Z.leb_spec (36 ^ 2 - 1) (Z.of_nat (length (bpms score))));
      [discriminate | assumption]. }
  split; [exact Hsc |]. split; [exact Hgc |]. split; [exact Htil |].
  split.
  { cbn [app] in Hpush. unfold all_pushes.
    fold segs in Hpush, Htaps, Hdirs, Hsl, Hgd.
    rewrite push_all_app, Hpush. cbn [mbind result_bind].
    rewrite push_all_app, Htaps. cbn [mbind result_bind].
    rewrite push_all_app, Hdirs. cbn [mbind result_bind].
    rewrite push_all_app, Hsl. exact Hgd. }
  split; [exact Hall |].
  unfold bar_length_lines. cbn [app].
  repeat (rewrite <- app_assoc; cbn [app]). reflexivity.
Qed.

(** C7, as stated, fails: when the metadata has requests, a blank line stands
    between the directives before them and the request directives. *)
Lemma blank_line_before_requests :
  dumps request_score "c"
  = Ok [Comment "c"; MetaLine "title" (MStr "t"); Blank;
        RequestLine "ticks_per_beat 480"; Blank;
        BarLengthLine 0 (4 # 1)%Q; Blank; Blank;
        TilLine []; HiSpeedLine; MeasureHsLine; Blank;
        NoteLine "00012" ["11"]; Blank]
  /\ ~ fixed_section_order request_score "c"
         [Comment "c"; MetaLine "title" (MStr "t"); Blank;
          RequestLine "ticks_per_beat 480"; Blank;
          BarLengthLine 0 (4 # 1)%Q; Blank; Blank;
          TilLine []; HiSpeedLine; MeasureHsLine; Blank;
          NoteLine "00012" ["11"]; Blank].
Proof.
  split; [reflexivity |].
  intros (bpm_lines & tl & note_lines & _ & _ & Heq).
  simpl in Heq. discriminate Heq.
Qed.

(** C7 (amended): a document that [dumps] returns is, in this order and with
    nothing else: the header comment; the metadata lines, one directive per
    present field and, for the requests, a blank line followed by one
    directive per request; a blank line; the bar-length directives sorted by
    measure; a blank line; one BPM definition per distinct tempo value; a
    blank line; the timescale line and the two stub lines; a blank line; one
    rendered note line per tag, in the order in which the tags were first
    pushed to (BPM references, taps, directionals, slide steps, guide steps,
    each slide and guide on the channel its allocator gave it); a blank line.
    The ticks per beat used for the segments, the timescale line and every
    push is the one left by the last override request. *)
Theorem dumps_section_order :
  forall (score : Score) (comment : string) (doc : list line),
    dumps score comment = Ok doc ->
    let tpb := active_ticks_per_beat (metadata score) in
    let table := table_from 0 (distinct_from [] (snd <$> sorted_by fst (bpms score))) in
    let segs := bar_lengths_in_ticks tpb (sorted_by fst (bar_lengths score)) in
    exists slide_channels guide_channels tl note_maps note_lines,
      doc = [Comment comment] ++ metadata_lines (metadata score) ++ [Blank]
            ++ bar_length_lines (sorted_by fst (bar_lengths score)) ++ [Blank]
            ++ bpm_definitions table ++ [Blank]
            ++ [TilLine tl; HiSpeedLine; MeasureHsLine] ++ [Blank]
            ++ note_lines ++ [Blank]
      /\ StronglySorted (key_le fst) (sorted_by fst (bar_lengths score))
      /\ til_list tpb (sorted_by fst (tils score)) = Ok tl
      /\ allocate init (group_interval <$> sorted_by first_tick (slides score))
         = Ok slide_channels
      /\ allocate init (group_interval <$> sorted_by first_tick (guides score))
         = Ok guide_channels
      /\ push_all segs tpb (all_pushes score slide_channels guide_channels) []
         = Ok note_maps
      /\ note_maps.*1
         = first_insertion []
             (omap (push_tag segs tpb)
                   (all_pushes score slide_channels guide_channels))
      /\ Forall2 rendered note_maps note_lines.
Proof.
  intros score comment doc H tpb table segs.
  destruct (dumps_Ok_inv score comment doc H)
    as (slide_channels & guide_channels & tl & note_maps & note_lines
        & _ & Hsc & Hgc & Htil & Hpush & Hall & ->).
  exists slide_channels, guide_channels, tl, note_maps, note_lines.
  split; [reflexivity |].
  split; [apply sorted_by_sorted |].
  repeat (split; [assumption |]).
  split; [| exact Hall].
  apply (push_all_tags _ _ _ [] _ Hpush).
Qed.

Lemma dumps_section_order_witness :
  exists tl note_lines,
    [Comment "c"; MetaLine "title" (MStr "t"); Blank;
     RequestLine "ticks_per_beat 480"; Blank;
     BarLengthLine 0 (4 # 1)%Q; Blank; Blank;
     TilLine []; HiSpeedLine; MeasureHsLine; Blank;
     NoteLine "00012" ["11"]; Blank]
    = [Comment "c"] ++ metadata_lines (metadata request_score) ++ [Blank]
      ++ bar_length_lines (sorted_by fst (bar_lengths request_score)) ++ [Blank]
      ++ bpm_definitions
           (table_from 0
              (distinct_from [] (snd <$> sorted_by fst (bpms request_score))))
      ++ [Blank]
      ++ [TilLine tl; HiSpeedLine; MeasureHsLine] ++ [Blank]
      ++ note_lines ++ [Blank].
Proof.
  destruct (dumps_section_order request_score "c" _ eq_refl)
    as (slide_channels & guide_channels & tl & note_maps & note_lines & Hdoc & _).
  exists tl, note_lines. exact Hdoc.
Defined.

(** ** Which step fails with which exception *)

Lemma for_each_Err {A S : Type} (P : error -> Prop) (body : S -> A -> result S)
    (xs : list A) :
  (forall st x e, body st x = Err e -> P e) ->
  forall st e, for_each body xs st = Err e -> P e.
Proof.
  intros Hbody. induction xs as [| x xs IH]; intros st e H; [discriminate |].
  cbn [for_each] in H. apply bind_Err in H.
  destruct H as [H | (st' & _ & H)]; [apply (Hbody _ _ _ H) | apply (IH _ _ H)].
Qed.

Lemma push_raw_Err segs tpb maps tick info data e :
  push_raw segs tpb maps tick info data = Err e -> e = ZeroDivisionError.
Proof.
  unfold push_raw. destruct (List.find _ segs); [| discriminate].
  destruct (tpb =? 0); [congruence |].
  destruct (Qeq_bool _ 0); [congruence | discriminate].
Qed.

Lemma request_step_Err st request e :
  request_step st request = Err e -> not_bpm_error e.
Proof.
  unfold request_step. destruct st as [lines tpb].
  destruct (String.prefix _ request); [| discriminate].
  destruct (split_ws request) as [| w0 [| token ws]];
    try (intros [= <-]; discriminate).
  destruct (parse_int token); [discriminate | intros [= <-]; discriminate].
Qed.

Lemma metadata_step_Err st field e :
  metadata_step st field = Err e -> not_bpm_error e.
Proof.
  destruct st as [lines tpb].
  destruct field as [name [attr |] | [requests |]]; simpl; try discriminate.
  apply for_each_Err. apply request_step_Err.
Qed.

Lemma sort_groups_Err groups e :
  sort_groups groups = Err e -> not_bpm_error e.
Proof.
  unfold sort_groups. destruct (forallb _ groups); [discriminate |].
  intros [= <-]. discriminate.
Qed.

Lemma bpm_step_Err segs tpb st bpm e :
  bpm_step segs tpb st bpm = Err e -> not_bpm_error e.
Proof.
  destruct st as [[lines ids] maps], bpm as [tick v]. unfold bpm_step.
  destruct (bpm_get ids v); intros H; apply bind_Err in H;
    destruct H as [H | (maps' & _ & H)]; try discriminate;
    apply push_raw_Err in H; subst; discriminate.
Qed.

Lemma til_list_Err tpb tils e :
  til_list tpb tils = Err e -> not_bpm_error e.
Proof.
  unfold til_list. destruct tils; [discriminate |].
  destruct (tpb * 4 =? 0); [intros [= <-]; discriminate | discriminate].
Qed.

Lemma push_notes_Err segs tpb category notes maps e :
  push_notes segs tpb category notes maps = Err e -> not_bpm_error e.
Proof.
  unfold push_notes. apply for_each_Err.
  intros st x e' H. apply push_raw_Err in H. subst. discriminate.
Qed.

Lemma group_step_Err segs tpb category st steps e :
  group_step segs tpb category st steps = Err e -> not_bpm_error e.
Proof.
  destruct st as [cm maps]. unfold group_step.
  destruct steps as [| first steps]; [intros [= <-]; discriminate |].
  intros H. apply bind_Err in H. destruct H as [H | ([channel cm'] & _ & H)].
  - apply generate_channel_Err in H. destruct H as [-> _]. discriminate.
  - apply bind_Err in H. destruct H as [H | (maps' & _ & H)]; [| discriminate].
    revert H. apply for_each_Err.
    intros st x e' H. apply push_raw_Err in H. subst. discriminate.
Qed.

Lemma push_groups_Err segs tpb category groups maps e :
  push_groups segs tpb category groups maps = Err e -> not_bpm_error e.
Proof.
  unfold push_groups. intros H. apply bind_Err in H.
  destruct H as [H | ([cm maps'] & _ & H)]; [| discriminate].
  revert H. apply for_each_Err. intros st x e'. apply group_step_Err.
Qed.

Lemma render_all_Err maps lines e :
  render_all maps lines = Err e -> not_bpm_error e.
Proof.
  unfold render_all. apply for_each_Err.
  intros st [tag nm] e' H. apply bind_Err in H.
  destruct H as [H | (values & _ & H)]; [| discriminate].
  unfold render_note_map in H.
  destruct (raws nm), (ticks_per_measure nm =? 0); try discriminate;
    injection H as <-; discriminate.
Qed.

(** C5, as stated, fails: 1295 tempo changes that all carry the same value
    have one distinct value, and [dumps] fails at the guard. *)
Lemma one_tempo_repeated_1295_times :
  let score :=
    mkScore [] [(0, (4 # 1)%Q)] (replicate 1295 (0, (120 # 1)%Q)) [] [] [] [] [] in
  distinct_from [] (snd <$> sorted_by fst (bpms score)) = [(120 # 1)%Q]
  /\ Z.of_nat (length (distinct_from [] (snd <$> sorted_by fst (bpms score))))
     <= 36 ^ 2 - 1
  /\ dumps score "c" = Err TooManyBpms.
Proof.
  intros score.
  assert (Hd : distinct_from [] (snd <$> sorted_by fst (bpms score)) = [(120 # 1)%Q])
    by (vm_compute; reflexivity).
  split; [exact Hd |]. split; [rewrite Hd; simpl; lia |].
  vm_compute. reflexivity.
Qed.

(** C5 (amended): [dumps] fails at the guard of line 137 exactly when the
    tempo-change list has at least [36^2 - 1 = 1295] entries, repeated values
    counted, provided the steps before the guard (the metadata requests, the
    sorting of the slide and guide groups) did not fail; a list of fewer
    entries never triggers this failure. *)
Theorem too_many_bpms_iff_1295_entries :
  forall (score : Score) (comment : string),
    dumps score comment = Err TooManyBpms <->
    (exists st,
        for_each metadata_step (metadata score) ([Comment comment], 480) = Ok st)
    /\ (exists sl, sort_groups (slides score) = Ok sl)
    /\ (exists gd, sort_groups (guides score) = Ok gd)
    /\ 36 ^ 2 - 1 <= Z.of_nat (length (bpms score)).
Proof.
  intros score comment. unfold dumps. split.
  - intros H.
    apply bind_Err in H. destruct H as [H | ([lines1 tpb] & Hmeta & H)].
    { exfalso. apply (for_each_Err not_bpm_error) in H; [now apply H |].
      intros st x e. apply metadata_step_Err. }
    apply bind_Err in H. destruct H as [H | (sl & Hsl & H)].
    { exfalso. apply sort_groups_Err in H. now apply H. }
    apply bind_Err in H. destruct H as [H | (gd & Hgd & H)].
    { exfalso. apply sort_groups_Err in H. now apply H. }
    split; [eauto |]. split; [eauto |]. split; [eauto |].
    apply bind_Err in H. destruct H as [H | ([] & Hguard & H)].
    { unfold bpm_guard in H. rewrite sorted_by_length in H.
      destruct (Z.leb_spec (36 ^ 2 - 1) (Z.of_nat (length (bpms score))));
        [assumption | discriminate]. }
    exfalso.
    apply bind_Err in H. destruct H as [H | ([[lines2 ids] maps0] & _ & H)].
    { apply (for_each_Err not_bpm_error) in H; [now apply H |].
      intros st x e. apply bpm_step_Err. }
    apply bind_Err in H. destruct H as [H | (tl & _ & H)].
    { apply til_list_Err in H. now apply H. }
    apply bind_Err in H. destruct H as [H | (maps1 & _ & H)].
    { apply push_notes_Err in H. now apply H. }
    apply bind_Err in H. destruct H as [H | (maps2 & _ & H)].
    { apply push_notes_Err in H. now apply H. }
    apply bind_Err in H. destruct H as [H | (maps3 & _ & H)].
    { apply push_groups_Err in H. now apply H. }
    apply bind_Err in H. destruct H as [H | (maps4 & _ & H)].
    { apply push_groups_Err in H. now apply H. }
    apply bind_Err in H. destruct H as [H | (lines3 & _ & H)]; [| discriminate].
    apply render_all_Err in H. now apply H.
  - intros ([[lines1 tpb] Hmeta] & [sl Hsl] & [gd Hgd] & Hlen).
    rewrite Hmeta. cbn [mbind result_bind]. rewrite Hsl, Hgd. cbn [mbind result_bind].
    unfold bpm_guard. rewrite sorted_by_length.
    destruct (Z.leb_spec (36 ^ 2 - 1) (Z.of_nat (length (bpms score))));
      [reflexivity | lia].
Qed.

(** ** Bar lengths are not validated *)

Lemma push_all_no_segments tpb pushes maps :
  push_all [] tpb pushes maps = Ok maps.
Proof.
  induction pushes as [| [[tick info] data] pushes IH]; [reflexivity |].
  rewrite push_all_cons. exact IH.
Qed.

Lemma push_notes_no_segments tpb category notes maps :
  push_notes [] tpb category notes maps = Ok maps.
Proof.
  unfold push_notes. induction notes as [| note notes IH]; [reflexivity |].
  cbn [for_each]. exact IH.
Qed.

Lemma metadata_lines_no_note (metadata : list meta_field) :
  Forall (fun l => ~ is_note_line l) (metadata_lines metadata).
Proof.
  unfold metadata_lines. induction metadata as [| field metadata IH]; simpl;
    [constructor |].
  apply Forall_app. split; [| exact IH].
  destruct field as [name [attr |] | [requests |]]; simpl; repeat constructor; auto.
  apply Forall_fmap, Forall_forall. intros request _. simpl. auto.
Qed.

(** C3, as stated, fails: without bar lengths the document is returned, the
    note dropped; with a table starting at measure 1 the document is
    returned, the note of tick 0 in measure 1. *)
Lemma invalid_bar_lengths_are_serialized :
  dumps (mkScore [] [] [] [mkNote 0 2 1 1] [] [] [] []) "c"
  = Ok [Comment "c"; Blank; Blank; Blank;
        TilLine []; HiSpeedLine; MeasureHsLine; Blank; Blank]
  /\ dumps (mkScore [] [(1, (4 # 1)%Q)] [] [mkNote 0 2 1 1] [] [] [] []) "c"
     = Ok [Comment "c"; Blank; BarLengthLine 1 (4 # 1)%Q; Blank; Blank;
           TilLine []; HiSpeedLine; MeasureHsLine; Blank;
           NoteLine "00112" ["11"]; Blank]
  /\ ~ rejects_invalid_bar_lengths.
Proof.
  split; [reflexivity |]. split; [reflexivity |].
  intros Hspec.
  destruct (Hspec (mkScore [] [] [] [mkNote 0 2 1 1] [] [] [] []) "c"
              ltac:(left; reflexivity)) as [e He].
  discriminate He.
Qed.

(** C3 (amended): [dumps] does not validate the bar-length table.  With an
    empty table every push is dropped without error, a returned document has
    no note line, and a score of taps, directionals and fewer than 1295 tempo
    changes whose metadata is processed without error is serialized.  With a
    table whose first entry is at any measure [m], the first segment starts
    at tick 0 in measure [m] and every tick [>= 0] is taken by a segment. *)
Theorem bar_lengths_are_not_validated :
  forall (score : Score) (comment : string),
    (bar_lengths score = [] ->
     (forall tpb maps tick info data,
         push_raw (bar_lengths_in_ticks tpb (sorted_by fst (bar_lengths score)))
                  tpb maps tick info data
         = Ok maps)
     /\ (forall doc,
            dumps score comment = Ok doc -> Forall (fun l => ~ is_note_line l) doc)
     /\ (slides score = [] -> guides score = [] -> tils score = [] ->
         (exists st,
             for_each metadata_step (metadata score) ([Comment comment], 480) = Ok st) ->
         Z.of_nat (length (bpms score)) < 36 ^ 2 - 1 ->
         exists doc, dumps score comment = Ok doc))
    /\ (forall m v rest tpb T,
           sorted_by fst (bar_lengths score) = (m, v) :: rest ->
           0 <= T ->
           In (mkBarLength 0 m v)
              (bar_lengths_in_ticks tpb (sorted_by fst (bar_lengths score)))
           /\ exists seg,
                List.find (fun b => start_tick b <=? T)
                          (bar_lengths_in_ticks tpb (sorted_by fst (bar_lengths score)))
                = Some seg).
Proof.
  intros score comment. split.
  - intros Hbl. rewrite Hbl. cbn [sorted_by].
    change (bar_lengths_in_ticks ?t []) with (@nil BarLength).
    split; [reflexivity |]. split.
    + intros doc H. apply dumps_Ok_inv in H.
      destruct H as (slide_channels & guide_channels & tl & note_maps & note_lines
                     & _ & _ & _ & _ & Hpush & Hall & ->).
      rewrite Hbl in *. cbn [sorted_by] in *.
      change (bar_lengths_in_ticks ?t []) with (@nil BarLength) in *.
      rewrite push_all_no_segments in Hpush. injection Hpush as <-.
      inversion Hall; subst.
      repeat (apply Forall_app; split); repeat constructor; simpl; auto.
      * apply metadata_lines_no_note.
      * unfold bpm_definitions. apply Forall_fmap, Forall_forall.
        intros [v identifier] _. simpl. auto.
    + intros Hsl Hgd Htils ([lines1 tpb] & Hmeta) Hlen.
      unfold dumps. rewrite Hmeta, Hbl, Hsl, Hgd, Htils.
      cbn [mbind result_bind sort_groups forallb sorted_by].
      change (bar_lengths_in_ticks ?t []) with (@nil BarLength).
      unfold bpm_guard. rewrite sorted_by_length.
      destruct (Z.leb_spec (36 ^ 2 - 1) (Z.of_nat (length (bpms score)))); [lia |].
      cbn [mbind result_bind].
      change (@nil (Q * string)) with (table_from 0 []).
      rewrite bpm_loop_from, push_all_no_segments.
      cbn [mbind result_bind til_list].
      rewrite push_notes_no_segments. cbn [mbind result_bind].
      rewrite push_notes_no_segments. cbn [mbind result_bind].
      eexists. reflexivity.
  - intros m v rest tpb T Hfirst HT. rewrite Hfirst.
    unfold bar_lengths_in_ticks. cbn [bar_lengths_loop rev].
    split; [apply in_or_app; right; now left |].
    rewrite find_app.
    destruct (List.find _ (rev _)) as [seg |]; [eauto |].
    exists (mkBarLength 0 m v). simpl.
    destruct (Z.leb_spec 0 T); [reflexivity | lia].
Qed.

Lemma bar_lengths_are_not_validated_witness :
  exists doc,
    dumps (mkScore [] [] [(0, (120 # 1)%Q)] [mkNote 0 2 1 1] [] [] [] []) "c" = Ok doc.
Proof.
  exact (proj2 (proj2 (proj1 (bar_lengths_are_not_validated
                  (mkScore [] [] [(0, (120 # 1)%Q)] [mkNote 0 2 1 1] [] [] [] []) "c")
               eq_refl))
           eq_refl eq_refl eq_refl
           (ex_intro _ ([Comment "c"], 480) eq_refl) eq_refl).
Defined.

(** ** End to end

    One bar length [(0, 4.0)] and one tap at tick 0, lane 2, width 1, type 1.
    No float with a fractional part is printed, so [str] of such a float is
    not exercised. *)
Example dumps_text_single_tap :
  dumps_text (fun _ => EmptyString)
             (mkScore [] [(0, (4 # 1)%Q)] [] [mkNote 0 2 1 1] [] [] [] []) "c" false
  = Ok (String.concat (String (ascii_of_nat 10) EmptyString)
          ["c"; EmptyString; "#00002:4"; EmptyString; EmptyString;
           "#TIL00: " +:+ dquote +:+ dquote; "#HISPEED 00"; "#MEASUREHS 00";
           EmptyString; "#00012:11"; EmptyString]).
Proof. reflexivity. Qed.

(** Two slides that overlap in time get the channels 0 and 1; two tempo
    changes of equal value share the identifier ["01"]. *)
Example dumps_slides_and_tempo :
  dumps (mkScore [] [(0, (4 # 1)%Q)]
                 [(0, (120 # 1)%Q); (1920, (150 # 1)%Q); (3840, (120 # 1)%Q)]
                 [mkNote 2160 4 3 1] []
                 [[mkNote 0 2 3 1; mkNote 960 2 3 2];
                  [mkNote 480 5 3 1; mkNote 1440 5 3 2]]
                 [] [])
        "c"
  = Ok [Comment "c"; Blank; BarLengthLine 0 (4 # 1)%Q; Blank;
        BpmLine "01" (120 # 1)%Q; BpmLine "02" (150 # 1)%Q; Blank;
        TilLine []; HiSpeedLine; MeasureHsLine; Blank;
        NoteLine "00008" ["01"]; NoteLine "00108" ["02"]; NoteLine "00208" ["01"];
        NoteLine "00114" ["00"; "13"; "00"; "00"; "00"; "00"; "00"; "00"];
        NoteLine "000320" ["13"; "23"];
        NoteLine "000351" ["00"; "13"; "00"; "23"]; Blank].
Proof. reflexivity. Qed.

(** * Further properties *)

(** ** The channel pool *)

Lemma base36_single_digit (c : nat) :
  (c < 36)%nat -> String.length (base36_dumps (Z.of_nat c)) = 1%nat.
Proof.
  intros Hc. do 36 (destruct c as [| c]; [reflexivity |]). lia.
Qed.

(** X1: on a map of 36 entries [generate_channel] returns a channel in
    [0, 36), whose base-36 form is one character; the map keeps its 36
    entries, the returned channel is bound to the request and no other
    binding changes. *)
Theorem generate_channel_stays_in_pool :
  forall (m : list (Z * Z)) (s e c : Z) (m' : list (Z * Z)),
    length m = 36%nat ->
    generate_channel m s e = Ok (c, m') ->
    0 <= c < 36
    /\ String.length (base36_dumps c) = 1%nat
    /\ length m' = 36%nat
    /\ m' !! Z.to_nat c = Some (s, e)
    /\ forall k, k <> Z.to_nat c -> m' !! k = m !! k.
Proof.
  intros m s e c m' Hlen H. apply generate_channel_Ok in H.
  destruct H as (key & b & -> & -> & Hl & _).
  assert (Hkey : (key < 36)%nat) by (rewrite <- Hlen; eapply lookup_lt_Some; eauto).
  split; [lia |]. split; [apply base36_single_digit; exact Hkey |].
  split; [now rewrite length_insert |].
  rewrite Nat2Z.id. split.
  - apply list_lookup_insert_eq. lia.
  - intros k Hk. apply list_lookup_insert_ne. congruence.
Qed.

Lemma generate_channel_stays_in_pool_witness :
  0 <= 1 < 36
  /\ String.length (base36_dumps 1) = 1%nat
  /\ length (<[1%nat := (5, 9)]> (<[0%nat := (1, 10)]> init)) = 36%nat
  /\ <[1%nat := (5, 9)]> (<[0%nat := (1, 10)]> init) !! Z.to_nat 1 = Some (5, 9)
  /\ forall k, k <> Z.to_nat 1 ->
               <[1%nat := (5, 9)]> (<[0%nat := (1, 10)]> init) !! k
               = <[0%nat := (1, 10)]> init !! k.
Proof.
  exact (generate_channel_stays_in_pool (<[0%nat := (1, 10)]> init) 5 9 1 _
           eq_refl eq_refl).
Defined.

Lemma count_free_insert (m : list (Z * Z)) (key : nat) (x : Z * Z) :
  (count_free m <= S (count_free (<[key := x]> m)))%nat.
Proof.
  unfold count_free. revert key. induction m as [| b m IH]; intros key; simpl; [lia |].
  destruct key as [| key]; simpl.
  - rewrite !filter_cons. repeat case_decide; simpl; lia.
  - rewrite !filter_cons. specialize (IH key). case_decide; simpl; lia.
Qed.

Lemma count_free_scan (m : list (Z * Z)) (s e : Z) :
  forall k0, (0 < count_free m)%nat -> exists key, scan m k0 s e = Some key.
Proof.
  unfold count_free. induction m as [| b m IH]; intros k0 H; simpl in *; [lia |].
  rewrite filter_cons in H.
  destruct (free_for s e b) eqn:Hf; [eauto |].
  apply free_for_false in Hf. destruct Hf as [Hne _].
  rewrite decide_False in H by exact Hne. apply IH. exact H.
Qed.

Lemma allocate_within_pool (intervals : list (Z * Z)) :
  forall m, (length intervals <= count_free m)%nat ->
            exists channels, allocate m intervals = Ok channels.
Proof.
  induction intervals as [| [s e] rest IH]; intros m Hlen.
  - exists []. reflexivity.
  - simpl in Hlen. cbn [allocate]. unfold generate_channel.
    destruct (count_free_scan m s e 0%nat ltac:(lia)) as [key ->].
    cbn [mbind result_bind].
    pose proof (count_free_insert m key (s, e)).
    destruct (IH (<[key := (s, e)]> m) ltac:(lia)) as [channels ->].
    eexists. reflexivity.
Qed.

(** X2: a fresh allocator serves any 36 groups or fewer, whatever their
    intervals: exhaustion needs a 37th group. *)
Theorem allocate_36_groups_never_fails :
  forall intervals : list (Z * Z),
    (length intervals <= 36)%nat ->
    exists channels,
      allocate init intervals = Ok channels /\ length channels = length intervals.
Proof.
  intros intervals Hlen.
  destruct (allocate_within_pool intervals init Hlen) as [channels H].
  exists channels. split; [exact H |].
  clear Hlen. revert H. generalize init. revert channels.
  induction intervals as [| [s e] rest IH]; intros channels m H.
  - injection H as <-. reflexivity.
  - cbn [allocate] in H. apply bind_Ok in H. destruct H as ([c m1] & _ & H).
    apply bind_Ok in H. destruct H as (cs & Hcs & [= <-]).
    simpl. f_equal. eauto.
Qed.

Lemma allocate_36_groups_never_fails_witness :
  exists channels,
    allocate init [(0, 10); (5, 8); (9, 20)] = Ok channels
    /\ length channels = 3%nat.
Proof.
  apply (allocate_36_groups_never_fails [(0, 10); (5, 8); (9, 20)]). simpl. lia.
Defined.

Lemma allocate_one_after_another (intervals : list (Z * Z)) :
  forall (b0 : Z * Z) (rest : list (Z * Z)),
    match intervals with
    | q :: _ => b0 = (0, 0) \/ snd b0 < fst q
    | [] => True
    end ->
    one_after_another intervals ->
    allocate (b0 :: rest) intervals = Ok (replicate (length intervals) 0).
Proof.
  induction intervals as [| [s e] more IH]; intros b0 rest Hhead Hchain.
  - reflexivity.
  - cbn [allocate]. unfold generate_channel. cbn [scan].
    assert (Hfree : free_for s e b0 = true).
    { apply free_for_spec. destruct Hhead as [-> | Hlt]; [now left | right].
      unfold overlap. simpl in *. lia. }
    rewrite Hfree. cbn [mbind result_bind]. simpl insert.
    rewrite (IH (s, e) rest).
    + reflexivity.
    + destruct more as [| q more']; [exact I |]. right. simpl in *. tauto.
    + destruct more as [| q more']; [exact I |]. simpl in *. tauto.
Qed.

(** X3: groups that follow one another in time, each ending before the next
    one starts, all get channel 0 of a fresh allocator. *)
Theorem groups_one_after_another_share_channel_0 :
  forall intervals : list (Z * Z),
    one_after_another intervals ->
    allocate init intervals = Ok (replicate (length intervals) 0).
Proof.
  intros intervals Hchain.
  apply (allocate_one_after_another intervals (0, 0) (replicate 35 (0, 0)));
    [| exact Hchain].
  destruct intervals; [exact I | now left].
Qed.

Lemma groups_one_after_another_share_channel_0_witness :
  allocate init [(0, 960); (1920, 2400); (2880, 2880)] = Ok [0; 0; 0].
Proof.
  apply (groups_one_after_another_share_channel_0
           [(0, 960); (1920, 2400); (2880, 2880)]).
  simpl. lia.
Defined.

(** ** Identifiers and tags *)

Lemma nodupb_NoDup (l : list string) : nodupb l = true -> NoDup l.
Proof.
  induction l as [| x l IH]; simpl; [constructor |].
  intros H. apply andb_true_iff in H. destruct H as [Hx Hl].
  constructor; [| apply IH; exact Hl].
  intros Hin. apply negb_true_iff in Hx.
  assert (Ht : existsb (String.eqb x) l = true).
  { apply existsb_exists. exists x. split; [apply list_elem_of_In; exact Hin |].
    apply String.eqb_refl. }
  congruence.
Qed.

Lemma identifiers_checked :
  nodupb (identifier_of <$> seq 0 1295) = true
  /\ forallb (fun s => Nat.eqb (String.length s) 2) (identifier_of <$> seq 0 1295) = true.
Proof. split; vm_compute; reflexivity. Qed.

Lemma identifier_of_two_chars (k : nat) :
  (k < 1295)%nat -> String.length (identifier_of k) = 2%nat.
Proof.
  intros Hk. destruct identifiers_checked as [_ Hlen].
  rewrite forallb_forall in Hlen. apply Nat.eqb_eq. apply Hlen.
  apply list_elem_of_In, list_elem_of_fmap. exists k. split; [reflexivity |].
  apply elem_of_seq. lia.
Qed.

Lemma identifier_of_injective (j k : nat) :
  (j < 1295)%nat -> (k < 1295)%nat -> identifier_of j = identifier_of k -> j = k.
Proof.
  intros Hj Hk Heq. destruct identifiers_checked as [Hnd _].
  apply nodupb_NoDup in Hnd.
  apply (NoDup_lookup _ j k (identifier_of j) Hnd).
  - rewrite list_lookup_fmap, lookup_seq_lt by exact Hj. reflexivity.
  - rewrite list_lookup_fmap, lookup_seq_lt by exact Hk. simpl. now rewrite Heq.
Qed.

Lemma distinct_from_length (values : list Q) :
  forall seen, (length (distinct_from seen values) <= length values)%nat.
Proof.
  induction values as [| v values IH]; intros seen; simpl; [lia |].
  destruct (existsb _ seen); simpl; [specialize (IH seen) | specialize (IH (seen ++ [v]))];
    lia.
Qed.

Lemma table_from_identifiers (keys : list Q) :
  forall n, (table_from n keys).*2 = identifier_of <$> seq n (length keys).
Proof.
  induction keys as [| k keys IH]; intros n; simpl; [reflexivity |].
  now rewrite IH.
Qed.

(** X4: when the guard of line 137 lets the tempo changes through (fewer than
    1295 of them), the identifier table maps pairwise different tempo values
    to pairwise different identifiers of exactly two characters. *)
Theorem bpm_table_is_one_to_one :
  forall bpms : list (Z * Q),
    Z.of_nat (length bpms) < 36 ^ 2 - 1 ->
    let table := table_from 0 (distinct_from [] (snd <$> sorted_by fst bpms)) in
    NoDup table.*2
    /\ Forall (fun identifier => String.length identifier = 2%nat) table.*2
    /\ forall i j v w a b,
         i <> j -> table !! i = Some (v, a) -> table !! j = Some (w, b) ->
         ~ (v == w)%Q /\ a <> b.
Proof.
  intros bpms Hlen table.
  set (keys := distinct_from [] (snd <$> sorted_by fst bpms)) in *.
  assert (Hkeys : (length keys < 1295)%nat).
  { pose proof (distinct_from_length (snd <$> sorted_by fst bpms) []) as H.
    rewrite length_fmap, sorted_by_length in H. fold keys in H.
    change (36 ^ 2 - 1) with 1295 in Hlen. lia. }
  assert (Hids : table.*2 = identifier_of <$> seq 0 (length keys))
    by apply table_from_identifiers.
  assert (Hlook : forall i v a, table !! i = Some (v, a) ->
                                keys !! i = Some v /\ a = identifier_of i /\ (i < 1295)%nat).
  { intros i v a Hi.
    assert (Hlt : (i < length keys)%nat).
    { apply lookup_lt_Some in Hi. unfold table in Hi.
      now rewrite table_from_length in Hi. }
    destruct (lookup_lt_is_Some_2 keys i Hlt) as [v' Hv'].
    pose proof (table_from_lookup keys i v' 0%nat Hv') as Ht.
    fold table in Ht. rewrite Hi in Ht. injection Ht as -> ->.
    split; [exact Hv' |]. split; [reflexivity | lia]. }
  split.
  { rewrite Hids. apply NoDup_fmap_2_strong; [| apply NoDup_seq].
    intros j k Hj Hk. apply elem_of_seq in Hj, Hk.
    apply identifier_of_injective; lia. }
  split.
  { rewrite Hids. apply Forall_fmap, Forall_forall. intros k Hk.
    apply elem_of_seq in Hk. simpl. apply identifier_of_two_chars. lia. }
  intros i j v w a b Hij Hi Hj.
  destruct (Hlook _ _ _ Hi) as (Hvi & -> & Hi').
  destruct (Hlook _ _ _ Hj) as (Hwj & -> & Hj').
  split.
  - assert (Hord : forall i j v w, (i < j)%nat -> keys !! i = Some v ->
                                   keys !! j = Some w -> ~ (v == w)%Q).
    { intros i0 j0 v0 w0 Hlt Hv0 Hw0 Heq.
      pose proof (distinct_from_fresh _ [] j0 w0 Hw0) as Hfresh. simpl in Hfresh.
      pose proof (existsb_take_false _ _ _ _ _ Hfresh Hlt Hv0) as Hne.
      apply Qeq_bool_iff in Heq. congruence. }
    destruct (Nat.lt_trichotomy i j) as [Hlt | [Heq | Hgt]]; [| contradiction |].
    + apply (Hord i j v w Hlt Hvi Hwj).
    + intros Heq. symmetry in Heq. revert Heq. apply (Hord j i w v Hgt Hwj Hvi).
  - intros Heq. apply identifier_of_injective in Heq; [contradiction | lia | lia].
Qed.

Lemma bpm_table_is_one_to_one_witness :
  let bpms := [(1920, (150 # 1)%Q); (0, (120 # 1)%Q); (3840, (120 # 1)%Q)] in
  NoDup (table_from 0 (distinct_from [] (snd <$> sorted_by fst bpms))).*2.
Proof.
  intros bpms.
  exact (proj1 (bpm_table_is_one_to_one bpms eq_refl)).
Defined.

Lemma first_insertion_NoDup (new : list string) :
  forall tags, NoDup tags -> NoDup (first_insertion tags new).
Proof.
  unfold first_insertion.
  induction new as [| tag new IH]; intros tags Hnd; simpl; [exact Hnd |].
  apply IH. case_decide as Hin; [exact Hnd |].
  apply NoDup_app. split; [exact Hnd |]. split.
  - intros x Hx Hx'. apply list_elem_of_singleton in Hx'. subst. contradiction.
  - apply NoDup_singleton.
Qed.

Lemma rendered_tags maps note_lines :
  Forall2 rendered maps note_lines -> omap line_tag note_lines = maps.*1.
Proof.
  induction 1 as [| [tag nm] l maps note_lines (values & _ & ->) _ IH]; [reflexivity |].
  rewrite fmap_cons.
  change (tag :: omap line_tag note_lines = tag :: maps.*1).
  f_equal. exact IH.
Qed.

Lemma metadata_lines_no_tag (metadata : list meta_field) :
  omap line_tag (metadata_lines metadata) = [].
Proof.
  unfold metadata_lines. induction metadata as [| field metadata IH]; [reflexivity |].
  rewrite fmap_cons. cbn [concat]. rewrite omap_app, IH, app_nil_r.
  destruct field as [name [attr |] | [requests |]]; try reflexivity.
  simpl. induction requests as [| r requests IHr]; [reflexivity | exact IHr].
Qed.

Lemma bar_length_lines_no_tag (bar_lengths : list (Z * Q)) :
  omap line_tag (bar_length_lines bar_lengths) = [].
Proof.
  unfold bar_length_lines.
  induction bar_lengths as [| [m v] l IH]; [reflexivity | exact IH].
Qed.

Lemma bpm_definitions_no_tag (table : list (Q * string)) :
  omap line_tag (bpm_definitions table) = [].
Proof.
  unfold bpm_definitions.
  induction table as [| [v identifier] l IH]; [reflexivity | exact IH].
Qed.

(** X5: in a document that [dumps] returns no two note lines carry the same
    tag: all pushes to one measure and line tag end up in one line. *)
Theorem note_lines_have_distinct_tags :
  forall (score : Score) (comment : string) (doc : list line),
    dumps score comment = Ok doc -> NoDup (omap line_tag doc).
Proof.
  intros score comment doc H. apply dumps_Ok_inv in H.
  destruct H as (slide_channels & guide_channels & tl & note_maps & note_lines
                 & _ & _ & _ & _ & Hpush & Hall & ->).
  rewrite !omap_app, metadata_lines_no_tag, bar_length_lines_no_tag,
    bpm_definitions_no_tag.
  change (omap line_tag [Comment comment]) with (@nil string).
  change (omap line_tag [Blank]) with (@nil string).
  change (omap line_tag [TilLine tl; HiSpeedLine; MeasureHsLine]) with (@nil string).
  rewrite !app_nil_l, app_nil_r.
  rewrite (rendered_tags _ _ Hall).
  rewrite (push_all_tags _ _ _ _ _ Hpush).
  apply first_insertion_NoDup. constructor.
Qed.

Lemma note_lines_have_distinct_tags_witness :
  NoDup (omap line_tag
           [Comment "c"; MetaLine "title" (MStr "t"); Blank;
            RequestLine "ticks_per_beat 480"; Blank;
            BarLengthLine 0 (4 # 1)%Q; Blank; Blank;
            TilLine []; HiSpeedLine; MeasureHsLine; Blank;
            NoteLine "00012" ["11"]; Blank]).
Proof.
  exact (note_lines_have_distinct_tags request_score "c" _ eq_refl).
Defined.

Lemma append_same_length (s1 s2 t1 t2 : string) :
  String.length s1 = String.length s2 ->
  s1 +:+ t1 = s2 +:+ t2 -> s1 = s2 /\ t1 = t2.
Proof.
  revert s2. induction s1 as [| c s1 IH]; intros [| c2 s2] Hlen Heq;
    simpl in *; try discriminate.
  - auto.
  - injection Heq as -> Heq. injection Hlen as Hlen.
    destruct (IH s2 Hlen Heq) as [-> ->]. auto.
Qed.

Lemma measures_checked :
  nodupb ((fun k => fmt03 (Z.of_nat k)) <$> seq 0 1000) = true
  /\ forallb (fun s => Nat.eqb (String.length s) 3)
             ((fun k => fmt03 (Z.of_nat k)) <$> seq 0 1000) = true.
Proof. split; vm_compute; reflexivity. Qed.

(** X6: for measures from 0 to 999 the tag [f'{current_measure:03}{info}']
    determines the measure and the line info; from measure 1000 on the
    measure takes four characters and two different pairs can give one tag. *)
Theorem tags_below_measure_1000_are_unambiguous :
  (forall (m1 m2 : Z) (info1 info2 : string),
      0 <= m1 < 1000 -> 0 <= m2 < 1000 ->
      fmt03 m1 +:+ info1 = fmt03 m2 +:+ info2 ->
      m1 = m2 /\ info1 = info2)
  /\ fmt03 100 +:+ "1" +:+ base36_dumps 36 = fmt03 1001 +:+ "1" +:+ base36_dumps 0.
Proof.
  split; [| reflexivity].
  intros m1 m2 info1 info2 H1 H2 Heq.
  destruct measures_checked as [Hnd Hlen].
  apply nodupb_NoDup in Hnd. rewrite forallb_forall in Hlen.
  assert (Hl : forall m, 0 <= m < 1000 ->
                 ((fun k => fmt03 (Z.of_nat k)) <$> seq 0 1000) !! Z.to_nat m
                 = Some (fmt03 m)).
  { intros m Hm. rewrite list_lookup_fmap, lookup_seq_lt by lia. simpl.
    now rewrite Z2Nat.id by lia. }
  assert (H3 : forall m, 0 <= m < 1000 -> String.length (fmt03 m) = 3%nat).
  { intros m Hm. apply Nat.eqb_eq, Hlen.
    apply list_elem_of_In, list_elem_of_lookup. eauto. }
  assert (Hsame : String.length (fmt03 m1) = String.length (fmt03 m2))
    by (rewrite !H3 by assumption; reflexivity).
  destruct (append_same_length _ _ _ _ Hsame Heq) as [Hm Hi].
  split; [| exact Hi].
  pose proof (Hl m1 H1) as Hl1. pose proof (Hl m2 H2) as Hl2.
  rewrite Hm in Hl1.
  pose proof (NoDup_lookup _ _ _ _ Hnd Hl1 Hl2). lia.
Qed.

Lemma tags_below_measure_1000_are_unambiguous_witness :
  (7 : Z) = 7 /\ "1a"%string = "1a"%string.
Proof.
  apply (proj1 tags_below_measure_1000_are_unambiguous 7 7 "1a" "1a");
    [lia | lia | reflexivity].
Defined.

(** X7: in a note map with positive [ticks_per_measure] two recorded offsets
    fall into the same cell exactly when they are equal modulo
    [ticks_per_measure]: rendering never puts notes of different places in
    the measure into one cell. *)
Theorem different_offsets_different_cells :
  forall (nm : note_map) (raw1 raw2 : Z * string),
    0 < ticks_per_measure nm ->
    raw1 ∈ raws nm -> raw2 ∈ raws nm ->
    (cell_index nm (fst raw1) = cell_index nm (fst raw2)
     <-> fst raw1 `mod` ticks_per_measure nm = fst raw2 `mod` ticks_per_measure nm).
Proof.
  intros nm raw1 raw2 Hpos H1 H2.
  destruct (cell_index_exact nm raw1 Hpos H1) as [_ E1].
  destruct (cell_index_exact nm raw2 Hpos H2) as [_ E2].
  split.
  - intros Heq. rewrite <- E1, <- E2, Heq. reflexivity.
  - intros Heq. unfold cell_index. now rewrite Heq.
Qed.

Lemma different_offsets_different_cells_witness :
  let nm := mkNoteMap [(0, "11"); (240, "12"); (360, "13")] 1920 in
  cell_index nm 240 = cell_index nm 360 <-> 240 `mod` 1920 = 360 `mod` 1920.
Proof.
  intros nm.
  apply (different_offsets_different_cells nm (240, "12") (360, "13"));
    [reflexivity | |]; repeat (apply elem_of_cons; (now left) || right);
    apply elem_of_cons; now left.
Defined.

(** ** The segment that takes a tick *)

Lemma bar_lengths_loop_sorted (tpb : Z) (entries : list (Z * Q)) :
  forall acc,
    StronglySorted (key_le fst) entries -> whole_entries tpb entries ->
    StronglySorted (key_le start_tick) (bar_lengths_loop tpb acc entries).
Proof.
  induction entries as [| [m v] entries IH]; intros acc Hsorted Hwhole.
  - constructor.
  - pose proof (bar_lengths_loop_starts tpb _ acc Hsorted Hwhole) as Hstarts.
    cbn [bar_lengths_loop] in *.
    inversion Hsorted as [| ? ? Hs_rest Hs_head]; subst.
    inversion Hwhole as [| ? ? Hw_head Hw_rest]; subst.
    inversion Hstarts as [| ? ? _ Hrest]; subst.
    constructor; [apply IH; assumption |].
    eapply Forall_impl; [exact Hrest |]. intros b Hb. exact Hb.
Qed.

Lemma find_rev_latest (T : Z) (l : list BarLength) (seg : BarLength) :
  StronglySorted (key_le start_tick) l ->
  List.find (fun b => start_tick b <=? T) (rev l) = Some seg ->
  forall seg', In seg' l -> start_tick seg' <= T -> start_tick seg' <= start_tick seg.
Proof.
  induction 1 as [| x l Hs IH Hx]; intros Hfind seg' Hin HT; [destruct Hin |].
  cbn [rev] in Hfind. rewrite find_app in Hfind.
  destruct (List.find _ (rev l)) as [y |] eqn:Hy.
  - injection Hfind as ->. destruct Hin as [<- | Hin]; [| eauto].
    apply find_some in Hy. destruct Hy as [Hy _]. apply in_rev in Hy.
    rewrite Forall_forall in Hx. apply Hx, list_elem_of_In, Hy.
  - simpl in Hfind. destruct (start_tick x <=? T); [| discriminate].
    injection Hfind as <-. destruct Hin as [<- | Hin]; [lia |].
    pose proof (List.find_none _ _ Hy seg') as Hn. simpl in Hn.
    rewrite <- in_rev in Hn. specialize (Hn Hin). apply Z.leb_gt in Hn. lia.
Qed.

(** X8: for a bar-length table whose every bar length is a positive whole
    number of ticks, [push_raw] gives a tick to the latest segment that has
    started: no segment with a start at or before the tick starts later.  A
    tick is given to no segment, and the push dropped without error, exactly
    when the table is empty or the tick is negative. *)
Theorem push_raw_takes_latest_segment :
  forall (bar_lengths : list (Z * Q)) (tpb T : Z),
    whole_entries tpb bar_lengths ->
    let segs := bar_lengths_in_ticks tpb (sorted_by fst bar_lengths) in
    (forall seg,
        List.find (fun b => start_tick b <=? T) segs = Some seg ->
        In seg segs /\ start_tick seg <= T
        /\ forall seg', In seg' segs -> start_tick seg' <= T ->
                        start_tick seg' <= start_tick seg)
    /\ (List.find (fun b => start_tick b <=? T) segs = None
        <-> bar_lengths = [] \/ T < 0)
    /\ (bar_lengths = [] \/ T < 0 ->
        forall maps info data, push_raw segs tpb maps T info data = Ok maps).
Proof.
  intros bar_lengths tpb T Hwhole segs.
  pose proof (sorted_by_sorted fst bar_lengths) as Hsorted.
  pose proof (sorted_by_Forall fst _ _ Hwhole) as Hwhole'.
  pose proof (bar_lengths_loop_sorted tpb _ 0 Hsorted Hwhole') as Hsegs.
  pose proof (bar_lengths_loop_starts tpb _ 0 Hsorted Hwhole') as Hstarts.
  assert (Hnone : List.find (fun b => start_tick b <=? T) segs = None
                  <-> bar_lengths = [] \/ T < 0).
  { split.
    - intros Hn. destruct bar_lengths as [| entry rest]; [now left | right].
      destruct (Z.lt_ge_cases T 0) as [Hlt | Hge]; [exact Hlt | exfalso].
      pose proof (sorted_by_length fst (entry :: rest)) as Hlen.
      destruct (sorted_by fst (entry :: rest)) as [| [m v] table] eqn:Htable;
        [discriminate |].
      unfold segs, bar_lengths_in_ticks in Hn. cbn [bar_lengths_loop rev] in Hn.
      rewrite find_app in Hn. destruct (List.find _ (rev _)); [discriminate |].
      simpl in Hn. destruct (Z.leb_spec 0 T); [discriminate | lia].
    - intros [-> | Hlt]; [reflexivity |].
      apply find_none. apply Forall_rev.
      eapply Forall_impl; [exact Hstarts |].
      intros b Hb. simpl in Hb. apply Z.leb_gt. lia. }
  split; [| split; [exact Hnone |]].
  - intros seg Hfind. pose proof (find_some _ _ Hfind) as [Hin Hle].
    apply Z.leb_le in Hle. split; [exact Hin |]. split; [exact Hle |].
    intros seg' Hin' HT. unfold segs, bar_lengths_in_ticks in *.
    apply (find_rev_latest T _ seg Hsegs Hfind seg'); [| exact HT].
    apply in_rev. exact Hin'.
  - intros Hdrop maps info data. apply Hnone in Hdrop.
    unfold push_raw. now rewrite Hdrop.
Qed.

Lemma push_raw_takes_latest_segment_witness :
  let segs :=
    bar_lengths_in_ticks 480 (sorted_by fst [(2, (3 # 1)%Q); (0, (4 # 1)%Q)]) in
  In (mkBarLength 3840 2 (3 # 1)%Q) segs /\ 3840 <= 5000
  /\ forall seg', In seg' segs -> start_tick seg' <= 5000 -> start_tick seg' <= 3840.
Proof.
  intros segs.
  assert (Hw : whole_entries 480 [(2, (3 # 1)%Q); (0, (4 # 1)%Q)])
    by (repeat constructor).
  exact (proj1 (push_raw_takes_latest_segment
                  [(2, (3 # 1)%Q); (0, (4 # 1)%Q)] 480 5000 Hw)
               (mkBarLength 3840 2 (3 # 1)%Q) eq_refl).
Defined.

(** ** The timescale line *)

(** X9: the timescale entries split each tick into a bar of
    [4 * ticks_per_beat] ticks and the tick within that bar, whatever the
    bar-length table says: bar and rest give back the tick, and the rest is
    within the bar for positive ticks per beat.  The only failure is a
    division by zero, exactly when there is an entry and
    [ticks_per_beat] is 0. *)
Theorem til_entries_split_ticks :
  forall (tpb : Z) (tils : list (Z * Q)),
    (forall e, til_list tpb tils = Err e <->
               e = ZeroDivisionError /\ tils <> [] /\ tpb = 0)
    /\ (forall tl,
           til_list tpb tils = Ok tl ->
           Forall2 (fun til entry =>
                      entry.2 = til.2
                      /\ til.1 = entry.1.1 * (tpb * 4) + entry.1.2
                      /\ (0 < tpb -> 0 <= entry.1.2 < tpb * 4))
                   tils tl).
Proof.
  intros tpb tils. unfold til_list. split.
  - intros e. destruct tils as [| til tils].
    + split; [discriminate | intros (_ & H & _); contradiction].
    + destruct (Z.eqb_spec (tpb * 4) 0) as [H0 | Hne].
      * split; [intros [= <-] | intros (-> & _)]; [| reflexivity].
        split; [reflexivity |]. split; [discriminate | lia].
      * split; [discriminate | intros (_ & _ & ->); lia].
  - intros tl H.
    assert (Hgen : tpb * 4 <> 0 \/ tils = []).
    { destruct tils; [now right |].
      destruct (Z.eqb_spec (tpb * 4) 0); [discriminate | now left]. }
    assert (Htl : tl = (fun '(tick, value) =>
                          (tick / (tpb * 4), tick `mod` (tpb * 4), value)) <$> tils).
    { destruct tils; [now injection H as <- |].
      destruct (tpb * 4 =? 0); [discriminate | now injection H as <-]. }
    subst tl. clear H.
    induction tils as [| [tick v] tils IH]; [constructor |].
    destruct Hgen as [Hne | Hnil]; [| discriminate].
    rewrite fmap_cons. constructor; [| apply IH; now left].
    simpl. split; [reflexivity |]. split.
    + rewrite (Z.div_mod tick (tpb * 4)) at 1 by exact Hne. lia.
    + intros Hpos. apply Z.mod_pos_bound. lia.
Qed.

(** ** Requests *)

Lemma request_step_Ok_iff (lines : list line) (tpb : Z) (request : string) :
  (exists st, request_step (lines, tpb) request = Ok st) <-> well_formed_request request.
Proof.
  unfold request_step, well_formed_request.
  destruct (String.prefix "ticks_per_beat" request).
  - destruct (split_ws request) as [| w0 [| token ws]]; simpl.
    + split; [intros [st H]; discriminate |].
      intros H. destruct (H eq_refl) as (t & n & Ht & _). discriminate.
    + split; [intros [st H]; discriminate |].
      intros H. destruct (H eq_refl) as (t & n & Ht & _). discriminate.
    + destruct (parse_int token) as [n |] eqn:Hp.
      * split; [intros _ _; eauto | eauto].
      * split; [intros [st H]; discriminate |].
        intros H. destruct (H eq_refl) as (t & n & [= <-] & Hn). congruence.
  - split; [intros _ H; discriminate | eauto].
Qed.

Lemma request_loop_Ok_iff (requests : list string) :
  forall lines tpb,
    (exists st, for_each request_step requests (lines, tpb) = Ok st)
    <-> Forall well_formed_request requests.
Proof.
  induction requests as [| request requests IH]; intros lines tpb.
  - split; [constructor | eexists; reflexivity].
  - cbn [for_each]. split.
    + intros [st H]. apply bind_Ok in H. destruct H as ([lines1 tpb1] & Hstep & H).
      constructor.
      * apply (request_step_Ok_iff lines tpb). eauto.
      * apply (IH lines1 tpb1). eauto.
    + intros H. inversion H as [| ? ? Hr Hrest]; subst.
      apply (request_step_Ok_iff lines tpb) in Hr. destruct Hr as [[lines1 tpb1] Hr].
      rewrite Hr. cbn [mbind result_bind]. apply IH. exact Hrest.
Qed.

Lemma metadata_loop_Ok_iff (metadata : list meta_field) :
  forall lines tpb,
    (exists st, for_each metadata_step metadata (lines, tpb) = Ok st)
    <-> Forall well_formed_request (requests_of metadata).
Proof.
  unfold requests_of.
  induction metadata as [| field metadata IH]; intros lines tpb.
  - split; [constructor | eexists; reflexivity].
  - rewrite fmap_cons. cbn [for_each concat]. rewrite Forall_app. split.
    + intros [st H]. apply bind_Ok in H. destruct H as ([lines1 tpb1] & Hstep & H).
      split; [| apply (IH lines1 tpb1); eauto].
      destruct field as [name [attr |] | [requests |]]; try constructor.
      simpl in Hstep. apply (request_loop_Ok_iff requests (lines ++ [Blank]) tpb). eauto.
    + intros [Hfield Hrest].
      assert (Hstep : exists st, metadata_step (lines, tpb) field = Ok st).
      { destruct field as [name [attr |] | [requests |]]; simpl; eauto.
        apply request_loop_Ok_iff. exact Hfield. }
      destruct Hstep as [[lines1 tpb1] Hstep]. rewrite Hstep.
      cbn [mbind result_bind]. apply IH. exact Hrest.
Qed.


(** ** When [dumps] returns a document *)










Lemma sort_groups_total (groups : list (list Note)) :
  Forall (fun steps => steps <> []) groups ->
  sort_groups groups = Ok (sorted_by first_tick groups).
Proof.
  intros H. unfold sort_groups.
  replace (forallb _ groups) with true; [reflexivity |].
  symmetry. apply forallb_forall. intros steps Hin.
  rewrite Forall_forall in H. specialize (H steps (proj2 (list_elem_of_In _ _) Hin)).
  destruct steps; [contradiction | reflexivity].
Qed.




(** ** Numbers in the text *)

Lemma format_number_whole (f : Q -> string) (x : Q) :
  whole x -> format_number f x = str_int (Qfloor x).
Proof.
  unfold whole, format_number. intros H. rewrite H. f_equal.
  apply Qeq_bool_eq in H.
  rewrite <- (py_int_comp _ _ H). apply py_int_inject_Z.
Qed.

Lemma line_text_whole (f g : Q -> string) (space : bool) (l : line) :
  whole_line l -> line_text f space l = line_text g space l.
Proof.
  destruct l as [| | name [s | x] | | m v | identifier v | tl | | |]; simpl;
    intros H; try reflexivity.
  - now rewrite !format_number_whole.
  - now rewrite !format_number_whole.
  - now rewrite !format_number_whole.
  - now subst tl.
Qed.

Lemma distinct_from_Forall (P : Q -> Prop) (values : list Q) :
  forall seen, Forall P values -> Forall P (distinct_from seen values).
Proof.
  induction values as [| v values IH]; intros seen H; [constructor |].
  inversion H; subst. cbn [distinct_from].
  destruct (existsb _ seen); [| constructor]; auto.
Qed.

Lemma table_from_Forall (P : Q -> Prop) (keys : list Q) :
  forall n, Forall P keys -> Forall (fun entry => P entry.1) (table_from n keys).
Proof.
  induction keys as [| k keys IH]; intros n H; [constructor |].
  inversion H; subst. cbn [table_from]. constructor; auto.
Qed.

(** X12: when the numbers of the metadata, the bar lengths and the tempo
    values of a score have no fractional part and the score has no
    timescale change, no number of the document is formatted as a float:
    the text is the same whatever [str] does to a float, every number being
    written as an integer by [format_number]. *)
Theorem whole_numbers_are_written_as_integers :
  forall (f g : Q -> string) (score : Score) (comment : string) (space : bool),
    whole_score score ->
    dumps_text f score comment space = dumps_text g score comment space
    /\ (forall x, whole x -> format_number f x = str_int (Qfloor x)).
Proof.
  intros f g score comment space (Hmeta & Hbars & Hbpms & Htils).
  split; [| intros x; apply format_number_whole].
  unfold dumps_text. destruct (dumps score comment) as [doc | e] eqn:Hdoc;
    [| reflexivity].
  cbn [mbind result_bind]. do 2 f_equal.
  assert (Hwhole : Forall whole_line doc).
  { apply dumps_Ok_inv in Hdoc.
    destruct Hdoc as (sc & gc & tl & maps & note_lines & _ & _ & _ & Htl & _ &
                      Hrendered & ->).
    rewrite Htils in Htl. injection Htl as <-.
    repeat rewrite Forall_app. repeat split; try (repeat constructor).
    - unfold metadata_lines. induction Hmeta as [| field fields Hfield _ IH];
        [constructor |].
      rewrite fmap_cons. cbn [concat]. apply Forall_app. split; [| exact IH].
      destruct field as [name [[s | x] |] | [requests |]]; simpl;
        repeat constructor; [exact Hfield |].
      apply Forall_fmap, Forall_true. intros request. exact I.
    - unfold bar_length_lines. apply Forall_fmap.
      eapply Forall_impl; [apply sorted_by_Forall; exact Hbars |].
      intros [m v] Hv. exact Hv.
    - unfold bpm_definitions. apply Forall_fmap.
      eapply Forall_impl;
        [apply (table_from_Forall whole), distinct_from_Forall, Forall_fmap;
         apply sorted_by_Forall; exact Hbpms |].
      intros [v identifier] Hv. exact Hv.
    - clear -Hrendered. induction Hrendered as [| entry l maps ls Hl _ IH];
        [constructor |].
      constructor; [| exact IH]. destruct Hl as (values & _ & ->). exact I. }
  clear Hdoc. induction Hwhole as [| l doc Hl _ IH]; [reflexivity |].
  rewrite !fmap_cons. f_equal; [now apply line_text_whole | exact IH].
Qed.

Lemma whole_numbers_are_written_as_integers_witness :
  dumps_text (fun _ => "1.5") request_score "c" false
  = dumps_text (fun _ => "2.5") request_score "c" false
  /\ (forall x, whole x -> format_number (fun _ => "1.5") x = str_int (Qfloor x)).
Proof.
  apply (whole_numbers_are_written_as_integers
           (fun _ => "1.5") (fun _ => "2.5") request_score "c" false).
  repeat split; repeat constructor.
Defined.

(** * Properties of the exporter *)

(** ** Rounding *)

Lemma py_round_bounds (x : Q) :
  (inject_Z (py_round x) - (1 # 2) <= x <= inject_Z (py_round x) + (1 # 2))%Q.
Proof.
  unfold py_round.
  pose proof (Qfloor_le x) as Hlo. pose proof (Qlt_floor x) as Hhi.
  rewrite inject_Z_plus in Hhi. change (inject_Z 1) with 1%Q in Hhi.
  destruct (Qcompare_spec (x - inject_Z (Qfloor x)) (1 # 2)) as [He | Hl | Hg].
  - destruct (Z.even (Qfloor x)).
    + lra.
    + rewrite inject_Z_plus. change (inject_Z 1) with 1%Q. lra.
  - lra.
  - rewrite inject_Z_plus. change (inject_Z 1) with 1%Q. lra.
Qed.

Lemma py_round_comp (x y : Q) : (x == y)%Q -> py_round x = py_round y.
Proof.
  intros H. unfold py_round. rewrite (Qfloor_comp x y H).
  assert (Hc : (x - inject_Z (Qfloor y) ?= 1 # 2)%Q
               = (y - inject_Z (Qfloor y) ?= 1 # 2)%Q).
  { apply Qcompare_comp; [| reflexivity]. apply Qplus_comp; [exact H | reflexivity]. }
  now rewrite Hc.
Qed.


Lemma py_round_mono (x y : Q) : (x <= y)%Q -> py_round x <= py_round y.
Proof.
  intros Hxy. destruct (Z.le_gt_cases (py_round x) (py_round y)) as [H | H];
    [exact H | exfalso].
  pose proof (py_round_bounds x) as [Hx _]. pose proof (py_round_bounds y) as [_ Hy].
  assert (Hq : (inject_Z (py_round y) + 1 <= inject_Z (py_round x))%Q).
  { change 1%Q with (inject_Z 1). rewrite <- inject_Z_plus. rewrite <- Zle_Qle. lia. }
  assert (Heq : (x == y)%Q) by lra.
  apply py_round_comp in Heq. lia.
Qed.

Lemma beat_to_tick_mono (beat beat' : Q) :
  (beat <= beat')%Q -> beat_to_tick beat <= beat_to_tick beat'.
Proof. intros H. apply py_round_mono. lra. Qed.


(** X14: a note whose size is a whole number of half lanes and whose left
    edge [lane - size] is on a lane boundary is converted without loss: the
    width is twice the size, the lane is the left edge moved by 8, and lane
    and width give back the centre; a size that is not negative and off the
    grid is rounded down to a whole width. *)
Theorem lane_and_width_exact_on_half_lanes :
  forall (lane size : Q) (l w : Z),
    (size * 2 == inject_Z w)%Q -> (lane - size == inject_Z l)%Q ->
    usc_notesize_to_sus_notesize size = w
    /\ usc_lanes_to_sus_lanes lane size = l + 8
    /\ (inject_Z (usc_lanes_to_sus_lanes lane size - 8)
        + inject_Z (usc_notesize_to_sus_notesize size) / 2 == lane)%Q
    /\ (forall size' : Q,
           (0 <= size')%Q ->
           (inject_Z (usc_notesize_to_sus_notesize size') <= size' * 2
            < inject_Z (usc_notesize_to_sus_notesize size') + 1)%Q).
Proof.
  intros lane size l w Hw Hl.
  assert (Hwidth : usc_notesize_to_sus_notesize size = w).
  { unfold usc_notesize_to_sus_notesize. rewrite (py_int_comp _ _ Hw).
    apply py_int_inject_Z. }
  assert (Hlane : usc_lanes_to_sus_lanes lane size = l + 8).
  { unfold usc_lanes_to_sus_lanes.
    rewrite (py_int_comp _ (inject_Z (l + 8))); [apply py_int_inject_Z |].
    rewrite inject_Z_plus. change (inject_Z 8) with 8%Q. lra. }
  split; [exact Hwidth |]. split; [exact Hlane |]. split.
  - rewrite Hwidth, Hlane. replace (l + 8 - 8) with l by lia.
    rewrite <- Hl. rewrite <- Hw. field.
  - intros size' Hsize. unfold usc_notesize_to_sus_notesize, py_int.
    assert (H0 : (0 <= size' * 2)%Q) by lra.
    apply Qle_bool_iff in H0. rewrite H0.
    pose proof (Qfloor_le (size' * 2)) as Hlo.
    pose proof (Qlt_floor (size' * 2)) as Hhi.
    rewrite inject_Z_plus in Hhi. change (inject_Z 1) with 1%Q in Hhi.
    split; assumption.
Qed.

Lemma lane_and_width_exact_on_half_lanes_witness :
  usc_notesize_to_sus_notesize (3 # 2) = 3
  /\ usc_lanes_to_sus_lanes (- 9 # 2) (3 # 2) = - 6 + 8
  /\ (inject_Z (usc_lanes_to_sus_lanes (- 9 # 2) (3 # 2) - 8)
      + inject_Z (usc_notesize_to_sus_notesize (3 # 2)) / 2 == - 9 # 2)%Q
  /\ (forall size' : Q,
         (0 <= size')%Q ->
         (inject_Z (usc_notesize_to_sus_notesize size') <= size' * 2
          < inject_Z (usc_notesize_to_sus_notesize size') + 1)%Q).
Proof.
  apply (lane_and_width_exact_on_half_lanes (- 9 # 2) (3 # 2) (- 6) 3);
    reflexivity.
Defined.

(** ** Sorting on a float key *)

Lemma insert_on_elem {A : Type} (key : A -> Q) (x y : A) (l : list A) :
  y ∈ insert_on key x l <-> y = x \/ y ∈ l.
Proof.
  induction l as [| z l IH]; cbn [insert_on].
  - rewrite list_elem_of_singleton, elem_of_nil. tauto.
  - destruct (Qle_bool (key x) (key z)).
    + rewrite elem_of_cons. tauto.
    + rewrite !elem_of_cons, IH. tauto.
Qed.

Lemma sorted_on_elem {A : Type} (key : A -> Q) (y : A) (l : list A) :
  y ∈ sorted_on key l <-> y ∈ l.
Proof.
  induction l as [| x l IH]; cbn [sorted_on]; [reflexivity |].
  rewrite insert_on_elem, elem_of_cons, IH. tauto.
Qed.

Lemma insert_on_length {A : Type} (key : A -> Q) (x : A) (l : list A) :
  length (insert_on key x l) = S (length l).
Proof.
  induction l as [| z l IH]; cbn [insert_on]; [reflexivity |].
  destruct (Qle_bool (key x) (key z)); simpl; [reflexivity | now rewrite IH].
Qed.

Lemma sorted_on_length {A : Type} (key : A -> Q) (l : list A) :
  length (sorted_on key l) = length l.
Proof.
  induction l as [| x l IH]; cbn [sorted_on]; [reflexivity |].
  rewrite insert_on_length. now rewrite IH.
Qed.

Lemma insert_on_sorted {A : Type} (key : A -> Q) (x : A) (l : list A) :
  StronglySorted (fun a b => (key a <= key b)%Q) l ->
  StronglySorted (fun a b => (key a <= key b)%Q) (insert_on key x l).
Proof.
  induction 1 as [| z l Hl IH Hz]; cbn [insert_on].
  - repeat constructor.
  - destruct (Qle_bool (key x) (key z)) eqn:Hxz.
    + apply Qle_bool_iff in Hxz. constructor; [now constructor |].
      constructor; [exact Hxz |].
      eapply Forall_impl; [exact Hz |]. intros b Hb. simpl in Hb. lra.
    + assert (Hzx : (key z <= key x)%Q).
      { destruct (Qlt_le_dec (key z) (key x)) as [Hlt | Hle]; [lra |].
        apply Qle_bool_iff in Hle. congruence. }
      constructor; [exact IH |].
      apply Forall_forall. intros b Hb. apply insert_on_elem in Hb.
      destruct Hb as [-> | Hb]; [exact Hzx |].
      rewrite Forall_forall in Hz. now apply Hz.
Qed.

Lemma sorted_on_sorted {A : Type} (key : A -> Q) (l : list A) :
  StronglySorted (fun a b => (key a <= key b)%Q) (sorted_on key l).
Proof.
  induction l as [| x l IH]; cbn [sorted_on]; [constructor |].
  now apply insert_on_sorted.
Qed.

(** ** The groups of a slide and of a guide *)

Ltac split_branches :=
  repeat match goal with
         | |- context [if ?b then _ else _] => destruct b
         | |- context [match ?o with Some _ => _ | None => _ end] => destruct o
         end.

Lemma slide_step_spec (st : Lists.t) (slide : list Note) (step : SlidePoint.t) :
  same_groups st (slide_step (st, slide) step).1
  /\ (slide_step (st, slide) step).2 = slide ++ option_list (slide_note step).
Proof.
  unfold same_groups, slide_step, slide_note, slide_type, sus_note.
  destruct (String.eqb (SlidePoint.type_ step) "start");
    [| destruct (String.eqb (SlidePoint.type_ step) "tick");
       [| destruct (String.eqb (SlidePoint.type_ step) "attach");
          [| destruct (String.eqb (SlidePoint.type_ step) "end")]]];
    cbn [orb]; split_branches; cbn; rewrite ?app_nil_r; auto.
Qed.

Lemma slide_loop_spec (steps : list SlidePoint.t) :
  forall st slide,
    same_groups st (foldl slide_step (st, slide) steps).1
    /\ (foldl slide_step (st, slide) steps).2 = slide ++ omap slide_note steps.
Proof.
  induction steps as [| step steps IH]; intros st slide.
  - simpl. rewrite app_nil_r. unfold same_groups. auto.
  - cbn [foldl]. destruct (slide_step_spec st slide step) as [Hframe Hslide].
    destruct (slide_step (st, slide) step) as [st1 slide1]. simpl in Hframe, Hslide.
    destruct (IH st1 slide1) as [Hframe' Hslide'].
    split.
    + unfold same_groups in *. intuition congruence.
    + rewrite Hslide', Hslide. cbn [omap list_omap].
      destruct (slide_note step); simpl; now rewrite <- app_assoc.
Qed.

Lemma guide_step_spec color point_length st guide indexed :
  same_groups st (guide_step color point_length (st, guide) indexed).1
  /\ (guide_step color point_length (st, guide) indexed).2
     = guide ++ [guide_note point_length indexed].
Proof.
  destruct indexed as [idx step].
  unfold same_groups, guide_step, guide_note, guide_type, sus_note. cbn [fst snd].
  destruct (Nat.eqb idx 0); [| destruct (Nat.eqb idx (point_length - 1))];
    cbv beta zeta; split_branches; cbn; auto.
Qed.

Lemma guide_loop_spec color point_length (steps : list (nat * GuidePoint.t)) :
  forall st guide,
    same_groups st (foldl (guide_step color point_length) (st, guide) steps).1
    /\ (foldl (guide_step color point_length) (st, guide) steps).2
       = guide ++ (guide_note point_length <$> steps).
Proof.
  induction steps as [| step steps IH]; intros st guide.
  - simpl. rewrite app_nil_r. unfold same_groups. auto.
  - cbn [foldl].
    destruct (guide_step_spec color point_length st guide step) as [Hframe Hguide].
    destruct (guide_step color point_length (st, guide) step) as [st1 guide1].
    simpl in Hframe, Hguide.
    destruct (IH st1 guide1) as [Hframe' Hguide'].
    split.
    + unfold same_groups in *. intuition congruence.
    + rewrite Hguide', Hguide, fmap_cons. now rewrite <- app_assoc.
Qed.

Lemma timescale_loop_spec (changes : list TimeScalePoint.t) :
  forall st,
    Lists.slides (foldl timescale_step st changes) = Lists.slides st
    /\ Lists.guides (foldl timescale_step st changes) = Lists.guides st
    /\ Lists.bpms (foldl timescale_step st changes) = Lists.bpms st
    /\ Lists.tils (foldl timescale_step st changes) = Lists.tils st ++ (til_of <$> changes).
Proof.
  induction changes as [| changepoint changes IH]; intros st.
  - simpl. rewrite app_nil_r. auto.
  - cbn [foldl]. destruct (IH (timescale_step st changepoint)) as (-> & -> & -> & ->).
    simpl. rewrite <- app_assoc. auto.
Qed.

Lemma export_single_spec (st : Lists.t) (note : Single.t) :
  same_groups st (export_single st note).
Proof.
  unfold same_groups, export_single. split_branches; cbn; auto.
Qed.

Lemma export_step_spec (st : Lists.t) (note : note_object) :
  Lists.slides (export_step st note) = Lists.slides st ++ slides_of [note]
  /\ Lists.guides (export_step st note) = Lists.guides st ++ guides_of [note]
  /\ Lists.bpms (export_step st note) = Lists.bpms st ++ bpms_of [note]
  /\ Lists.tils (export_step st note) = Lists.tils st ++ tils_of [note].
Proof.
  destruct note as [note | note | note | note | note |]; cbn.
  - rewrite !app_nil_r. auto.
  - destruct (timescale_loop_spec (TimeScaleGroup.changes note) st)
      as (-> & -> & -> & ->).
    rewrite !app_nil_r. auto.
  - destruct (export_single_spec st note) as (-> & -> & -> & ->).
    rewrite !app_nil_r. auto.
  - unfold export_slide.
    destruct (slide_loop_spec (sorted_on SlidePoint.beat (Slide.connections note)) st [])
      as [(Hs & Hg & Hb & Ht) Hslide].
    destruct (foldl slide_step _ _) as [st1 slide]. simpl in *.
    rewrite Hs, Hg, Hb, Ht, Hslide, !app_nil_r. auto.
  - unfold export_guide.
    destruct (guide_loop_spec (Guide.color note)
                (length (sorted_on GuidePoint.beat (Guide.midpoints note)))
                (zip (seq 0 (length (sorted_on GuidePoint.beat (Guide.midpoints note))))
                     (sorted_on GuidePoint.beat (Guide.midpoints note))) st [])
      as [(Hs & Hg & Hb & Ht) Hguide].
    destruct (foldl (guide_step _ _) _ _) as [st1 guide]. simpl in *.
    rewrite Hs, Hg, Hb, Ht, Hguide, !app_nil_r. auto.
  - rewrite !app_nil_r. auto.
Qed.

Lemma export_loop_spec (notes : list note_object) :
  forall st,
    Lists.slides (foldl export_step st notes) = Lists.slides st ++ slides_of notes
    /\ Lists.guides (foldl export_step st notes) = Lists.guides st ++ guides_of notes
    /\ Lists.bpms (foldl export_step st notes) = Lists.bpms st ++ bpms_of notes
    /\ Lists.tils (foldl export_step st notes) = Lists.tils st ++ tils_of notes.
Proof.
  induction notes as [| note notes IH]; intros st.
  - cbn. rewrite !app_nil_r. auto.
  - cbn [foldl]. destruct (IH (export_step st note)) as (-> & -> & -> & ->).
    destruct (export_step_spec st note) as (-> & -> & -> & ->).
    rewrite <- !app_assoc.
    change (note :: notes) with ([note] ++ notes).
    unfold slides_of, guides_of, bpms_of, tils_of.
    rewrite !omap_app, fmap_app, concat_app. auto.
Qed.

Lemma export_lists_spec (notes : list note_object) :
  Lists.slides (export_lists notes) = slides_of notes
  /\ Lists.guides (export_lists notes) = guides_of notes
  /\ Lists.bpms (export_lists notes) = bpms_of notes
  /\ Lists.tils (export_lists notes) = tils_of notes.
Proof. exact (export_loop_spec notes Lists.empty). Qed.

Lemma slide_of_sorted (note : Slide.t) : StronglySorted (key_le tick) (slide_of note).
Proof.
  unfold slide_of.
  pose proof (sorted_on_sorted SlidePoint.beat (Slide.connections note)) as H.
  induction H as [| step steps Hsteps IH Hstep]; [constructor |].
  cbn [omap list_omap]. destruct (slide_note step) as [n |] eqn:Hn; [| exact IH].
  constructor; [exact IH |].
  apply Forall_forall. intros m Hm. apply list_elem_of_omap in Hm.
  destruct Hm as (step' & Hin & Hm).
  rewrite Forall_forall in Hstep. specialize (Hstep step' Hin).
  unfold slide_note in Hn, Hm.
  destruct (slide_type step); [| discriminate]. injection Hn as <-.
  destruct (slide_type step'); [| discriminate]. injection Hm as <-.
  unfold key_le, sus_note. simpl. now apply beat_to_tick_mono.
Qed.

Lemma zip_sorted {A B : Type} (R : B -> B -> Prop) (l : list B) :
  StronglySorted R l ->
  forall ks : list A, StronglySorted (fun a b => R a.2 b.2) (zip ks l).
Proof.
  induction 1 as [| x l Hl IH Hx]; intros [| k ks]; try constructor.
  - apply IH.
  - apply Forall_forall. intros [k' y] Hin.
    apply elem_of_zip_r in Hin. rewrite Forall_forall in Hx. now apply Hx.
Qed.

Lemma guide_of_sorted (note : Guide.t) : StronglySorted (key_le tick) (guide_of note).
Proof.
  unfold guide_of.
  pose proof (zip_sorted _ _ (sorted_on_sorted GuidePoint.beat (Guide.midpoints note))
                (seq 0 (length (sorted_on GuidePoint.beat (Guide.midpoints note)))))
    as H.
  induction H as [| indexed rest Hrest IH Hfirst]; [constructor |].
  rewrite fmap_cons. constructor; [exact IH |].
  apply Forall_fmap. eapply Forall_impl; [exact Hfirst |].
  intros indexed' Hle. unfold key_le, guide_note, sus_note. simpl.
  now apply beat_to_tick_mono.
Qed.

Lemma last_elem {A : Type} (l : list A) :
  forall x d, List.last (x :: l) d ∈ x :: l.
Proof.
  induction l as [| y l IH]; intros x d.
  - simpl. apply list_elem_of_singleton. reflexivity.
  - change (List.last (x :: y :: l) d) with (List.last (y :: l) d).
    apply elem_of_cons. right. apply IH.
Qed.

Lemma sorted_group_interval (group : list Note) :
  StronglySorted (key_le tick) group ->
  fst (group_interval group) <= snd (group_interval group).
Proof.
  intros H. destruct group as [| first rest]; [reflexivity |].
  unfold group_interval, first_tick. cbn [fst snd].
  pose proof (last_elem rest first first) as Hlast.
  apply elem_of_cons in Hlast. destruct Hlast as [-> | Hlast]; [lia |].
  inversion H as [| ? ? _ Hfirst]; subst.
  rewrite Forall_forall in Hfirst. now apply Hfirst.
Qed.

(** X15: every slide and every guide that [export] hands to [dumps] has its
    steps in order of tick, whatever the order of the connections or
    midpoints in the input; so the interval that [generate_channel] is
    called with never ends before it starts. *)
Theorem exported_groups_run_forward :
  forall (notes : list note_object) (group : list Note),
    group ∈ Lists.slides (export_lists notes) ++ Lists.guides (export_lists notes) ->
    StronglySorted (key_le tick) group
    /\ fst (group_interval group) <= snd (group_interval group).
Proof.
  intros notes group Hin.
  assert (H : StronglySorted (key_le tick) group);
    [| split; [exact H | now apply sorted_group_interval]].
  destruct (export_lists_spec notes) as (Hs & Hg & _).
  rewrite Hs, Hg in Hin. apply elem_of_app in Hin.
  destruct Hin as [Hin | Hin]; apply list_elem_of_omap in Hin;
    destruct Hin as (note & _ & Hnote);
    destruct note as [note | note | note | note | note |]; try discriminate;
    injection Hnote as <-.
  - apply slide_of_sorted.
  - apply guide_of_sorted.
Qed.

Lemma exported_groups_run_forward_witness :
  let late := SlidePoint.mk 2 0 (3 # 2) "end" "linear" "normal" None None in
  let early := SlidePoint.mk 1 0 (3 # 2) "start" "linear" "normal" None None in
  StronglySorted (key_le tick) [mkNote 480 6 3 1; mkNote 960 6 3 2]
  /\ fst (group_interval [mkNote 480 6 3 1; mkNote 960 6 3 2])
     <= snd (group_interval [mkNote 480 6 3 1; mkNote 960 6 3 2]).
Proof.
  intros late early.
  apply (exported_groups_run_forward [OfSlide (Slide.mk [late; early])]).
  vm_compute. constructor.
Defined.

(** ** The steps of a guide *)

Lemma guide_type_steps (point_length : nat) :
  forall (count start : nat),
    (1 <= start)%nat -> (start + count < point_length)%nat ->
    guide_type point_length <$> seq start count
    = replicate count SusNoteType.Guide.STEP.
Proof.
  induction count as [| count IH]; intros start Hlo Hhi; [reflexivity |].
  cbn [seq]. rewrite fmap_cons. cbn [replicate]. f_equal.
  - unfold guide_type.
    destruct (Nat.eqb_spec start 0) as [| _]; [lia |].
    destruct (Nat.eqb_spec start (point_length - 1)) as [| _]; [lia | reflexivity].
  - apply IH; lia.
Qed.

Lemma guide_of_types (note : Guide.t) :
  type_ <$> guide_of note
  = match length (Guide.midpoints note) with
    | O => []
    | 1%nat => [SusNoteType.Guide.START]
    | S (S n) =>
        SusNoteType.Guide.START
        :: replicate n SusNoteType.Guide.STEP ++ [SusNoteType.Guide.END]
    end.
Proof.
  unfold guide_of.
  rewrite <- (sorted_on_length GuidePoint.beat (Guide.midpoints note)).
  set (midpoints := sorted_on GuidePoint.beat (Guide.midpoints note)).
  rewrite <- list_fmap_compose.
  change (type_ ∘ guide_note (length midpoints))
    with (guide_type (length midpoints) ∘ (fst : nat * GuidePoint.t -> nat)).
  rewrite list_fmap_compose.
  rewrite fst_zip by (rewrite length_seq; lia).
  destruct (length midpoints) as [| [| n]]; [reflexivity | reflexivity |].
  change (seq 0 (S (S n))) with (0%nat :: seq 1 (S n)).
  rewrite fmap_cons, seq_S, fmap_app. f_equal. f_equal.
  - apply guide_type_steps; lia.
  - cbn [fmap list_fmap]. unfold guide_type.
    destruct (Nat.eqb_spec (1 + n) 0) as [| _]; [lia |].
    destruct (Nat.eqb_spec (1 + n) (S (S n) - 1)) as [_ |]; [reflexivity | lia].
Qed.

(** X16: a [Guide] adds exactly one group to [guides], with one step per
    midpoint: a START, then STEPs, then an END; a guide of a single midpoint
    is a lone START without END, and a guide without midpoints an empty
    group. *)
Theorem guide_is_start_steps_end :
  forall (st : Lists.t) (note : Guide.t),
  exists guide : list Note,
    Lists.guides (export_guide st note) = Lists.guides st ++ [guide]
    /\ length guide = length (Guide.midpoints note)
    /\ type_ <$> guide
       = match length (Guide.midpoints note) with
         | O => []
         | 1%nat => [SusNoteType.Guide.START]
         | S (S n) =>
             SusNoteType.Guide.START
             :: replicate n SusNoteType.Guide.STEP ++ [SusNoteType.Guide.END]
         end.
Proof.
  intros st note. exists (guide_of note).
  destruct (export_step_spec st (OfGuide note)) as (_ & Hg & _).
  split; [exact Hg |]. split; [| apply guide_of_types].
  unfold guide_of. rewrite length_fmap, length_zip, length_seq, sorted_on_length. lia.
Qed.

(** ** When [export] fails and when it writes a file *)

Lemma for_each_Err_Forall {A S : Type} (P : error -> Prop) (Q : A -> Prop)
    (body : S -> A -> result S) (xs : list A) :
  (forall st x e, Q x -> body st x = Err e -> P e) ->
  Forall Q xs ->
  forall st e, for_each body xs st = Err e -> P e.
Proof.
  intros Hbody. induction 1 as [| x xs Hx Hxs IH]; intros st e H; [discriminate |].
  cbn [for_each] in H. apply bind_Err in H.
  destruct H as [H | (st' & _ & H)]; eauto.
Qed.

Lemma push_raw_loop_Err {A : Type} segs tpb (info data : A -> string) (at_ : A -> Z)
    (xs : list A) maps e :
  for_each (fun note_maps x => push_raw segs tpb note_maps (at_ x) (info x) (data x))
           xs maps = Err e ->
  e <> IndexError.
Proof.
  apply (for_each_Err (fun e => e <> IndexError)).
  intros st x e' H. apply push_raw_Err in H. subst e'. discriminate.
Qed.

Lemma group_loop_Err segs tpb category groups :
  Forall (fun steps => steps <> []) groups ->
  forall st e,
    for_each (group_step segs tpb category) groups st = Err e -> e <> IndexError.
Proof.
  intros Hgroups.
  apply (for_each_Err_Forall (fun e => e <> IndexError) (fun steps => steps <> []));
    [| exact Hgroups].
  intros [cm maps] steps e Hsteps H. unfold group_step in H.
  destruct steps as [| first rest]; [contradiction |].
  apply bind_Err in H. destruct H as [H | ([channel cm'] & _ & H)].
  - apply generate_channel_Err in H. destruct H as [-> _]. discriminate.
  - apply bind_Err in H. destruct H as [H | (maps' & _ & H)]; [| discriminate].
    revert H.
    apply (push_raw_loop_Err segs tpb
             (fun note => category +:+ base36_dumps (lane note) +:+ base36_dumps channel)
             note_data tick).
Qed.

Lemma dumps_no_IndexError (score : Score) (comment : string) st e :
  for_each metadata_step (metadata score) ([Comment comment], 480) = Ok st ->
  Forall (fun steps => steps <> []) (slides score) ->
  Forall (fun steps => steps <> []) (guides score) ->
  dumps score comment = Err e -> e <> IndexError.
Proof.
  intros Hmeta Hslides Hguides H. destruct st as [lines0 tpb].
  unfold dumps in H. rewrite Hmeta in H. cbn [mbind result_bind] in H.
  rewrite (sort_groups_total _ Hslides), (sort_groups_total _ Hguides) in H.
  cbn [mbind result_bind] in H.
  apply bind_Err in H. destruct H as [H | (_ & _ & H)].
  { unfold bpm_guard in H. destruct (_ <=? _); [| discriminate].
    injection H as <-. discriminate. }
  apply bind_Err in H. destruct H as [H | ([[lines1 ids] maps1] & _ & H)].
  { revert H. apply (for_each_Err (fun e => e <> IndexError)).
    intros [[l ids] maps] [tick v] e' He. unfold bpm_step in He.
    destruct (bpm_get ids v); apply bind_Err in He;
      destruct He as [He | (? & _ & He)]; try discriminate;
      apply push_raw_Err in He; subst e'; discriminate. }
  apply bind_Err in H. destruct H as [H | (tl & _ & H)].
  { unfold til_list in H. destruct (sorted_by fst (tils score)); [discriminate |].
    destruct (_ =? _); [| discriminate]. injection H as <-. discriminate. }
  apply bind_Err in H. destruct H as [H | (maps2 & _ & H)].
  { revert H. unfold push_notes.
    apply (push_raw_loop_Err _ _ (fun note => "1" +:+ base36_dumps (lane note))
             note_data tick). }
  apply bind_Err in H. destruct H as [H | (maps3 & _ & H)].
  { revert H. unfold push_notes.
    apply (push_raw_loop_Err _ _ (fun note => "5" +:+ base36_dumps (lane note))
             note_data tick). }
  apply bind_Err in H. destruct H as [H | (maps4 & _ & H)].
  { unfold push_groups in H. apply bind_Err in H.
    destruct H as [H | ([cm maps] & _ & H)]; [| discriminate].
    revert H. apply group_loop_Err. now apply sorted_by_Forall. }
  apply bind_Err in H. destruct H as [H | (maps5 & _ & H)].
  { unfold push_groups in H. apply bind_Err in H.
    destruct H as [H | ([cm maps] & _ & H)]; [| discriminate].
    revert H. apply group_loop_Err. now apply sorted_by_Forall. }
  apply bind_Err in H. destruct H as [H | (doc & _ & H)]; [| discriminate].
  revert H. unfold render_all.
  apply (for_each_Err (fun e => e <> IndexError)).
  intros lines [tag nm] e' He. apply bind_Err in He.
  destruct He as [He | (? & _ & He)]; [| discriminate].
  unfold render_note_map in He.
  destruct (raws nm), (ticks_per_measure nm =? 0); try discriminate;
    injection He as <-; discriminate.
Qed.

Lemma sort_groups_empty (groups : list (list Note)) :
  Exists (fun steps => steps = []) groups -> sort_groups groups = Err IndexError.
Proof.
  intros H. unfold sort_groups.
  replace (forallb _ groups) with false; [reflexivity |].
  symmetry. apply not_true_is_false. intros Hall.
  rewrite forallb_forall in Hall. apply Exists_exists in H.
  destruct H as (steps & Hin & ->).
  specialize (Hall [] (proj1 (list_elem_of_In _ _) Hin)). discriminate.
Qed.

Lemma sort_groups_cases (groups : list (list Note)) :
  sort_groups groups = Ok (sorted_by first_tick groups)
  \/ sort_groups groups = Err IndexError.
Proof. unfold sort_groups. destruct (forallb _ groups); auto. Qed.

Lemma dumps_group_without_steps (score : Score) (comment : string) st :
  for_each metadata_step (metadata score) ([Comment comment], 480) = Ok st ->
  Exists (fun steps => steps = []) (slides score)
  \/ Exists (fun steps => steps = []) (guides score) ->
  dumps score comment = Err IndexError.
Proof.
  intros Hmeta H. destruct st as [lines0 tpb].
  unfold dumps. rewrite Hmeta. cbn [mbind result_bind].
  destruct (sort_groups_cases (slides score)) as [Hslides | ->]; [| reflexivity].
  destruct H as [H | H].
  - apply sort_groups_empty in H. congruence.
  - rewrite Hslides. cbn [mbind result_bind]. now rewrite (sort_groups_empty _ H).
Qed.

Lemma slide_of_nil (note : Slide.t) :
  slide_of note = []
  <-> Forall (fun step => slide_type step = None) (Slide.connections note).
Proof.
  unfold slide_of. split.
  - intros H. apply Forall_forall. intros step Hin.
    apply (sorted_on_elem SlidePoint.beat) in Hin.
    destruct (slide_type step) as [ty |] eqn:Hty; [exfalso | reflexivity].
    assert (Hnote : sus_note (SlidePoint.beat step) (SlidePoint.lane step)
                      (SlidePoint.size step) ty
                    ∈ omap slide_note (sorted_on SlidePoint.beat (Slide.connections note))).
    { apply list_elem_of_omap. exists step. split; [exact Hin |].
      unfold slide_note. now rewrite Hty. }
    rewrite H in Hnote. now apply elem_of_nil in Hnote.
  - intros H.
    assert (Hsorted : Forall (fun step => slide_type step = None)
                        (sorted_on SlidePoint.beat (Slide.connections note))).
    { apply Forall_forall. intros step Hin. apply sorted_on_elem in Hin.
      rewrite Forall_forall in H. now apply H. }
    induction Hsorted as [| step steps Hstep _ IH]; [reflexivity |].
    cbn [omap list_omap]. unfold slide_note at 1. rewrite Hstep. exact IH.
Qed.

Lemma guide_of_nil (note : Guide.t) :
  guide_of note = [] <-> Guide.midpoints note = [].
Proof.
  assert (Hlen : length (guide_of note) = length (Guide.midpoints note)).
  { unfold guide_of.
    rewrite length_fmap, length_zip, length_seq, sorted_on_length. lia. }
  split; intros H.
  - rewrite H in Hlen. destruct (Guide.midpoints note); [reflexivity | discriminate].
  - rewrite H in Hlen. destruct (guide_of note); [reflexivity | discriminate].
Qed.

Lemma groups_with_or_without_steps (notes : list note_object) :
  Exists no_steps notes
  \/ (Forall (fun steps => steps <> []) (slides_of notes)
      /\ Forall (fun steps => steps <> []) (guides_of notes)).
Proof.
  induction notes as [| note notes IH]; [right; split; constructor |].
  destruct IH as [IH | [Hs Hg]]; [left; now constructor |].
  destruct note as [note | note | note | note | note |];
    try (right; split; assumption).
  - destruct (slide_of note) as [| first rest] eqn:Hgroup.
    + left. constructor. apply slide_of_nil. exact Hgroup.
    + right. split; [| exact Hg]. cbn [slides_of omap list_omap]. rewrite Hgroup.
      constructor; [discriminate | exact Hs].
  - destruct (guide_of note) as [| first rest] eqn:Hgroup.
    + left. constructor. apply guide_of_nil. exact Hgroup.
    + right. split; [exact Hs |]. cbn [guides_of omap list_omap]. rewrite Hgroup.
      constructor; [discriminate | exact Hg].
Qed.

Lemma no_steps_empty_group (notes : list note_object) :
  Exists no_steps notes ->
  Exists (fun steps => steps = []) (slides_of notes)
  \/ Exists (fun steps => steps = []) (guides_of notes).
Proof.
  induction 1 as [note notes Hnote | note notes _ IH].
  - destruct note as [note | note | note | note | note |]; try contradiction.
    + left. cbn [slides_of omap list_omap]. constructor. now apply slide_of_nil.
    + right. cbn [guides_of omap list_omap]. constructor. now apply guide_of_nil.
  - destruct IH as [IH | IH]; [left | right];
      destruct note as [note | note | note | note | note |]; try exact IH;
      cbn [slides_of guides_of omap list_omap]; now apply Exists_cons_tl.
Qed.

Lemma export_Err (f : Q -> string) sus_metadata default_tils notes e :
  export f sus_metadata default_tils notes = Err e
  <-> dumps (export_score sus_metadata default_tils notes)
            "This file was generated by SUSC Tools 0.1.0" = Err e.
Proof.
  unfold export, dumps_text.
  destruct (dumps _ _) as [doc | e']; cbn [mbind result_bind]; split;
    congruence || discriminate.
Qed.

(** X17: when the override requests of the metadata are well formed,
    [export] fails with an IndexError exactly when the input has a slide
    none of whose connections is a start, tick, attach or end point, or a
    guide without midpoints: the empty group reaches [dumps], whose sort key
    reads the first step. *)
Theorem export_IndexError_iff_group_without_steps :
  forall (f : Q -> string) (sus_metadata : list meta_field)
         (default_tils : list (Z * Q)) (notes : list note_object),
    Forall well_formed_request (requests_of sus_metadata) ->
    (export f sus_metadata default_tils notes = Err IndexError
     <-> Exists no_steps notes).
Proof.
  intros f sus_metadata default_tils notes Hreq.
  apply (metadata_loop_Ok_iff sus_metadata
           [Comment "This file was generated by SUSC Tools 0.1.0"] 480) in Hreq.
  destruct Hreq as [st Hmeta].
  destruct (export_lists_spec notes) as (Hs & Hg & _).
  rewrite export_Err. split.
  - intros H. destruct (groups_with_or_without_steps notes) as [| [Hslides Hguides]];
      [assumption | exfalso].
    apply (dumps_no_IndexError (export_score sus_metadata default_tils notes) _ st
             IndexError) in H; [now apply H | exact Hmeta | |];
      cbn [export_score slides guides]; [rewrite Hs | rewrite Hg]; assumption.
  - intros H. apply no_steps_empty_group in H.
    apply (dumps_group_without_steps
             (export_score sus_metadata default_tils notes) _ st);
      cbn [export_score metadata slides guides]; [exact Hmeta |].
    rewrite Hs, Hg. exact H.
Qed.

Lemma export_IndexError_iff_group_without_steps_witness :
  export (fun _ => "1.0") [Field "title" (Some (MStr "t")); Requests None] []
         [OfGuide (Guide.mk [] "green")] = Err IndexError
  <-> Exists no_steps [OfGuide (Guide.mk [] "green")].
Proof.
  apply (export_IndexError_iff_group_without_steps (fun _ => "1.0")
           [Field "title" (Some (MStr "t")); Requests None] []
           [OfGuide (Guide.mk [] "green")]).
  simpl. constructor.
Defined.



(** ** Measures of exported notes *)




(** ** The text of the file *)

Lemma string_app_assoc (s1 s2 s3 : string) : (s1 +:+ s2) +:+ s3 = s1 +:+ s2 +:+ s3.
Proof.
  induction s1 as [| c s1 IH]; [reflexivity | exact (f_equal (String c) IH)].
Qed.

Lemma string_app_empty_r (s : string) : s +:+ EmptyString = s.
Proof.
  induction s as [| c s IH]; [reflexivity | exact (f_equal (String c) IH)].
Qed.

Lemma concat_snoc (sep : string) (ls : list string) (x : string) :
  ls <> [] -> String.concat sep (ls ++ [x]) = String.concat sep ls +:+ sep +:+ x.
Proof.
  induction ls as [| a [| b ls] IH]; intros Hne; [contradiction | reflexivity |].
  change (String.concat sep ((a :: b :: ls) ++ [x]))
    with (a +:+ sep +:+ String.concat sep ((b :: ls) ++ [x])).
  rewrite IH by discriminate.
  change (String.concat sep (a :: b :: ls))
    with (a +:+ sep +:+ String.concat sep (b :: ls)).
  now rewrite !string_app_assoc.
Qed.

Lemma concat_after_last_line (sep : string) (ls : list string) (x : string) :
  String.concat sep (ls ++ [EmptyString]) +:+ x = String.concat sep (ls ++ [x]).
Proof.
  destruct ls as [| a ls]; [reflexivity |].
  rewrite !concat_snoc by discriminate.
  now rewrite !string_app_assoc.
Qed.

Lemma concat_block (sep : string) (ls : list string) (a b c : string) :
  String.concat sep (ls ++ [EmptyString]) +:+ a +:+ sep +:+ b +:+ sep +:+ c +:+ sep
  = String.concat sep (ls ++ [a; b; c; EmptyString]).
Proof.
  change (ls ++ [a; b; c; EmptyString])
    with (ls ++ [a] ++ [b] ++ [c] ++ [EmptyString]).
  rewrite !app_assoc.
  rewrite (concat_snoc sep (((ls ++ [a]) ++ [b]) ++ [c]))
    by (intros H; apply app_eq_nil in H; destruct H; discriminate).
  rewrite (concat_snoc sep ((ls ++ [a]) ++ [b]))
    by (intros H; apply app_eq_nil in H; destruct H; discriminate).
  rewrite (concat_snoc sep (ls ++ [a]))
    by (intros H; apply app_eq_nil in H; destruct H; discriminate).
  rewrite <- (concat_after_last_line sep ls a).
  rewrite !string_app_assoc, string_app_empty_r. reflexivity.
Qed.

(** X20: the file that [export] writes is the document of [dumps] with its
    closing blank line replaced by a second timescale block: the document
    already has a [#TIL00], a [#HISPEED 00] and a [#MEASUREHS 00] line, and
    [export] appends the three lines once more, the timescale changes of the
    input appearing in the second [#TIL00] line only. *)
Theorem export_writes_the_timescale_block_twice :
  forall (f : Q -> string) (sus_metadata : list meta_field)
         (default_tils : list (Z * Q)) (notes : list note_object) (text : string),
    export f sus_metadata default_tils notes = Ok text ->
    exists (body : list line) (tl : list (Z * Z * Q)),
      dumps (export_score sus_metadata default_tils notes)
            "This file was generated by SUSC Tools 0.1.0" = Ok (body ++ [Blank])
      /\ til_list (active_ticks_per_beat sus_metadata) (sorted_by fst default_tils) = Ok tl
      /\ TilLine tl ∈ body /\ HiSpeedLine ∈ body /\ MeasureHsLine ∈ body
      /\ text = String.concat nl
                  (line_text f false
                     <$> body ++ [TilLine (tils_of notes); HiSpeedLine;
                                  MeasureHsLine; Blank]).
Proof.
  intros f sus_metadata default_tils notes text H.
  unfold export, dumps_text in H.
  destruct (dumps _ _) as [doc | e] eqn:Hdoc; [| discriminate].
  cbn [mbind result_bind] in H. injection H as <-.
  destruct (export_lists_spec notes) as (_ & _ & _ & ->).
  apply dumps_Ok_inv in Hdoc.
  destruct Hdoc as (sc & gc & tl & maps & note_lines & _ & _ & _ & Htl & _ & _ & ->).
  cbn [export_score metadata tils bar_lengths] in *.
  match goal with
  | |- context [Ok (?a ++ ?b ++ ?c ++ ?d ++ ?e ++ ?g ++ ?h ++ ?i ++ ?j ++ ?k ++ [Blank])] =>
      exists (a ++ b ++ c ++ d ++ e ++ g ++ h ++ i ++ j ++ k), tl
  end.
  split; [now rewrite <- !app_assoc |].
  split; [exact Htl |].
  split; [set_solver |]. split; [set_solver |]. split; [set_solver |].
  rewrite <- !app_assoc.
  match goal with
  | |- context [line_text f false <$> ?doc] =>
      match doc with
      | context [TilLine (tils_of notes)] => fail 1
      | _ => set (lines := doc)
      end
  end.
  match goal with
  | |- _ = String.concat nl (line_text f false <$> ?doc) =>
      replace doc
        with (removelast lines
              ++ [TilLine (tils_of notes); HiSpeedLine; MeasureHsLine; Blank])
  end.
  2: { unfold lines. rewrite !app_assoc, removelast_last. now rewrite <- !app_assoc. }
  assert (Hlines : lines = removelast lines ++ [Blank]).
  { unfold lines. rewrite !app_assoc, removelast_last. reflexivity. }
  rewrite Hlines at 1. rewrite !fmap_app.
  change (line_text f false <$> [Blank]) with [EmptyString].
  change (line_text f false
            <$> [TilLine (tils_of notes); HiSpeedLine; MeasureHsLine; Blank])
    with [line_text f false (TilLine (tils_of notes)); "#HISPEED 00";
          "#MEASUREHS 00"; EmptyString].
  rewrite <- concat_block. f_equal.
  cbn [line_text]. rewrite !string_app_assoc. reflexivity.
Qed.

Lemma export_writes_the_timescale_block_twice_witness :
  exists (body : list line) (tl : list (Z * Z * Q)),
    dumps (export_score [Field "title" None; Requests None] []
             [OfTimeScaleGroup (TimeScaleGroup.mk [TimeScalePoint.mk 4 2])])
          "This file was generated by SUSC Tools 0.1.0" = Ok (body ++ [Blank])
    /\ til_list (active_ticks_per_beat [Field "title" None; Requests None])
                (sorted_by fst []) = Ok tl
    /\ TilLine tl ∈ body /\ HiSpeedLine ∈ body /\ MeasureHsLine ∈ body
    /\ String.concat nl
         (line_text (fun _ => "2.0") false
            <$> [Comment "This file was generated by SUSC Tools 0.1.0"; Blank; 
                 BarLengthLine 0 (4 # 1); Blank; Blank; TilLine []; HiSpeedLine;
                 MeasureHsLine; Blank; TilLine [(1, 0, 2%Q)]; HiSpeedLine;
                 MeasureHsLine; Blank])
       = String.concat nl
           (line_text (fun _ => "2.0") false
              <$> body ++ [TilLine (tils_of [OfTimeScaleGroup
                                               (TimeScaleGroup.mk
                                                  [TimeScalePoint.mk 4 2])]);
                           HiSpeedLine; MeasureHsLine; Blank]).
Proof.
  apply (export_writes_the_timescale_block_twice (fun _ => "2.0")
           [Field "title" None; Requests None] []
           [OfTimeScaleGroup (TimeScaleGroup.mk [TimeScalePoint.mk 4 2])]).
  vm_compute. reflexivity.
Defined.

(** * Further properties of the allocator *)

Lemma allocate_all_overlapping (rest : list (Z * Z)) :
  forall used : list (Z * Z),
    (length used <= 36)%nat ->
    Forall (fun u => u <> (0, 0) /\ Forall (overlap u) rest) used ->
    all_overlapping rest ->
    allocate (used ++ replicate (36 - length used) (0, 0)) rest
    = if (length used + length rest <=? 36)%nat
      then Ok (Z.of_nat <$> seq (length used) (length rest))
      else Err NoChannel.
Proof.
  induction rest as [| [s e] rest IH]; intros used Hlen Hused Hrest.
  - cbn [allocate length seq fmap list_fmap]. rewrite Nat.add_0_r.
    destruct (Nat.leb_spec (length used) 36); [reflexivity | lia].
  - destruct Hrest as (Hne & Hover & Hrest).
    assert (Hbusy : Forall (fun b => free_for s e b = false) used).
    { eapply Forall_impl; [exact Hused |]. intros u [Hu Hall].
      apply free_for_false. split; [exact Hu |]. now inversion Hall. }
    cbn [allocate length]. unfold generate_channel.
    destruct (Nat.eq_dec (length used) 36%nat) as [Hfull | Hroom].
    + rewrite Hfull. cbn [Nat.sub replicate]. rewrite app_nil_r.
      rewrite (proj2 (scan_None used 0 s e) Hbusy). cbn [mbind result_bind].
      destruct (Nat.leb_spec (36 + S (length rest)) 36); [lia | reflexivity].
    + replace (36 - length used)%nat with (S (36 - S (length used))) by lia.
      cbn [replicate].
      assert (Hscan : scan (used ++ (0, 0) :: replicate (36 - S (length used)) (0, 0))
                           0 s e = Some (length used)).
      { apply scan_Some. exists (length used), (0, 0). split; [reflexivity |].
        split; [apply list_lookup_middle; reflexivity |].
        split; [apply free_for_spec; now left |].
        intros j b Hj Hb. rewrite lookup_app_l in Hb by exact Hj.
        rewrite Forall_forall in Hbusy. apply Hbusy.
        apply list_elem_of_lookup. eauto. }
      rewrite Hscan. cbn [mbind result_bind].
      rewrite insert_app_r_alt by lia. rewrite Nat.sub_diag. cbn [insert list_insert].
      replace (used ++ (s, e) :: replicate (36 - S (length used)) (0, 0))
        with ((used ++ [(s, e)])
              ++ replicate (36 - length (used ++ [(s, e)])) (0, 0)).
      2: { rewrite length_app, <- app_assoc. cbn [length app].
           now replace (36 - (length used + 1))%nat with (36 - S (length used))%nat
             by lia. }
      rewrite IH.
      * rewrite length_app. cbn [length].
        replace (length used + 1 + length rest)%nat
          with (length used + S (length rest))%nat by lia.
        destruct (_ <=? _)%nat; [| reflexivity].
        cbn [mbind result_bind seq fmap list_fmap].
        now replace (length used + 1)%nat with (S (length used)) by lia.
      * rewrite length_app. simpl. lia.
      * apply Forall_app. split.
        -- eapply Forall_impl; [exact Hused |]. intros u [Hu Hall].
           split; [exact Hu | now inversion Hall].
        -- repeat constructor; assumption.
      * exact Hrest.
Qed.

(** X21: groups that are all held at once (every two intervals overlap, none
    is [(0, 0)]) take the channels 0, 1, 2, ... of a fresh allocator in the
    order in which they are served, and the allocation fails with
    'No more channel available.' exactly when there are more than 36 of
    them. *)
Theorem overlapping_groups_take_channels_in_order :
  forall intervals : list (Z * Z),
    all_overlapping intervals ->
    allocate init intervals
    = if (length intervals <=? 36)%nat
      then Ok (Z.of_nat <$> seq 0 (length intervals))
      else Err NoChannel.
Proof.
  intros intervals H.
  change init with ([] ++ replicate (36 - length (@nil (Z * Z))) (0, 0)).
  rewrite (allocate_all_overlapping intervals []).
  - reflexivity.
  - simpl. lia.
  - constructor.
  - exact H.
Qed.

Lemma overlapping_groups_take_channels_in_order_witness :
  allocate init [(1, 10); (5, 8); (8, 20)] = Ok [0; 1; 2].
Proof.
  apply (overlapping_groups_take_channels_in_order [(1, 10); (5, 8); (8, 20)]).
  repeat split; try discriminate; repeat constructor; unfold overlap; simpl; lia.
Defined.

(** * No located note is lost *)







(** ** The notes of a [Single] in the exported score *)












